(** * Concealment engine of obsidian-latex-suite

    A shallow embedding of the concealment engine:
    - [src/editor_extensions/conceal.ts]: the data model, the cursor
      classifier, the identity matching across edits, the decision table
      and the update listener with its delayed-reveal timer;
    - [src/editor_extensions/conceal_fns.ts]: the scanner that turns the
      text of one equation into conceal specs;
    - [src/utils/editor_utils.ts]: the bracket matcher;
    - [src/utils/context.ts]: the bounds of the equation around a
      position;
    - earlier revisions of the classifier, of the identity matching, of
      the scanner and of the decoration builder.

    JavaScript numbers that hold offsets are modelled as [Z], strings as
    [string] (one [ascii] per code unit; the scanner only ever compares
    code units with ASCII literals). Display strings are opaque to the
    engine and are kept as the source file writes them. *)

From Stdlib Require Import ZArith Lia Bool List Ascii String.
From stdpp Require Import base option list gmap.
Import ListNotations.

Local Open Scope Z_scope.

#[local] Set Warnings "-register-all".

(** ** Data model ([conceal.ts]) *)

(** One atomic substitution: the object type
    [{start, end, replacement, class?, elementType?}]. *)
Record Replacement := mkReplacement {
  start : Z;
  end_ : Z;
  replacement : string;
  class : option string;
  elementType : option string;
}.

(** [ConcealSpec]: a single replacement object, or an array of conceal
    specs (the TypeScript type asks the array to be non-empty; the code
    tests [Array.isArray] only). *)
Inductive ConcealSpec :=
| Single (r : Replacement)
| Group (members : list ConcealSpec).

Inductive CursorPosType := within | apart | edge.

Inductive ConcealAction := a_conceal | a_reveal | a_delay.

Record Concealment := mkConcealment {
  spec : ConcealSpec;
  cursorPosType : CursorPosType;
  enable : bool;
}.

(** A range of the host's [EditorSelection]. *)
Record SelectionRange := mkRange { from : Z; to : Z }.

Record EditorSelection := mkSelection { ranges : list SelectionRange }.

Definition CursorPosType_eqb (a b : CursorPosType) : bool :=
  match a, b with
  | within, within | apart, apart | edge, edge => true
  | _, _ => false
  end.

Definition ConcealAction_eqb (a b : ConcealAction) : bool :=
  match a, b with
  | a_conceal, a_conceal | a_reveal, a_reveal | a_delay, a_delay => true
  | _, _ => false
  end.

(** Induction over the nested array structure of a conceal spec. *)
Section ConcealSpec_nested_ind.
Variable P : ConcealSpec -> Prop.
Hypothesis HSingle : forall r, P (Single r).
Hypothesis HGroup : forall l, Forall P l -> P (Group l).

Fixpoint ConcealSpec_nested_ind (s : ConcealSpec) : P s :=
  match s with
  | Single r => HSingle r
  | Group l =>
      HGroup l
        ((fix all (l : list ConcealSpec) : Forall P l :=
            match l with
            | [] => @List.Forall_nil _ P
            | x :: l' => @List.Forall_cons _ P x l' (ConcealSpec_nested_ind x) (all l')
            end) l)
  end.
End ConcealSpec_nested_ind.

(** ** [iterConcealSpec]

    The callback [f] reads and writes captured variables and may return
    [false] to stop: it is a state transformer that also says whether it
    returned [false]. The result flag is [true] exactly when the source
    returns [false]. *)
Fixpoint iterConcealSpec {S : Type} (spec : ConcealSpec)
    (f : Replacement -> S -> S * bool) (s : S) : S * bool :=
  match spec with
  | Single r => f r s
  | Group members =>
      (fix loop (l : list ConcealSpec) (s : S) : S * bool :=
         match l with
         | [] => (s, false)
         | subSpec :: l' =>
             let '(s', b) := iterConcealSpec subSpec f s in
             if b then (s', true) else loop l' s'
         end) members s
  end.

(** The member replacements of a conceal spec, in iteration order. *)
Fixpoint replacements (spec : ConcealSpec) : list Replacement :=
  match spec with
  | Single r => [r]
  | Group members => flat_map replacements members
  end.

(** The same early-exit iteration over a flat list of replacements. *)
Fixpoint iterReplacements {S : Type} (l : list Replacement)
    (f : Replacement -> S -> S * bool) (s : S) : S * bool :=
  match l with
  | [] => (s, false)
  | r :: l' =>
      let '(s', b) := f r s in
      if b then (s', true) else iterReplacements l' f s'
  end.

(** ** [determineAction] *)
Definition determineAction (oldCursor : option CursorPosType)
    (newCursor : CursorPosType) (mousedown : bool) : ConcealAction :=
  if mousedown then a_conceal
  else match newCursor with
       | apart => a_conceal
       | within => a_reveal
       | edge =>
           match oldCursor with
           | None => a_reveal
           | Some within => a_reveal
           | Some _ => a_delay
           end
       end.

(** ** [determineCursorPosType] *)

(** The body of the callback given to [iterConcealSpec]: the state is the
    captured variable [cursorPosType]. *)
Definition classifyStep (range : SelectionRange) (singleSpec : Replacement)
    (cursorPosType : CursorPosType) : CursorPosType * bool :=
  let overlapRangeFrom := Z.max (from range) (start singleSpec) in
  let overlapRangeTo := Z.min (to range) (end_ singleSpec) in
  if (overlapRangeFrom =? overlapRangeTo)
     && ((overlapRangeFrom =? start singleSpec)
         || (overlapRangeFrom =? end_ singleSpec))
  then (edge, false)
  else if overlapRangeFrom <=? overlapRangeTo
  then (within, true)
  else (cursorPosType, false).

Fixpoint classifyRanges (rs : list SelectionRange) (concealSpec : ConcealSpec)
    (cursorPosType : CursorPosType) : CursorPosType :=
  match rs with
  | [] => cursorPosType
  | range :: rs' =>
      let '(c, _) := iterConcealSpec concealSpec (classifyStep range) cursorPosType in
      if CursorPosType_eqb c within then within
      else classifyRanges rs' concealSpec c
  end.

Definition determineCursorPosType (sel : EditorSelection)
    (concealSpec : ConcealSpec) : CursorPosType :=
  classifyRanges (ranges sel) concealSpec apart.

(** ** The host's view update *)

(** What the host's syntax tree and document give for one math node whose
    equation bounds were found: [bounds.start] and the text of the
    equation. *)
Record Equation := mkEquation { boundsStart : Z; text : string }.

(** What the engine reads from the host's [ViewUpdate]:
    [update.changes.mapPos(pos, assoc)], the three change flags, the
    selection [update.state.selection], the [mousedown] flag of the
    host's live-preview plugin ([undefined] counts as [false]) and the
    equations that [conceal(update.view)] scans. *)
Record ViewUpdate := mkViewUpdate {
  mapPos : Z -> Z -> Z;
  docChanged : bool;
  viewportChanged : bool;
  selectionSet : bool;
  selection : EditorSelection;
  mousedown : bool;
  equations : list Equation;
}.

(** ** [atSamePosAfter] *)
Fixpoint atSamePosAfter (update : ViewUpdate)
    (oldConceal newConceal : ConcealSpec) : bool :=
  match oldConceal, newConceal with
  | Single o, Single n =>
      let oldStartUpdated := mapPos update (start o) 1 in
      let oldEndUpdated := mapPos update (end_ o) (-1) in
      (oldStartUpdated =? start n) && (oldEndUpdated =? end_ n)
  | Group olds, Group news =>
      if negb (Nat.eqb (length olds) (length news)) then false
      else
        (fix loop (os ns : list ConcealSpec) : bool :=
           match os, ns with
           | o :: os', n :: ns' =>
               if negb (atSamePosAfter update o n) then false
               else loop os' ns'
           | _, _ => true
           end) olds news
  | _, _ => false
  end.

(** ** The revision with flat conceal specs

    A later revision of [conceal.ts] represents a conceal spec as a plain
    array of replacements and iterates over it with a [for] loop. *)
Module FlatSpec.

Abbreviation ConcealSpec := (list Replacement).

(** The inner [for (const replace of concealSpec)] loop: [continue]
    after recording edge, [break] with within. *)
Fixpoint classifyReplacements (range : SelectionRange) (l : list Replacement)
    (cursorPosType : CursorPosType) : CursorPosType :=
  match l with
  | [] => cursorPosType
  | replace :: l' =>
      let overlapRangeFrom := Z.max (from range) (start replace) in
      let overlapRangeTo := Z.min (to range) (end_ replace) in
      if (overlapRangeFrom =? overlapRangeTo)
         && ((overlapRangeFrom =? start replace)
             || (overlapRangeFrom =? end_ replace))
      then classifyReplacements range l' edge
      else if overlapRangeFrom <=? overlapRangeTo
      then within
      else classifyReplacements range l' cursorPosType
  end.

Fixpoint classifyRanges (rs : list SelectionRange) (concealSpec : ConcealSpec)
    (cursorPosType : CursorPosType) : CursorPosType :=
  match rs with
  | [] => cursorPosType
  | range :: rs' =>
      let c := classifyReplacements range concealSpec cursorPosType in
      if CursorPosType_eqb c within then within
      else classifyRanges rs' concealSpec c
  end.

Definition determineCursorPosType (sel : EditorSelection)
    (concealSpec : ConcealSpec) : CursorPosType :=
  classifyRanges (ranges sel) concealSpec apart.

(** [atSamePosAfter] of this revision: the lengths are compared, then
    the replacements index by index. *)
Definition atSamePosAfter (update : ViewUpdate)
    (oldConceal newConceal : ConcealSpec) : bool :=
  if negb (Nat.eqb (length oldConceal) (length newConceal)) then false
  else
    (fix loop (os ns : list Replacement) : bool :=
       match os, ns with
       | o :: os', n :: ns' =>
           let oldStartUpdated := mapPos update (start o) 1 in
           let oldEndUpdated := mapPos update (end_ o) (-1) in
           let b := (oldStartUpdated =? start n) && (oldEndUpdated =? end_ n) in
           if negb b then false else loop os' ns'
       | _, _ => true
       end) oldConceal newConceal.

End FlatSpec.

(** ** Vocabulary of the classifier's specification *)

Definition overlapRangeFrom (range : SelectionRange) (r : Replacement) : Z :=
  Z.max (from range) (start r).

Definition overlapRangeTo (range : SelectionRange) (r : Replacement) : Z :=
  Z.min (to range) (end_ r).

(** The overlap is one point, and that point is a boundary of [r]. *)
Definition touchesBoundary (range : SelectionRange) (r : Replacement) : Prop :=
  overlapRangeFrom range r = overlapRangeTo range r
  /\ (overlapRangeFrom range r = start r \/ overlapRangeFrom range r = end_ r).

(** The overlap has positive length. *)
Definition overlapsProperly (range : SelectionRange) (r : Replacement) : Prop :=
  overlapRangeFrom range r < overlapRangeTo range r.

(** The overlap is one point strictly between the boundaries of [r]. *)
Definition pointInside (range : SelectionRange) (r : Replacement) : Prop :=
  overlapRangeFrom range r = overlapRangeTo range r
  /\ overlapRangeFrom range r <> start r
  /\ overlapRangeFrom range r <> end_ r.

(** What the within branch of the classifier accepts: an overlap of
    positive length, or a single point that is not a boundary of [r]. *)
Definition insideOverlap (range : SelectionRange) (r : Replacement) : Prop :=
  overlapsProperly range r \/ pointInside range r.

(** Some range of the selection and some member of the spec satisfy [R]. *)
Definition somePair (R : SelectionRange -> Replacement -> Prop)
    (sel : EditorSelection) (concealSpec : ConcealSpec) : Prop :=
  exists range r,
    In range (ranges sel) /\ In r (replacements concealSpec) /\ R range r.

(** ** Vocabulary of identity matching *)

(** Same shape: both single, or both arrays of equal length whose
    corresponding members have the same shape. *)
Fixpoint sameShape (o n : ConcealSpec) : Prop :=
  match o, n with
  | Single _, Single _ => True
  | Group olds, Group news =>
      length olds = length news
      /\ (fix all (os ns : list ConcealSpec) : Prop :=
            match os, ns with
            | [], [] => True
            | o :: os', n :: ns' => sameShape o n /\ all os' ns'
            | _, _ => False
            end) olds news
  | _, _ => False
  end.

(** The old boundaries, mapped through the edit, are the new boundaries:
    the start with association [1], the end with association [-1]. *)
Definition boundariesMapTo (update : ViewUpdate) (o n : Replacement) : Prop :=
  mapPos update (start o) 1 = start n /\ mapPos update (end_ o) (-1) = end_ n.

(** ** JavaScript strings

    Offsets are [Z]; the operations clamp them the way the JavaScript
    string methods do. *)

Definition jsLength (s : string) : Z := Z.of_nat (String.length s).

Definition clampIndex (n len : Z) : Z := Z.max 0 (Z.min n len).

(** [s.substring(a, b)]: both indices are clamped to [0, length] and
    swapped when [a > b]. *)
Definition jsSubstring (s : string) (a b : Z) : string :=
  let len := jsLength s in
  let a' := clampIndex a len in
  let b' := clampIndex b len in
  let lo := Z.min a' b' in
  let hi := Z.max a' b' in
  String.substring (Z.to_nat lo) (Z.to_nat (hi - lo)) s.

(** [s.slice(a, b)]: a negative index counts from the end; the result is
    empty when the start is not before the end. *)
Definition jsSlice (s : string) (a b : Z) : string :=
  let len := jsLength s in
  let rel (n : Z) := if n <? 0 then Z.max (len + n) 0 else Z.min n len in
  let a' := rel a in
  let b' := rel b in
  String.substring (Z.to_nat a') (Z.to_nat (Z.max (b' - a') 0)) s.

(** [s.charAt(i)]: the one-unit string at [i], or the empty string. *)
Definition jsCharAt (s : string) (i : Z) : string :=
  if (0 <=? i) && (i <? jsLength s)
  then String.substring (Z.to_nat i) 1 s
  else EmptyString.

(** [reverse(s)] of [editor_utils.ts]: the units of [s] in reverse
    order. *)
Definition reverse (s : string) : string :=
  string_of_list_ascii (rev (list_ascii_of_string s)).

Definition inRange (lo hi c : ascii) : bool :=
  (Ascii.leb lo c) && (Ascii.leb c hi).

Definition isUpper (c : ascii) : bool := inRange "A" "Z" c.
Definition isLower (c : ascii) : bool := inRange "a" "z" c.
Definition isDigit (c : ascii) : bool := inRange "0" "9" c.
Definition isLetter (c : ascii) : bool := isUpper c || isLower c.

Definition oneOf (chars : string) (c : ascii) : bool :=
  existsb (Ascii.eqb c) (list_ascii_of_string chars).

(** ** Regular expressions

    The scanner hands regular expressions to the JavaScript engine. The
    engine is outside the repository; it is modelled by a backtracking
    matcher over the syntax trees of the expressions the scanner builds:
    literals, character classes, a greedy [+] over a class, the end
    anchor, sequence, ordered alternation and numbered capture groups. *)
Module RegExp.

Inductive regex :=
| Lit (s : string)
| Class (p : ascii -> bool)
| ClassPlus (p : ascii -> bool)
| End
| Seq (r1 r2 : regex)
| Alt (r1 r2 : regex)
| Capture (n : nat) (r : regex).

(** Capture groups: number, start and end offset, newest first. *)
Definition captures := list (nat * (nat * nat)).

Fixpoint stripPrefix (l s : string) : option string :=
  match l with
  | EmptyString => Some s
  | String a l' =>
      match s with
      | String c s' => if Ascii.eqb a c then stripPrefix l' s' else None
      | EmptyString => None
      end
  end.

Section Matcher.
Context {R : Type}.

(** Zero or more units of the class, longest first. *)
Fixpoint classStar (p : ascii -> bool) (s : string) (pos : nat)
    (k : string -> nat -> option R) : option R :=
  match s with
  | String c s' =>
      if p c then
        match classStar p s' (S pos) k with
        | Some x => Some x
        | None => k s pos
        end
      else k s pos
  | EmptyString => k s pos
  end.

(** [rmatch r s pos caps k]: match [r] against the input that remains
    at offset [pos], then continue with [k]; [None] makes the matcher
    backtrack. *)
Fixpoint rmatch (r : regex) (s : string) (pos : nat) (caps : captures)
    (k : string -> nat -> captures -> option R) : option R :=
  match r with
  | Lit l =>
      match stripPrefix l s with
      | Some s' => k s' (pos + String.length l)%nat caps
      | None => None
      end
  | Class p =>
      match s with
      | String c s' => if p c then k s' (S pos) caps else None
      | EmptyString => None
      end
  | ClassPlus p =>
      match s with
      | String c s' =>
          if p c then classStar p s' (S pos) (fun s'' pos' => k s'' pos' caps)
          else None
      | EmptyString => None
      end
  | End =>
      match s with
      | EmptyString => k s pos caps
      | String _ _ => None
      end
  | Seq r1 r2 =>
      rmatch r1 s pos caps (fun s' pos' caps' => rmatch r2 s' pos' caps' k)
  | Alt r1 r2 =>
      match rmatch r1 s pos caps k with
      | Some x => Some x
      | None => rmatch r2 s pos caps k
      end
  | Capture n r' =>
      rmatch r' s pos caps
        (fun s' pos' caps' => k s' pos' ((n, (pos, pos')) :: caps'))
  end.
End Matcher.

(** A match attempt that starts exactly at [pos]: the end offset and
    the captures. *)
Definition matchAt (r : regex) (s : string) (pos : nat)
    : option (nat * captures) :=
  rmatch r s pos [] (fun _ e caps => Some (e, caps)).

(** One element of the result of [matchAll]: [index] is [match.index],
    [group 0] is [match[0]]. *)
Record Match := mkMatch {
  index : Z;
  whole : string;
  groups : list (nat * string);
}.

Fixpoint lookupGroup (n : nat) (gs : list (nat * string)) : string :=
  match gs with
  | [] => EmptyString
  | (m, s) :: gs' => if Nat.eqb n m then s else lookupGroup n gs'
  end.

(** [match[n]] *)
Definition group (m : Match) (n : nat) : string :=
  match n with
  | O => whole m
  | _ => lookupGroup n (groups m)
  end.

Definition mkMatchAt (text : string) (pos e : nat) (caps : captures) : Match :=
  {| index := Z.of_nat pos;
     whole := String.substring pos (e - pos) text;
     groups := map (fun c : nat * (nat * nat) =>
                      (fst c, String.substring (fst (snd c))
                                (snd (snd c) - fst (snd c)) text)) caps |}.

(** The loop of [matchAll] for a global expression: [s] is the input
    that remains at offset [pos]; [skip] counts the units still covered
    by the previous match, where no match may start. After an empty
    match the search resumes one unit further. *)
Fixpoint matchAllFrom (r : regex) (text s : string) (pos skip : nat)
    : list Match :=
  match skip with
  | S skip' =>
      match s with
      | EmptyString => []
      | String _ s' => matchAllFrom r text s' (S pos) skip'
      end
  | O =>
      match matchAt r s pos with
      | Some (e, caps) =>
          mkMatchAt text pos e caps ::
            match s with
            | EmptyString => []
            | String _ s' => matchAllFrom r text s' (S pos) (Nat.pred (e - pos))
            end
      | None =>
          match s with
          | EmptyString => []
          | String _ s' => matchAllFrom r text s' (S pos) O
          end
      end
  end.

(** [[...text.matchAll(r)]] *)
Definition matchAll (r : regex) (text : string) : list Match :=
  matchAllFrom r text text O O.

(** [a|b|c] over literal alternatives; the empty list is the empty
    expression. *)
Fixpoint alternatives (names : list string) : regex :=
  match names with
  | [] => Lit EmptyString
  | [n] => Lit n
  | n :: names' => Alt (Lit n) (alternatives names')
  end.

(** [text.replace(r, f)] for a global expression [r] and a callback
    [f]: [ms] are the matches, [pos] the offset already copied. *)
Fixpoint replaceMatches (text : string) (ms : list Match) (pos : Z)
    (f : Match -> string) : string :=
  match ms with
  | [] => jsSubstring text pos (jsLength text)
  | m :: ms' =>
      (jsSubstring text pos (index m) ++ f m
       ++ replaceMatches text ms' (index m + jsLength (whole m)) f)%string
  end.

Definition replace (text : string) (r : regex) (f : Match -> string) : string :=
  replaceMatches text (matchAll r text) 0 f.

End RegExp.

(** ** The bracket matcher ([editor_utils.ts]) *)

(** The [for] loop of [findMatchingBracket]: [n] iterations remain, [i]
    is the loop variable and [brackets] the nesting depth. *)
Fixpoint findMatchingBracketLoop (n : nat) (text : string) (i : Z)
    (openBracket closeBracket : string) (brackets : Z) : Z :=
  match n with
  | O => -1
  | S n' =>
      if String.eqb (jsSlice text i (i + jsLength openBracket)) openBracket then
        findMatchingBracketLoop n' text (i + 1) openBracket closeBracket
          (brackets + 1)
      else if String.eqb (jsSlice text i (i + jsLength closeBracket)) closeBracket then
        let brackets := brackets - 1 in
        if brackets =? 0 then i
        else findMatchingBracketLoop n' text (i + 1) openBracket closeBracket
               brackets
      else
        findMatchingBracketLoop n' text (i + 1) openBracket closeBracket
          brackets
  end.

(** The forward search: [end] is optional, and [0] counts as absent. *)
Definition findMatchingBracketForward (text : string) (start : Z)
    (openBracket closeBracket : string) (end' : option Z) : Z :=
  let stop :=
    match end' with
    | Some e => if e =? 0 then jsLength text else e
    | None => jsLength text
    end in
  findMatchingBracketLoop (Z.to_nat (stop - start)) text start
    openBracket closeBracket 0.

Definition findMatchingBracket (text : string) (start : Z)
    (openBracket closeBracket : string) (searchBackwards : bool)
    (end' : option Z) : Z :=
  if searchBackwards then
    let reversedIndex :=
      findMatchingBracketForward (reverse text)
        (jsLength text - (start + jsLength closeBracket))
        (reverse closeBracket) (reverse openBracket) None in
    if reversedIndex =? -1 then -1
    else jsLength text - (reversedIndex + jsLength openBracket)
  else findMatchingBracketForward text start openBracket closeBracket end'.

(** ** The scanner ([conceal_fns.ts]) *)

(** The element type of [ConcealSpecList]: an object with the one field
    [inner]. *)
Record Container := mkContainer { inner : ConcealSpec }.

Abbreviation ConcealSpecList := (list Container).

(** A symbol table of [conceal_maps.ts]: its entries in the order in
    which [Object.keys] enumerates them. *)
Abbreviation SymbolMap := (list (string * string)).

Definition keys (m : SymbolMap) : list string := map fst m.

Fixpoint lookupSymbol (m : SymbolMap) (key : string) : option string :=
  match m with
  | [] => None
  | (k, v) :: m' => if String.eqb k key then Some v else lookupSymbol m' key
  end.

(** [symbolMap[key]] where the result is used as a string: a key of the
    table gives its glyph; an absent key, for which the code has
    [undefined], contributes nothing to a [join]. Where the scanner
    stores the result in a [replacement] field, the key is a name that
    the expression of the table matched; this is a key of the table
    when the table is not empty and its names stand for themselves in
    the expression. *)
Definition getSymbol (m : SymbolMap) (key : string) : string :=
  match lookupSymbol m key with
  | Some v => v
  | None => EmptyString
  end.

(** [symbolMap[key]] as the result of a callback of [replace], which
    writes the text of the value: the glyph of a key of the table, and
    the word [undefined] for an absent key. *)
Definition replacedSymbol (m : SymbolMap) (key : string) : string :=
  match lookupSymbol m key with
  | Some v => v
  | None => "undefined"%string
  end.

(** [{...a, ...b}]: the keys of [a] keep their place and take the value
    of [b] when [b] has them; the other keys of [b] follow. *)
Definition objectSpread (a b : SymbolMap) : SymbolMap :=
  map (fun kv : string * string =>
         (fst kv, match lookupSymbol b (fst kv) with
                  | Some v => v
                  | None => snd kv
                  end)) a
  ++ List.filter (fun kv : string * string =>
               negb (existsb (String.eqb (fst kv)) (keys a))) b.

(** The tables of [conceal_maps.ts], which the scanner imports. *)
Record ConcealMaps := mkConcealMaps {
  brackets : SymbolMap;
  cmd_symbols : SymbolMap;
  fractions : SymbolMap;
  greek : SymbolMap;
  map_sub : SymbolMap;
  map_super : SymbolMap;
  mathbb : SymbolMap;
  mathscrcal : SymbolMap;
  operators : list string;
}.

Local Open Scope string_scope.
Local Open Scope list_scope.
Local Open Scope Z_scope.

(** The one-unit string that holds a backslash. *)
Definition backslash : string := String "092"%char EmptyString.

Definition single (start end' : Z) (replacement : string)
    (class elementType : option string) : Container :=
  {| inner := Single {| start := start; end_ := end'; replacement := replacement;
                        class := class; elementType := elementType |} |}.

Definition LIMITS : string := "\limits".

Definition getEndIncludingLimits (eqn : string) (end' : Z) : Z :=
  if String.eqb (jsSubstring eqn end' (end' + jsLength LIMITS)) LIMITS
  then end' + jsLength LIMITS
  else end'.

(** [s.match(/[a-zA-Z]/)] is truthy. *)
Definition hasLetter (s : string) : bool :=
  existsb isLetter (list_ascii_of_string s).

(** The glyphs of the units of [s], joined: [letters.map(el =>
    symbolMap[el])] for [Array.from(s)], then [join] without separator. *)
Definition translate (symbolMap : SymbolMap) (s : string) : string :=
  fold_right (fun (c : ascii) (acc : string) =>
                (getSymbol symbolMap (String c EmptyString) ++ acc)%string)
    EmptyString (list_ascii_of_string s).

Import RegExp.

(** *** Names in the source of an expression

    The scanner builds the source of an expression from the names of a
    table, joined by a bar, and hands it to the engine. The model takes
    the names as the alternatives, each standing for itself. This is
    what the engine makes of the source when no name holds a syntax
    character of patterns; for other names the source reads as another
    expression, or as none, and the model does not describe the code.
    The theorems that depend on what the names match carry this as a
    hypothesis. *)

(** The syntax characters of a pattern; every other unit in the source
    of an expression stands for itself. *)
Definition syntaxCharacter (c : ascii) : bool := oneOf "^$\.*+?()[]{}|" c.

(** [name] holds no syntax character: put into the source of an
    expression as it is, it stands for itself. *)
Definition literalName (name : string) : bool :=
  forallb (fun c : ascii => negb (syntaxCharacter c)) (list_ascii_of_string name).

(** [name] holds none of the syntax characters that [escapeRegex] leaves
    as they are (the dot, the star, the question mark, the bar, the
    caret and the dollar): put into the source of an expression after
    [escapeRegex], which writes a backslash before each of
    [\ ( ) + - [ ] { }], it stands for itself. *)
Definition literalWhenEscaped (name : string) : bool :=
  forallb (fun c : ascii => negb (oneOf "^$.*?|" c)) (list_ascii_of_string name).

(** The expression made of [prefix], a group with the alternation of the
    escaped symbol names, and [suffix]. The regular expression arguments
    [prefix] and [suffix] are given as syntax trees; the names of the
    table stand for themselves, as they do in the escaped source when
    they are [literalWhenEscaped]. *)
Definition symbolsRegex (prefix suffix : regex) (symbolNames : list string)
    : regex :=
  Seq prefix (Seq (Capture 1 (alternatives symbolNames)) suffix).

Definition concealSymbols (eqn : string) (prefix suffix : regex)
    (symbolMap : SymbolMap) (className : option string)
    (allowSucceedingLetters : bool) : ConcealSpecList :=
  let symbolNames := keys symbolMap in
  let symbolRegex := symbolsRegex prefix suffix symbolNames in
  let matches := matchAll symbolRegex eqn in
  flat_map (fun m : Match =>
    let symbol := group m 1 in
    if negb allowSucceedingLetters
       && hasLetter (jsCharAt eqn (index m + jsLength (group m 0)))
    then []
    else
      let end' := getEndIncludingLimits eqn (index m + jsLength (group m 0)) in
      [single (index m) end' (getSymbol symbolMap symbol) className None])
    matches.

(** The modifier goes into the source as it is and stands for itself,
    as it does when it is a [literalName]. *)
Definition concealModifier (eqn modifier combiningCharacter : string)
    : ConcealSpecList :=
  let symbolRegex :=
    Seq (Lit (backslash ++ modifier ++ "{"))
      (Seq (Capture 1 (Class isLetter)) (Lit "}")) in
  let matches := matchAll symbolRegex eqn in
  map (fun m : Match =>
    let symbol := group m 1 in
    single (index m) (index m + jsLength (group m 0))
      (symbol ++ combiningCharacter) (Some "latex-suite-unicode") None)
    matches.

(** The class [[A-Za-z0-9\()\[\]/+-=<>':;\\ *]]; [+-=] is a range. *)
Definition supSubClass (c : ascii) : bool :=
  isUpper c || isLower c || isDigit c || oneOf "()[]/" c
  || inRange "+" "=" c || oneOf "<>':; *" c || oneOf backslash c.

(** The expression of the callback, a backslash and the alternation of
    the escaped names of the table, takes the names as in
    [symbolsRegex]. *)
Definition concealSupSub (eqn : string) (superscript : bool)
    (symbolMap : SymbolMap) : ConcealSpecList :=
  let prefix := if superscript then "^" else "_" in
  let regex :=
    Seq (Lit (prefix ++ "{"))
      (Seq (Capture 1 (ClassPlus supSubClass)) (Lit "}")) in
  let matches := matchAll regex eqn in
  map (fun m : Match =>
    let exponent := group m 1 in
    let elementType := if superscript then "sup" else "sub" in
    let symbolNames := keys symbolMap in
    let symbolRegex := Seq (Lit backslash) (Capture 1 (alternatives symbolNames)) in
    let replacement :=
      RegExp.replace exponent symbolRegex
        (fun m' => replacedSymbol symbolMap (group m' 1)) in
    single (index m) (index m + jsLength (group m 0)) replacement
      (Some "cm-number") (Some elementType))
    matches.

Definition alnumOrSpace (c : ascii) : bool :=
  isUpper c || isLower c || isDigit c || oneOf " " c.

Definition concealModified_A_to_Z_0_to_9 (eqn : string)
    (mathBBsymbolMap : SymbolMap) : ConcealSpecList :=
  let regex :=
    Seq (Lit backslash)
      (Seq (Capture 1 (alternatives
              ["mathbf"; "boldsymbol"; "underline"; "mathrm"; "text"; "mathbb"]))
         (Seq (Lit "{") (Seq (Capture 2 (ClassPlus alnumOrSpace)) (Lit "}")))) in
  let matches := matchAll regex eqn in
  flat_map (fun m : Match =>
    let type := group m 1 in
    let value := group m 2 in
    let start := index m in
    let end' := start + jsLength (group m 0) in
    if String.eqb type "mathbf" || String.eqb type "boldsymbol" then
      [single start end' value (Some "cm-concealed-bold") None]
    else if String.eqb type "underline" then
      [single start end' value (Some "cm-concealed-underline") None]
    else if String.eqb type "mathrm" then
      [single start end' value (Some "cm-concealed-mathrm") None]
    else if String.eqb type "text" then
      if (0 <? start) && String.eqb (jsCharAt eqn (start - 1)) "_" then
        [single (start - 1) end' value (Some "cm-concealed-mathrm") (Some "sub")]
      else []
    else if String.eqb type "mathbb" then
      let replacement := translate mathBBsymbolMap value in
      [single start end' replacement None None]
    else [])
    matches.

(** The escaped names of the table are taken as in [symbolsRegex]. *)
Definition concealModifiedGreekLetters (eqn : string)
    (greekSymbolMap : SymbolMap) : ConcealSpecList :=
  let greekSymbolNames := keys greekSymbolMap in
  let regex :=
    Seq (Lit backslash)
      (Seq (Capture 1 (alternatives ["underline"; "boldsymbol"]))
         (Seq (Lit ("{" ++ backslash))
            (Seq (Capture 2 (alternatives greekSymbolNames)) (Lit "}")))) in
  let matches := matchAll regex eqn in
  flat_map (fun m : Match =>
    let type := group m 1 in
    let value := group m 2 in
    let start := index m in
    let end' := start + jsLength (group m 0) in
    if String.eqb type "underline" then
      [single start end' (getSymbol greekSymbolMap value)
         (Some "cm-concealed-underline") None]
    else if String.eqb type "boldsymbol" then
      [single start end' (getSymbol greekSymbolMap value)
         (Some "cm-concealed-bold") None]
    else [])
    matches.

(** The class [[A-Za-z0-9-.!?() ]]. *)
Definition textClass (c : ascii) : bool :=
  isUpper c || isLower c || isDigit c || oneOf "-.!?() " c.

Definition concealText (eqn : string) : ConcealSpecList :=
  let regex :=
    Seq (Lit (backslash ++ "text{"))
      (Seq (Capture 1 (ClassPlus textClass)) (Lit "}")) in
  let matches := matchAll regex eqn in
  map (fun m : Match =>
    let value := group m 1 in
    let start := index m in
    let end' := start + jsLength (group m 0) in
    single start end' value (Some "cm-concealed-mathrm cm-variable-2") None)
    matches.

(** The expression [(\\(s1|s2|...))([^a-zA-Z]|$)] built from the list of
    operator names, which go into the source as they are and stand for
    themselves, as they do when they are [literalName]s. *)
Definition operatorsRegex (symbols : list string) : regex :=
  Seq (Capture 1 (Seq (Lit backslash) (Capture 2 (alternatives symbols))))
    (Capture 3 (Alt (Class (fun c => negb (isLetter c))) End)).

Definition concealOperators (eqn : string) (symbols : list string)
    : ConcealSpecList :=
  let regex := operatorsRegex symbols in
  let matches := matchAll regex eqn in
  map (fun m : Match =>
    let value := group m 2 in
    let start := index m in
    let end' := getEndIncludingLimits eqn (start + jsLength (group m 1)) in
    single start end' value (Some "cm-concealed-mathrm cm-variable-2") None)
    matches.

Definition concealAtoZ (eqn : string) (prefix suffix : regex)
    (symbolMap : SymbolMap) (className : option string) : ConcealSpecList :=
  let symbolRegex := Seq prefix (Seq (Capture 1 (ClassPlus isUpper)) suffix) in
  let matches := matchAll symbolRegex eqn in
  map (fun m : Match =>
    let symbol := group m 1 in
    let replacement := translate symbolMap symbol in
    single (index m) (index m + jsLength (group m 0)) replacement className None)
    matches.

Definition langle : string := "〈".
Definition rangle : string := "〉".
Definition vert : string := "|".

Definition plain (start end' : Z) (replacement : string) : ConcealSpec :=
  Single {| start := start; end_ := end'; replacement := replacement;
            class := None; elementType := None |}.

Definition bracket (start end' : Z) (replacement : string) : ConcealSpec :=
  Single {| start := start; end_ := end'; replacement := replacement;
            class := Some "cm-bracket"; elementType := None |}.

(** The expression [/\\(braket|bra|ket){/g]. *)
Definition braKetRegex : regex :=
  Seq (Lit backslash)
    (Seq (Capture 1 (alternatives ["braket"; "bra"; "ket"])) (Lit "{")).

(** The body of the loop of [concealBraKet] for one match; the empty list
    stands for [continue]. *)
Definition concealBraKetMatch (eqn : string) (m : Match) : ConcealSpecList :=
  let contentEnd := findMatchingBracket eqn (index m) "{" "}" false None in
  if contentEnd =? -1 then []
  else
    let commandStart := index m in
    let contentStart := commandStart + jsLength (group m 0) - 1 in
    let type := group m 1 in
    let left := if String.eqb type "ket" then vert else langle in
    let right := if String.eqb type "bra" then vert else rangle in
    let concealSpec := Group [
      plain commandStart contentStart "";
      bracket contentStart (contentStart + 1) left;
      bracket contentEnd (contentEnd + 1) right ] in
    [{| inner := concealSpec |}].

Definition concealBraKet (eqn : string) : ConcealSpecList :=
  flat_map (concealBraKetMatch eqn) (matchAll braKetRegex eqn).

(** The expression [/\\set\{/g]. *)
Definition setRegex : regex := Lit (backslash ++ "set{").

Definition concealSetMatch (eqn : string) (m : Match) : ConcealSpecList :=
  let commandStart := index m in
  let contentStart := commandStart + jsLength (group m 0) - 1 in
  let contentEnd := findMatchingBracket eqn commandStart "{" "}" false None in
  if contentEnd =? -1 then []
  else
    let concealSpec := Group [
      plain commandStart contentStart "";
      bracket contentStart (contentStart + 1) "{";
      bracket contentEnd (contentEnd + 1) "}" ] in
    [{| inner := concealSpec |}].

Definition concealSet (eqn : string) : ConcealSpecList :=
  flat_map (concealSetMatch eqn) (matchAll setRegex eqn).

(** The expression [/\\(frac){/g]. *)
Definition fractionRegex : regex :=
  Seq (Lit backslash) (Seq (Capture 1 (Lit "frac")) (Lit "{")).

Definition concealFractionMatch (eqn : string) (m : Match) : ConcealSpecList :=
  let numeratorEnd := findMatchingBracket eqn (index m) "{" "}" false None in
  if numeratorEnd =? -1 then []
  else if negb (String.eqb (jsCharAt eqn (numeratorEnd + 1)) "{") then []
  else
    let denominatorEnd :=
      findMatchingBracket eqn (numeratorEnd + 1) "{" "}" false None in
    if denominatorEnd =? -1 then []
    else
      let commandStart := index m in
      let numeratorStart := commandStart + jsLength (group m 0) - 1 in
      let denominatorStart := numeratorEnd + 1 in
      let concealSpec := Group [
        plain commandStart numeratorStart "";
        bracket numeratorStart (numeratorStart + 1) "(";
        bracket numeratorEnd (numeratorEnd + 1) ")";
        bracket (numeratorEnd + 1) (numeratorEnd + 1) "/";
        bracket denominatorStart (denominatorStart + 1) "(";
        bracket denominatorEnd (denominatorEnd + 1) ")" ] in
      [{| inner := concealSpec |}].

Definition concealFraction (eqn : string) : ConcealSpecList :=
  flat_map (concealFractionMatch eqn) (matchAll fractionRegex eqn).

(** Applying [f] to every member replacement of a conceal spec. *)
Fixpoint mapReplacements (f : Replacement -> Replacement) (spec : ConcealSpec)
    : ConcealSpec :=
  match spec with
  | Single r => Single (f r)
  | Group members => Group (map (mapReplacements f) members)
  end.

(** The update [singleSpec.start += d; singleSpec.end += d]. *)
Definition shiftReplacement (d : Z) (r : Replacement) : Replacement :=
  {| start := start r + d; end_ := end_ r + d; replacement := replacement r;
     class := class r; elementType := elementType r |}.

(** The combining characters given to [concealModifier], by code point. *)
Definition U0302 : string := "̂".
Definition U0307 : string := "̇".
Definition U0308 : string := "̈".
Definition U0304 : string := "̄".
Definition U0303 : string := "̃".
Definition U20D7 : string := "⃗".

(** The matchers in their fixed order, on the text of one equation. *)
Definition matchers (maps : ConcealMaps) (eqn : string) : ConcealSpecList :=
  let ALL_SYMBOLS := objectSpread (greek maps) (cmd_symbols maps) in
  concealSymbols eqn (Lit "^") (Lit "") (map_super maps) None true
  ++ concealSymbols eqn (Lit "_") (Lit "") (map_sub maps) None true
  ++ concealSymbols eqn (Lit (backslash ++ "frac")) (Lit "") (fractions maps) None true
  ++ concealSymbols eqn (Lit backslash) (Lit "") ALL_SYMBOLS None false
  ++ concealSupSub eqn true ALL_SYMBOLS
  ++ concealSupSub eqn false ALL_SYMBOLS
  ++ concealModifier eqn "hat" U0302
  ++ concealModifier eqn "dot" U0307
  ++ concealModifier eqn "ddot" U0308
  ++ concealModifier eqn "overline" U0304
  ++ concealModifier eqn "bar" U0304
  ++ concealModifier eqn "tilde" U0303
  ++ concealModifier eqn "vec" U20D7
  ++ concealSymbols eqn (Lit backslash) (Lit "") (brackets maps) (Some "cm-bracket") true
  ++ concealAtoZ eqn (Lit (backslash ++ "mathcal{")) (Lit "}") (mathscrcal maps) None
  ++ concealModifiedGreekLetters eqn (greek maps)
  ++ concealModified_A_to_Z_0_to_9 eqn (mathbb maps)
  ++ concealText eqn
  ++ concealBraKet eqn
  ++ concealSet eqn
  ++ concealFraction eqn
  ++ concealOperators eqn (operators maps).

(** The part of [conceal] that handles one math node: [eqn] is the text
    of the equation and [boundsStart] is [bounds.start]. The offsets of
    every member replacement become offsets in the whole document. *)
Definition concealEquation (maps : ConcealMaps) (eqn : string) (boundsStart : Z)
    : ConcealSpecList :=
  map (fun wrapper : Container =>
         {| inner := mapReplacements (shiftReplacement boundsStart) (inner wrapper) |})
    (matchers maps eqn).

(** [conceal(view)]: the equations are those of the math nodes in the
    visible ranges, in the order of the traversal. *)
Definition conceal (maps : ConcealMaps) (equations : list Equation)
    : ConcealSpecList :=
  flat_map (fun e : Equation => concealEquation maps (text e) (boundsStart e))
    equations.

(** ** The state field and its update listener ([conceal.ts])

    Concealment objects are shared: the listener puts the same object in
    [concealments] and in [delayedConcealments], and the timer callback
    writes to it. Objects live in a store and are named by their index;
    timers are named by the handle that [setTimeout] returns. *)

Abbreviation loc := nat (only parsing).

Record ConcealState := mkConcealState {
  concealments : list loc;
  revealTimeout : option positive;
}.

(** What the callback given to [setTimeout] captures. *)
Record RevealCallback := mkRevealCallback {
  delayedConcealments : list loc;
  capturedConcealments : list loc;
}.

Record World := mkWorld {
  store : list Concealment;
  field : ConcealState;
  pending : gmap positive RevealCallback;
  nextTimeout : positive;
}.

(** [create()] of the state field, in a world without timers. *)
Definition create : World :=
  {| store := []; field := {| concealments := []; revealTimeout := None |};
     pending := ∅; nextTimeout := 1%positive |}.

(** The objects behind an array of references. *)
Definition deref (store : list Concealment) (ls : list loc) : list Concealment :=
  omap (fun l : loc => store !! l) ls.

(** The action for one new conceal spec: the classification, the first
    old concealment at the same position, and the decision table. *)
Definition actionFor (update : ViewUpdate) (olds : list Concealment)
    (concealSpec : ConcealSpec) : ConcealAction :=
  let oldConceal :=
    List.find (fun old => atSamePosAfter update (spec old) concealSpec) olds in
  let oldCursorPosType := option_map cursorPosType oldConceal in
  let cursorPosType := determineCursorPosType (selection update) concealSpec in
  determineAction oldCursorPosType cursorPosType (mousedown update).

(** The variables of the listener's loop. *)
Record Collected := mkCollected {
  c_store : list Concealment;
  c_concealments : list loc;
  c_delayed : list loc;
}.

(** One turn of the loop [for (const container of concealSpecList)]. *)
Definition collect (update : ViewUpdate) (oldState : ConcealState)
    (acc : Collected) (container : Container) : Collected :=
  let concealSpec := inner container in
  let cursorPosType := determineCursorPosType (selection update) concealSpec in
  let concealAction :=
    actionFor update (deref (c_store acc) (concealments oldState)) concealSpec in
  let concealment :=
    {| spec := concealSpec; cursorPosType := cursorPosType;
       enable := negb (ConcealAction_eqb concealAction a_reveal) |} in
  let l := length (c_store acc) in
  {| c_store := c_store acc ++ [concealment];
     c_concealments := c_concealments acc ++ [l];
     c_delayed := if ConcealAction_eqb concealAction a_delay
                  then c_delayed acc ++ [l] else c_delayed acc |}.

(** The update listener. Its own [dispatch] is a view update without
    document, viewport or selection change, for which the listener
    returns at once: the dispatch is the assignment of the field. *)
Definition updateListener (maps : ConcealMaps) (update : ViewUpdate)
    (w : World) : World :=
  if negb (docChanged update || viewportChanged update || selectionSet update)
  then w
  else
    let oldState := field w in
    let pending1 :=
      match revealTimeout oldState with
      | Some t => delete t (pending w)
      | None => pending w
      end in
    let concealSpecList := conceal maps (equations update) in
    let acc :=
      foldl (collect update oldState)
        {| c_store := store w; c_concealments := []; c_delayed := [] |}
        concealSpecList in
    match c_delayed acc with
    | [] =>
        {| store := c_store acc;
           field := {| concealments := c_concealments acc; revealTimeout := None |};
           pending := pending1;
           nextTimeout := nextTimeout w |}
    | _ :: _ =>
        let t := nextTimeout w in
        {| store := c_store acc;
           field := {| concealments := c_concealments acc;
                       revealTimeout := Some t |};
           pending :=
             <[t := {| delayedConcealments := c_delayed acc;
                       capturedConcealments := c_concealments acc |}]> pending1;
           nextTimeout := Pos.succ t |}
    end.

Definition disable (c : Concealment) : Concealment :=
  {| spec := spec c; cursorPosType := cursorPosType c; enable := false |}.

(** The host runs the callback of timer [t], once, unless it was
    cancelled: every captured delayed concealment gets [enable = false],
    and the captured array is dispatched without a timer. *)
Definition fireTimeout (t : positive) (w : World) : World :=
  match pending w !! t with
  | None => w
  | Some cb =>
      {| store := foldl (fun s l => alter disable l s) (store w)
                    (delayedConcealments cb);
         field := {| concealments := capturedConcealments cb;
                     revealTimeout := None |};
         pending := delete t (pending w);
         nextTimeout := nextTimeout w |}
  end.

Inductive Event :=
| ViewUpdated (update : ViewUpdate)
| TimeoutElapsed (t : positive).

Definition step (maps : ConcealMaps) (w : World) (e : Event) : World :=
  match e with
  | ViewUpdated update => updateListener maps update w
  | TimeoutElapsed t => fireTimeout t w
  end.

Definition run (maps : ConcealMaps) (w : World) (es : list Event) : World :=
  foldl (step maps) w es.

(** The update makes the listener reconcile. *)
Definition reconciles (update : ViewUpdate) : bool :=
  docChanged update || viewportChanged update || selectionSet update.

(** The concealment object that the listener's loop builds for one
    element of the list, given the old concealments. *)
Definition newConcealment (update : ViewUpdate) (olds : list Concealment)
    (container : Container) : Concealment :=
  {| spec := inner container;
     cursorPosType := determineCursorPosType (selection update) (inner container);
     enable := negb (ConcealAction_eqb
                       (actionFor update olds (inner container)) a_reveal) |}.

(** The references of the delayed ones among the concealments built for
    [specs], when the first of them is stored at [base]. *)
Fixpoint delayedLocs (update : ViewUpdate) (olds : list Concealment)
    (base : loc) (specs : ConcealSpecList) : list loc :=
  match specs with
  | [] => []
  | c :: specs' =>
      (if ConcealAction_eqb (actionFor update olds (inner c)) a_delay
       then [base] else [])
      ++ delayedLocs update olds (S base) specs'
  end.

(** What holds of every world that the engine can reach: a pending timer
    is the one recorded in the field, handles recorded in the field were
    returned by [setTimeout] earlier, and references point into the
    store. *)
Definition wellFormed (w : World) : Prop :=
  (forall t cb, pending w !! t = Some cb -> revealTimeout (field w) = Some t)
  /\ (forall t, revealTimeout (field w) = Some t -> (t < nextTimeout w)%positive)
  /\ Forall (fun l => (l < length (store w))%nat) (concealments (field w))
  /\ (forall t cb, pending w !! t = Some cb ->
        Forall (fun l => (l < length (store w))%nat) (capturedConcealments cb)).

(** ** Vocabulary of the scanner's specification *)

(** The string [w] stands in [text] at offset [e]. *)
Definition standsAt (text : string) (e : Z) (w : string) : Prop :=
  exists pre post, text = (pre ++ w ++ post)%string /\ jsLength pre = e.

(** The end offset [e'] computed for a match that ends at [e]: extended
    by the length of the continuation when the continuation stands at
    [e], unchanged otherwise. *)
Definition limitsExtended (eqn : string) (e e' : Z) : Prop :=
  (standsAt eqn e LIMITS -> e' = e + jsLength LIMITS)
  /\ (~ standsAt eqn e LIMITS -> e' = e).

(** The match [m] of a command: the text reads a backslash, [name] and an
    opening brace at [index m], and that is [match[0]]. *)
Definition commandMatch (text : string) (m : Match) (name : string) : Prop :=
  standsAt text (index m) (backslash ++ name ++ "{")
  /\ group m 0 = (backslash ++ name ++ "{")%string.

(** No unit of [u] is a brace. *)
Definition noBrace (u : string) : bool :=
  forallb (fun x : ascii => negb (Ascii.eqb x "{") && negb (Ascii.eqb x "}"))
    (list_ascii_of_string u).

(** The conceal spec that [concealFraction] builds for a command at
    [commandStart] whose numerator closes at [numeratorEnd] and whose
    denominator closes at [denominatorEnd]. *)
Definition fractionSpec (commandStart numeratorEnd denominatorEnd : Z)
    : ConcealSpec :=
  Group [
    plain commandStart (commandStart + 5) "";
    bracket (commandStart + 5) (commandStart + 6) "(";
    bracket numeratorEnd (numeratorEnd + 1) ")";
    bracket (numeratorEnd + 1) (numeratorEnd + 1) "/";
    bracket (numeratorEnd + 1) (numeratorEnd + 2) "(";
    bracket denominatorEnd (denominatorEnd + 1) ")" ].

(** Modelled from the spec: the painting of the decorations is the
    host's; the spec (section 6) says that each member replacement of an
    enabled concealment replaces the span from [start] to [end] by its
    display string, or inserts it when the span is empty. [renderFrom]
    reads the text from [pos] on with the replacements applied in
    order. *)
Fixpoint renderFrom (text : string) (rs : list Replacement) (pos : Z) : string :=
  match rs with
  | [] => jsSlice text pos (jsLength text)
  | r :: rs' =>
      (jsSlice text pos (start r) ++ replacement r ++ renderFrom text rs' (end_ r))%string
  end.

Definition rendered (text : string) (concealSpec : ConcealSpec) : string :=
  renderFrom text (replacements concealSpec) 0.

(** Two replacements overlap when their half-open spans share an
    offset. *)
Definition overlap (a b : Replacement) : Prop :=
  exists x, (start a <= x < end_ a) /\ (start b <= x < end_ b).

Definition sortedByStart (l : list Replacement) : Prop :=
  forall (i j : nat) (a b : Replacement),
    (i < j)%nat -> l !! i = Some a -> l !! j = Some b -> start a <= start b.

Definition noOverlap (l : list Replacement) : Prop :=
  forall (i j : nat) (a b : Replacement),
    i <> j -> l !! i = Some a -> l !! j = Some b -> ~ overlap a b.

(** Each replacement starts at or after [lo], ends at or after its start,
    and the next one starts at or after its end. *)
Fixpoint chained (lo : Z) (l : list Replacement) : Prop :=
  match l with
  | [] => True
  | r :: l' => lo <= start r /\ start r <= end_ r /\ chained (end_ r) l'
  end.

(** What the single-replacement matchers emit. *)
Definition orderedSingle (c : Container) : Prop :=
  exists r, inner c = Single r /\ start r <= end_ r.

(** The members of a conceal spec are chained, and a zero-width member
    of a group is the separator. *)
Definition orderedSpec (s : ConcealSpec) : Prop :=
  (exists lo, chained lo (replacements s))
  /\ (forall r, In r (replacements s) -> (1 < length (replacements s))%nat ->
        start r = end_ r -> replacement r = "/"%string).

(** ** Sample inputs

    A small instance of the tables and of the host's updates, on which
    the engine can be run. *)
Definition sampleMaps : ConcealMaps :=
  {| brackets := [("langle", "<")];
     cmd_symbols := [("pm", "+-")];
     fractions := [("{1}{2}", "1/2")];
     greek := [("alpha", "a")];
     map_sub := [("0", "0")];
     map_super := [("2", "2")];
     mathbb := [("R", "R")];
     mathscrcal := [("A", "A")];
     operators := ["sin"] |}.

(** A selection change that puts the cursor at [cursor] in a document
    whose one equation, at offset 1, has the text [eqn]. *)
Definition cursorMoved (eqn : string) (cursor : Z) : ViewUpdate :=
  {| mapPos := fun pos _ => pos;
     docChanged := false; viewportChanged := false; selectionSet := true;
     selection := {| ranges := [{| from := cursor; to := cursor |}] |};
     mousedown := false;
     equations := [{| boundsStart := 1; text := eqn |}] |}.

Definition alphaEqn : string := "\alpha".

Definition fracEqn : string := "z=\frac{x+1}{2y}".

Definition fracMatch (at_ : Z) : Match :=
  {| index := at_; whole := "\frac{"; groups := [(1%nat, "frac")] |}.

Definition unterminatedEqn : string := "\frac{a \frac{b}{c}".

(** No unit of [u] is a backslash. *)
Definition noBackslash (u : string) : bool :=
  forallb (fun x : ascii => negb (Ascii.eqb x "092")) (list_ascii_of_string u).

(** ** Earlier revisions of the classifier and of the overlap test *)

(** [selectionAndRangeOverlap] of the earlier [conceal_fns.ts]: some
    range of the selection meets the closed span from [rangeFrom] to
    [rangeTo]. *)
Definition selectionAndRangeOverlap (selection : EditorSelection)
    (rangeFrom rangeTo : Z) : bool :=
  existsb (fun range : SelectionRange =>
             (from range <=? rangeTo) && (to range >=? rangeFrom))
    (ranges selection).

(** The revision of [conceal.ts] in which a conceal spec is one
    replacement object. *)
Module SingleSpec.

Abbreviation ConcealSpec := Replacement.

(** The loop over [sel.ranges]: the first range that is not apart from
    the spec decides. *)
Fixpoint classifyRanges (rs : list SelectionRange) (concealSpec : ConcealSpec)
    : CursorPosType :=
  match rs with
  | [] => apart
  | range :: rs' =>
      let overlapRangeFrom := Z.max (from range) (start concealSpec) in
      let overlapRangeTo := Z.min (to range) (end_ concealSpec) in
      if (overlapRangeFrom =? overlapRangeTo)
         && ((overlapRangeFrom =? start concealSpec)
             || (overlapRangeFrom =? end_ concealSpec))
      then edge
      else if overlapRangeFrom <=? overlapRangeTo then within
      else classifyRanges rs' concealSpec
  end.

Definition determineCursorPosType (sel : EditorSelection)
    (concealSpec : ConcealSpec) : CursorPosType :=
  classifyRanges (ranges sel) concealSpec.

End SingleSpec.

(** ** Decorations ([conceal.ts]) *)

(** The two widget classes. The constructor of [ConcealWidget] replaces
    an absent or empty class name by the empty string and an absent or
    empty element type by [span]. *)
Inductive Widget :=
| TextWidget (symbol : string)
| ConcealWidget (symbol className elementType : string).

Definition newConcealWidget (symbol : string) (className elementType : option string)
    : Widget :=
  ConcealWidget symbol
    (match className with
     | Some c => c
     | None => ""
     end)
    (match elementType with
     | Some e => if String.eqb e "" then "span" else e
     | None => "span"
     end).

(** The values made by [Decoration.widget] and [Decoration.replace],
    with the options that the engine sets. *)
Inductive Decoration :=
| widgetDecoration (widget : Widget) (block : bool)
| replaceDecoration (widget : Widget) (inclusiveStart inclusiveEnd block : bool).

(** [Range<Decoration>]: the value of [decoration.range(from, to)]. *)
Record DecorationRange := mkDecorationRange {
  rangeFrom : Z;
  rangeTo : Z;
  value : Decoration;
}.

(** The decoration that [buildDecoSet] pushes for one replacement. *)
Definition decorationOf (singleSpec : Replacement) : DecorationRange :=
  if start singleSpec =? end_ singleSpec then
    {| rangeFrom := start singleSpec; rangeTo := end_ singleSpec;
       value := widgetDecoration (TextWidget (replacement singleSpec)) false |}
  else
    let inclusiveStart := String.eqb (replacement singleSpec) "" in
    let inclusiveEnd := false in
    {| rangeFrom := start singleSpec; rangeTo := end_ singleSpec;
       value := replaceDecoration
                  (newConcealWidget (replacement singleSpec) (class singleSpec)
                     (elementType singleSpec))
                  inclusiveStart inclusiveEnd false |}.

(** [buildDecoSet]: the array [decos] that the loop fills and hands to
    [Decoration.set], which sorts it. The callback given to
    [iterConcealSpec] pushes one decoration and never returns [false]. *)
Definition buildDecoSet (concealments : list Concealment) : list DecorationRange :=
  fold_left
    (fun (decos : list DecorationRange) (concealment : Concealment) =>
       if negb (enable concealment) then decos
       else fst (iterConcealSpec (spec concealment)
                   (fun singleSpec decos => (decos ++ [decorationOf singleSpec], false))
                   decos))
    concealments [].

(** The decorations that the field provides in a world:
    [buildDecoSet(state.field(thisField))]. *)
Definition decorations (w : World) : list DecorationRange :=
  buildDecoSet (deref (store w) (concealments (field w))).

(** The first revision of [conceal.ts], a view plugin without state
    field: a concealment is one replacement, and the selection decides
    at painting time. *)
Module ViewPluginRevision.

(** [determineCursorPosType(sel, concealment)], which reads [sel.main]
    only. *)
Definition determineCursorPosType (main : SelectionRange)
    (concealment : Replacement) : CursorPosType :=
  let overlapRangeFrom := Z.max (from main) (start concealment) in
  let overlapRangeTo := Z.min (to main) (end_ concealment) in
  if overlapRangeFrom >? overlapRangeTo then apart
  else if (overlapRangeFrom =? overlapRangeTo)
          && ((overlapRangeFrom =? start concealment)
              || (overlapRangeFrom =? end_ concealment))
  then edge
  else within.

(** The array [widgets] that the loop of [buildDecoSet(view,
    concealments)] fills; [selection] and [mousedown] are what the
    function reads from the view. The function hands the array to
    [Decoration.set] without the sort flag; the host then builds the set
    when the ranges are sorted and throws when they are not. That call
    is not part of the model. *)
Definition widgets (selection : EditorSelection) (mousedown : bool)
    (concealments : list Replacement) : list DecorationRange :=
  flat_map
    (fun concealment : Replacement =>
       let isOverlapping :=
         selectionAndRangeOverlap selection (start concealment) (end_ concealment) in
       if isOverlapping && negb mousedown then []
       else [decorationOf concealment])
    concealments.

End ViewPluginRevision.

(** Every range of the selection has its [from] at or before its [to],
    as the host guarantees. *)
Definition orderedRanges (sel : EditorSelection) : Prop :=
  Forall (fun range : SelectionRange => from range <= to range) (ranges sel).

(** The replacements that a traversal visits when the callback returns
    [false] at the replacements that satisfy [stop]: all up to and
    including the first such one. *)
Fixpoint upToFirst (stop : Replacement -> bool) (l : list Replacement)
    : list Replacement :=
  match l with
  | [] => []
  | r :: l' => r :: (if stop r then [] else upToFirst stop l')
  end.

(** ** The bracket tables ([editor_utils.ts])

    [getOpenBracket] and [getCloseBracket] read an object literal at a
    key; [None] stands for [undefined], the value at a key that the
    table does not have. *)
Definition getOpenBracket (closeBracket : string) : option string :=
  let openBrackets := [(")", "("); ("]", "["); ("}", "{")] in
  lookupSymbol openBrackets closeBracket.

Definition getCloseBracket (openBracket : string) : option string :=
  let closeBrackets := [("(", ")"); ("[", "]"); ("{", "}")] in
  lookupSymbol closeBrackets openBracket.

(** ** Vocabulary of the bracket matcher's specification *)

(** The change of the nesting depth over the units of [w], for the
    one-unit brackets [o] and [c]: an opening bracket adds one, a closing
    bracket takes one away. *)
Fixpoint depthOf (o c : ascii) (w : string) : Z :=
  match w with
  | EmptyString => 0
  | String x w' =>
      (if Ascii.eqb x o then 1 else if Ascii.eqb x c then -1 else 0)
      + depthOf o c w'
  end.

(** The closing bracket that follows [w] is the first closing bracket at
    which the depth, counted from [b] before [w], is zero. *)
Definition closesAfter (o c : ascii) (b : Z) (w : string) : Prop :=
  b + depthOf o c (w ++ String c "") = 0
  /\ forall w1 w2 : string, w = (w1 ++ String c w2)%string ->
       b + depthOf o c (w1 ++ String c "") <> 0.

(** ** JavaScript string search and replacement with a string pattern *)

(** The loop of [s.indexOf(search, position)]: [s] is the input that
    remains at offset [pos]; [skip] units are still before the position
    from which the search starts. *)
Fixpoint indexOfFrom (search s : string) (pos skip : nat) : Z :=
  match skip with
  | S skip' =>
      match s with
      | EmptyString => -1
      | String _ s' => indexOfFrom search s' (S pos) skip'
      end
  | O =>
      match stripPrefix search s with
      | Some _ => Z.of_nat pos
      | None =>
          match s with
          | EmptyString => -1
          | String _ s' => indexOfFrom search s' (S pos) O
          end
      end
  end.

(** [s.indexOf(search, position)]: the position is clamped to the
    string; the result is the first offset at or after it where
    [search] stands, or -1. *)
Definition jsIndexOf (s search : string) (position : Z) : Z :=
  indexOfFrom search s 0 (Z.to_nat (clampIndex position (jsLength s))).

(** The candidates of [s.lastIndexOf(search, fromIndex)] in ascending
    order: [n] offsets from [pos] on are still to be tried, and [last] is
    the last offset found so far. *)
Fixpoint lastIndexOfUpTo (search s : string) (pos n : nat) (last : Z)
    {struct n} : Z :=
  match n with
  | O => last
  | S n' =>
      let last' :=
        match stripPrefix search s with
        | Some _ => Z.of_nat pos
        | None => last
        end in
      match s with
      | EmptyString => last'
      | String _ s' => lastIndexOfUpTo search s' (S pos) n' last'
      end
  end.

(** [s.lastIndexOf(search, fromIndex)]: the start is [fromIndex] clamped
    between [0] and [length - search.length]; the result is the last
    offset at or before the start where [search] stands, or -1. *)
Definition jsLastIndexOf (s search : string) (fromIndex : Z) : Z :=
  let start := Z.min (Z.max fromIndex 0) (jsLength s - jsLength search) in
  if start <? 0 then -1
  else lastIndexOfUpTo search s 0 (S (Z.to_nat start)) (-1).

(** The loop of [s.replaceAll(search, replacement)] for a string
    pattern: the occurrences are found from left to right and do not
    overlap; [skip] units of the input still belong to the occurrence
    that was replaced last. An empty pattern occurs before every unit and
    at the end. *)
Fixpoint replaceAllFrom (search replacement s : string) (skip : nat) : string :=
  match skip with
  | S skip' =>
      match s with
      | EmptyString => EmptyString
      | String _ s' => replaceAllFrom search replacement s' skip'
      end
  | O =>
      match stripPrefix search s with
      | Some _ =>
          (replacement ++
           match s with
           | EmptyString => EmptyString
           | String c s' =>
               match search with
               | EmptyString => String c (replaceAllFrom search replacement s' O)
               | String _ search' =>
                   replaceAllFrom search replacement s' (String.length search')
               end
           end)%string
      | None =>
          match s with
          | EmptyString => EmptyString
          | String c s' => String c (replaceAllFrom search replacement s' O)
          end
      end
  end.

(** [s.replaceAll(search, replacement)] for a replacement string without
    dollar sign, which stands for itself. The callers below pass such
    replacements only. *)
Definition jsReplaceAll (s search replacement : string) : string :=
  replaceAllFrom search replacement s O.

(** ** [escapeRegex] ([conceal_fns.ts]) *)

Definition escapeChars : list string :=
  [backslash; "("; ")"; "+"; "-"; "["; "]"; "{"; "}"].

Definition escapeRegex (regex : string) : string :=
  fold_left
    (fun (regex escapeChar : string) =>
       jsReplaceAll regex escapeChar (backslash ++ escapeChar))
    escapeChars regex.

(** Each unit [x] of [s] replaced by the string [f x]. *)
Fixpoint mapUnits (f : ascii -> string) (s : string) : string :=
  match s with
  | EmptyString => EmptyString
  | String x s' => (f x ++ mapUnits f s')%string
  end.

(** A unit with a backslash before it when it is one of the nine escaped
    characters. *)
Definition escapeUnit (x : ascii) : string :=
  if oneOf "\()+-[]{}" x then (backslash ++ String x "")%string
  else String x "".

(** ** [getEquationBounds] ([context.ts]) *)

(** The class [Bounds]. *)
Record Bounds := mkBounds { Bounds_start : Z; Bounds_end : Z }.

(** The text with every escaped dollar sign replaced. *)
Definition ignoreEscapedDollars (text : string) : string :=
  jsReplaceAll text (backslash ++ "$") (backslash ++ "R").

(** [getEquationBounds(state, pos)]: [doc] is [state.doc.toString()].
    [None] is the result [undefined] of the bare [return]. *)
Definition getEquationBounds (doc : string) (pos : Z) : option Bounds :=
  let text := doc in
  let text := ignoreEscapedDollars text in
  let left := jsLastIndexOf text "$" (pos - 1) in
  let right := jsIndexOf text "$" pos in
  if (left =? -1) || (right =? -1) then None
  else Some {| Bounds_start := left + 1; Bounds_end := right |}.

(** ** Vocabulary of the scanner's bounds *)

(** Every member replacement of the conceal spec lies in the text: its
    offsets are ordered and between [0] and the length of the text. *)
Definition insideText (eqn : string) (c : Container) : Prop :=
  Forall (fun r : Replacement =>
            0 <= start r /\ start r <= end_ r /\ end_ r <= jsLength eqn)
    (replacements (inner c)).

(** ** The scanner of the single-spec revision ([conceal_fns.ts])

    In this revision a conceal spec is one replacement object. The
    matchers of the grouped constructs return their replacements one by
    one, and leave a construct out when the mouse button is up and the
    selection meets one of its spans. The bracket search starts at the
    opening brace of the command. *)
Module SingleSpecScanner.

Definition concealBraKetMatch (eqn : string) (selection : EditorSelection)
    (eqnStartBound : Z) (mousedown : bool) (m : Match) : list Replacement :=
  let loc := index m + jsLength (group m 0) in
  let j := findMatchingBracket eqn (loc - 1) "{" "}" false None in
  if j =? -1 then []
  else
    let start := index m in
    let end' := start + jsLength (group m 0) in
    if negb mousedown
       && (selectionAndRangeOverlap selection (eqnStartBound + start)
             (eqnStartBound + end')
           || selectionAndRangeOverlap selection (eqnStartBound + j)
                (eqnStartBound + j + 1))
    then []
    else
      let type := group m 1 in
      let left := if String.eqb type "ket" then vert else langle in
      let right := if String.eqb type "bra" then vert else rangle in
      [ {| start := start; end_ := end' - 1; replacement := "";
           class := None; elementType := None |};
        {| start := end' - 1; end_ := end'; replacement := left;
           class := Some "cm-bracket"; elementType := None |};
        {| start := j; end_ := j + 1; replacement := right;
           class := Some "cm-bracket"; elementType := None |} ].

Definition concealBraKet (eqn : string) (selection : EditorSelection)
    (eqnStartBound : Z) (mousedown : bool) : list Replacement :=
  flat_map (concealBraKetMatch eqn selection eqnStartBound mousedown)
    (matchAll braKetRegex eqn).

Definition concealSetMatch (eqn : string) (selection : EditorSelection)
    (eqnStartBound : Z) (mousedown : bool) (m : Match) : list Replacement :=
  let start := index m in
  let end' := start + jsLength (group m 0) in
  let loc := index m + jsLength (group m 0) in
  let j := findMatchingBracket eqn (loc - 1) "{" "}" false None in
  if j =? -1 then []
  else if negb mousedown
          && (selectionAndRangeOverlap selection (eqnStartBound + start)
                (eqnStartBound + end')
              || selectionAndRangeOverlap selection (eqnStartBound + j)
                   (eqnStartBound + j + 1))
  then []
  else
    [ {| start := start; end_ := end' - 1; replacement := "";
         class := None; elementType := None |};
      {| start := end' - 1; end_ := end'; replacement := "{";
         class := Some "cm-bracket"; elementType := None |};
      {| start := j; end_ := j + 1; replacement := "}";
         class := Some "cm-bracket"; elementType := None |} ].

Definition concealSet (eqn : string) (selection : EditorSelection)
    (eqnStartBound : Z) (mousedown : bool) : list Replacement :=
  flat_map (concealSetMatch eqn selection eqnStartBound mousedown)
    (matchAll setRegex eqn).

Definition concealFractionMatch (eqn : string) (selection : EditorSelection)
    (eqnStartBound : Z) (mousedown : bool) (m : Match) : list Replacement :=
  let loc := index m + jsLength (group m 0) in
  let j := findMatchingBracket eqn (loc - 1) "{" "}" false None in
  if j =? -1 then []
  else
    let charAfterFirstBracket := jsCharAt eqn (j + 1) in
    if negb (String.eqb charAfterFirstBracket "{") then []
    else
      let k := findMatchingBracket eqn (j + 1) "{" "}" false None in
      if k =? -1 then []
      else
        let start := index m in
        let end' := start + jsLength (group m 0) in
        if negb mousedown
           && (selectionAndRangeOverlap selection (eqnStartBound + start)
                 (eqnStartBound + end')
               || selectionAndRangeOverlap selection (eqnStartBound + j)
                    (eqnStartBound + j + 2)
               || selectionAndRangeOverlap selection (eqnStartBound + k)
                    (eqnStartBound + k + 1))
        then []
        else
          [ {| start := start; end_ := end' - 1; replacement := "";
               class := None; elementType := None |};
            {| start := end' - 1; end_ := end'; replacement := "(";
               class := Some "cm-bracket"; elementType := None |};
            {| start := j; end_ := j + 1; replacement := ")";
               class := Some "cm-bracket"; elementType := None |};
            {| start := j + 1; end_ := j + 1; replacement := "/";
               class := Some "cm-bracket"; elementType := None |};
            {| start := j + 1; end_ := j + 2; replacement := "(";
               class := Some "cm-bracket"; elementType := None |};
            {| start := k; end_ := k + 1; replacement := ")";
               class := Some "cm-bracket"; elementType := None |} ].

Definition concealFraction (eqn : string) (selection : EditorSelection)
    (eqnStartBound : Z) (mousedown : bool) : list Replacement :=
  flat_map (concealFractionMatch eqn selection eqnStartBound mousedown)
    (matchAll fractionRegex eqn).

End SingleSpecScanner.

(** ** [isWithinInlineEquation] ([context.ts])

    [doc] is the text of the document. The host's [sliceString] is called
    with offsets that are in order and not negative, where it is the
    slice of the text. *)
Definition isWithinInlineEquation (doc : string) (pos : Z) : bool :=
  match getEquationBounds doc pos with
  | None => false
  | Some result =>
      let end' := Bounds_end result in
      let inlineMath := negb (String.eqb (jsSlice doc end' (end' + 2)) "$$") in
      inlineMath
  end.

(** ** Vocabulary of the order of the matches *)

(** The matches start at or after [lo], and each one starts at or after
    the end of the one before it, and at least one unit after its
    start. *)
Fixpoint matchesChained (lo : Z) (ms : list Match) : Prop :=
  match ms with
  | [] => True
  | m :: ms' =>
      lo <= index m
      /\ matchesChained (index m + Z.max 1 (jsLength (whole m))) ms'
  end.

(** ** Vocabulary of the braced contents *)

(** Every unit of [w] is in the class [p]. *)
Definition allUnits (p : ascii -> bool) (w : string) : bool :=
  forallb p (list_ascii_of_string w).

(** * Properties *)

(** ** The decision table *)

(** C1: with the mouse up, the nine combinations of old and new cursor
    classification give the actions of the decision table, and with the
    mouse down the action is always conceal. *)
Theorem determineAction_table :
  (determineAction (Some apart) apart false = a_conceal
   /\ determineAction (Some apart) edge false = a_delay
   /\ determineAction (Some apart) within false = a_reveal)
  /\ (determineAction (Some edge) apart false = a_conceal
      /\ determineAction (Some edge) edge false = a_delay
      /\ determineAction (Some edge) within false = a_reveal)
  /\ (determineAction (Some within) apart false = a_conceal
      /\ determineAction (Some within) edge false = a_reveal
      /\ determineAction (Some within) within false = a_reveal)
  /\ (forall oldCursor newCursor,
        determineAction oldCursor newCursor true = a_conceal).
Proof.
  repeat split; reflexivity.
Qed.

(** C3, as stated, fails: a candidate without a match in the previous
    state whose new classification is edge is revealed, not delayed. *)
Lemma determineAction_none_edge_not_delay :
  determineAction None edge false <> a_delay.
Proof.
  discriminate.
Qed.

(** The N/A row of the table in the source: without an earlier
    classification and with the mouse up, the action is conceal for
    apart and reveal for edge and for within. *)
Lemma determineAction_none_row :
  determineAction None apart false = a_conceal
  /\ determineAction None edge false = a_reveal
  /\ determineAction None within false = a_reveal.
Proof.
  repeat split; reflexivity.
Qed.

(** ** The cursor classifier *)

Lemma iterReplacements_app {S : Type} (l1 l2 : list Replacement)
    (f : Replacement -> S -> S * bool) (s : S) :
  iterReplacements (l1 ++ l2) f s =
  let '(s', b) := iterReplacements l1 f s in
  if b then (s', true) else iterReplacements l2 f s'.
Proof.
  revert s. induction l1 as [|r l1 IH]; intros s; simpl.
  - reflexivity.
  - destruct (f r s) as [s' b]. destruct b; [reflexivity | apply IH].
Qed.

(** Iterating over a conceal spec is iterating over its member
    replacements from left to right. *)
Lemma iterConcealSpec_flat {S : Type} (spec : ConcealSpec)
    (f : Replacement -> S -> S * bool) (s : S) :
  iterConcealSpec spec f s = iterReplacements (replacements spec) f s.
Proof.
  revert s. induction spec as [r | l IH] using ConcealSpec_nested_ind; intros s.
  - simpl. destruct (f r s) as [s' b]. destruct b; reflexivity.
  - simpl. revert s. induction IH as [| x l Hx _ IHl]; intros s.
    + reflexivity.
    + simpl. rewrite iterReplacements_app, Hx.
      destruct (iterReplacements (replacements x) f s) as [s' b].
      destruct b; [reflexivity | apply IHl].
Qed.

(** The three cases of the callback's body. *)
Lemma classifyStep_cases (range : SelectionRange) (r : Replacement)
    (c : CursorPosType) :
  (touchesBoundary range r /\ ~ insideOverlap range r
   /\ classifyStep range r c = (edge, false))
  \/ (insideOverlap range r /\ ~ touchesBoundary range r
      /\ classifyStep range r c = (within, true))
  \/ (~ touchesBoundary range r /\ ~ insideOverlap range r
      /\ classifyStep range r c = (c, false)).
Proof.
  unfold classifyStep, touchesBoundary, insideOverlap, overlapsProperly,
    pointInside, overlapRangeFrom, overlapRangeTo.
  set (a := Z.max (from range) (start r)).
  set (b := Z.min (to range) (end_ r)).
  destruct (Z.eqb_spec a b) as [Hab | Hab];
    destruct (Z.eqb_spec a (start r)) as [Has | Has];
    destruct (Z.eqb_spec a (end_ r)) as [Hae | Hae];
    destruct (Z.leb_spec a b) as [Hle | Hgt]; simpl;
    try (left; repeat split; solve [auto | lia | intros [?|[? [? ?]]]; lia ]);
    try (right; left; repeat split;
         solve [auto | lia | left; lia | right; repeat split; lia
               | intros [? [?|?]]; lia]);
    try (right; right; repeat split;
         solve [auto | lia | intros [? [?|?]]; lia
               | intros [?|[? [? ?]]]; lia]).
Qed.

Lemma iterReplacements_classify (range : SelectionRange)
    (l : list Replacement) (c : CursorPosType) :
  c <> within ->
  forall c' b, iterReplacements l (classifyStep range) c = (c', b) ->
    (c' = within <-> List.Exists (insideOverlap range) l)
    /\ (c' = edge <->
        ~ List.Exists (insideOverlap range) l
        /\ (c = edge \/ List.Exists (touchesBoundary range) l)).
Proof.
  revert c. induction l as [| r l IH]; intros c Hc c' b Hrun; simpl in Hrun.
  - inversion Hrun; subst. split; split.
    + intros; contradiction.
    + intros H; inversion H.
    + intros ->. split; [intros H; inversion H | now left].
    + intros [_ [H | H]]; [exact H | inversion H].
  - destruct (classifyStep_cases range r c) as
      [(Ht & Hni & E) | [(Hi & Hnt & E) | (Hnt & Hni & E)]];
      rewrite E in Hrun.
    + destruct (IH edge ltac:(discriminate) c' b Hrun) as [IHw IHe].
      split.
      * rewrite IHw. split; [intros H; now right |].
        intros H; inversion H; subst; [contradiction | assumption].
      * rewrite IHe. split.
        -- intros [Hn _]. split; [| right; now left].
           intros H; inversion H; subst; [contradiction | now apply Hn].
        -- intros [Hn _]. split; [| now left].
           intros H. apply Hn. now right.
    + inversion Hrun; subst. split.
      * split; [intros _; now left | reflexivity].
      * split; [discriminate |]. intros [Hn _]. exfalso. apply Hn. now left.
    + destruct (IH c Hc c' b Hrun) as [IHw IHe].
      split.
      * rewrite IHw. split; [intros H; now right |].
        intros H; inversion H; subst; [contradiction | assumption].
      * rewrite IHe. split.
        -- intros [Hn Hor]. split.
           ++ intros H; inversion H; subst; [contradiction | now apply Hn].
           ++ destruct Hor as [Hor | Hor]; [now left | right; now right].
        -- intros [Hn Hor]. split.
           ++ intros H. apply Hn. now right.
           ++ destruct Hor as [Hor | Hor]; [now left |].
              inversion Hor; subst; [contradiction | now right].
Qed.

Lemma classifyRanges_spec (rs : list SelectionRange) (concealSpec : ConcealSpec)
    (c : CursorPosType) :
  c <> within ->
  let someIn (R : SelectionRange -> Replacement -> Prop) :=
    exists range r, In range rs /\ In r (replacements concealSpec) /\ R range r in
  (classifyRanges rs concealSpec c = within <-> someIn insideOverlap)
  /\ (classifyRanges rs concealSpec c = edge <->
      ~ someIn insideOverlap /\ (c = edge \/ someIn touchesBoundary)).
Proof.
  revert c. induction rs as [| range rs IH]; intros c Hc; simpl.
  - split; split.
    + intros; contradiction.
    + intros (? & ? & [] & _).
    + intros ->. split; [intros (? & ? & [] & _) | now left].
    + intros [_ [H | (? & ? & [] & _)]]; exact H.
  - rewrite iterConcealSpec_flat.
    destruct (iterReplacements (replacements concealSpec) (classifyStep range) c)
      as [c' b] eqn:Hrun.
    destruct (iterReplacements_classify range _ c Hc c' b Hrun) as [Hw He].
    setoid_rewrite List.Exists_exists in Hw.
    setoid_rewrite List.Exists_exists in He.
    destruct c'; simpl.
    + (* within: return at once *)
      destruct Hw as [Hw _]. destruct (Hw eq_refl) as (r & Hr & Hin).
      split.
      * split; [intros _ | reflexivity]. exists range, r. auto.
      * split; [discriminate |]. intros [Hn _]. exfalso. apply Hn.
        exists range, r. auto.
    + (* still apart *)
      assert (Hnw : ~ exists r, In r (replacements concealSpec)
                                 /\ insideOverlap range r).
      { intros H. apply Hw in H. discriminate. }
      assert (Hnt : ~ exists r, In r (replacements concealSpec)
                                 /\ touchesBoundary range r).
      { intros H. assert (apart = edge) by (apply (proj2 He); split; [exact Hnw | right; exact H]).
        discriminate. }
      assert (Hce : c <> edge).
      { intros ->. assert (apart = edge) by (apply (proj2 He); split; [exact Hnw | left; reflexivity]).
        discriminate. }
      destruct (IH apart ltac:(discriminate)) as [IHw IHe].
      split.
      * rewrite IHw. split.
        -- intros (g & r & Hg & Hr & HR). exists g, r. auto.
        -- intros (g & r & [<- | Hg] & Hr & HR).
           ++ exfalso. apply Hnw. eauto.
           ++ exists g, r. auto.
      * rewrite IHe. split.
        -- intros [Hn [Hc' | (g & r & Hg & Hr & HR)]]; [discriminate |].
           split.
           ++ intros (g' & r' & [<- | Hg'] & Hr' & HR').
              ** apply Hnw. eauto.
              ** apply Hn. exists g', r'. auto.
           ++ right. exists g, r. auto.
        -- intros [Hn [Hc' | (g & r & [<- | Hg] & Hr & HR)]].
           ++ contradiction.
           ++ exfalso. apply Hnt. eauto.
           ++ split.
              ** intros (g' & r' & Hg' & Hr' & HR'). apply Hn.
                 exists g', r'. auto.
              ** right. exists g, r. auto.
    + (* edge recorded, keep scanning *)
      assert (Hnw : ~ exists r, In r (replacements concealSpec)
                                 /\ insideOverlap range r).
      { intros H. apply Hw in H. discriminate. }
      destruct He as [He _]. destruct (He eq_refl) as [_ Hor].
      destruct (IH edge ltac:(discriminate)) as [IHw IHe].
      split.
      * rewrite IHw. split.
        -- intros (g & r & Hg & Hr & HR). exists g, r. auto.
        -- intros (g & r & [<- | Hg] & Hr & HR).
           ++ exfalso. apply Hnw. eauto.
           ++ exists g, r. auto.
      * rewrite IHe. split.
        -- intros [Hn _]. split.
           ++ intros (g' & r' & [<- | Hg'] & Hr' & HR').
              ** apply Hnw. eauto.
              ** apply Hn. exists g', r'. auto.
           ++ destruct Hor as [Hor | (r & Hr & HR)]; [now left |].
              right. exists range, r. auto.
        -- intros [Hn _]. split; [| now left].
           intros (g' & r' & Hg' & Hr' & HR'). apply Hn.
           exists g', r'. auto.
Qed.

(** The classifier returns within exactly when some pair of a selection
    range and a member replacement is accepted by the within branch. *)
Lemma determineCursorPosType_within_iff (sel : EditorSelection)
    (concealSpec : ConcealSpec) :
  determineCursorPosType sel concealSpec = within
  <-> somePair insideOverlap sel concealSpec.
Proof.
  unfold determineCursorPosType, somePair.
  exact (proj1 (classifyRanges_spec (ranges sel) concealSpec apart
                  ltac:(discriminate))).
Qed.

(** C2, as stated, fails: a cursor strictly inside a replacement is
    classified within although no selection range has an overlap of
    positive length with a member replacement. *)
Lemma within_without_proper_overlap :
  let sel := mkSelection [mkRange 3 3] in
  let concealSpec := Single (mkReplacement 0 5 "x" None None) in
  determineCursorPosType sel concealSpec = within
  /\ ~ somePair overlapsProperly sel concealSpec.
Proof.
  split; [reflexivity |].
  intros (range & r & Hrange & Hr & Hlt).
  destruct Hrange as [<- | []]. destruct Hr as [<- | []].
  unfold overlapsProperly, overlapRangeFrom, overlapRangeTo in Hlt.
  simpl in Hlt. lia.
Qed.

(** C2, amended: the classifier returns within exactly when some
    selection range and some member replacement have an overlap of
    positive length or a one-point overlap that is not a boundary of the
    replacement; it returns edge exactly when no such pair exists and
    some overlap is a single point that is a boundary of the replacement;
    it returns apart exactly when neither kind of pair exists. So the
    result over all ranges and members has priority within, edge,
    apart. *)
Theorem determineCursorPosType_priority (sel : EditorSelection)
    (concealSpec : ConcealSpec) :
  (determineCursorPosType sel concealSpec = within
   <-> somePair insideOverlap sel concealSpec)
  /\ (determineCursorPosType sel concealSpec = edge
      <-> ~ somePair insideOverlap sel concealSpec
          /\ somePair touchesBoundary sel concealSpec)
  /\ (determineCursorPosType sel concealSpec = apart
      <-> ~ somePair insideOverlap sel concealSpec
          /\ ~ somePair touchesBoundary sel concealSpec).
Proof.
  unfold determineCursorPosType, somePair.
  destruct (classifyRanges_spec (ranges sel) concealSpec apart
              ltac:(discriminate)) as [Hw He].
  cbv zeta in Hw, He.
  split; [exact Hw |]. split.
  - rewrite He. split.
    + intros [Hn [Habs | Hs]]; [discriminate | auto].
    + intros [Hn Hs]. auto.
  - destruct (classifyRanges (ranges sel) concealSpec apart) eqn:E.
    + split; [discriminate |]. intros [Hn _]. exfalso. apply Hn.
      now apply Hw.
    + split; [| reflexivity]. intros _. split.
      * intros H. apply Hw in H. discriminate.
      * intros H.
        assert (apart = edge); [| discriminate].
        apply He. split; [| now right].
        intros H'. apply Hw in H'. discriminate.
    + split; [discriminate |]. intros [_ Hn]. exfalso. apply Hn.
      destruct (proj1 He eq_refl) as [_ [Habs | Hs]]; [discriminate | exact Hs].
Qed.

(** The flat revision computes the same classification as the nested
    one on the array of its members. *)
Lemma FlatSpec_classifyReplacements_iter (range : SelectionRange)
    (l : list Replacement) (c : CursorPosType) :
  FlatSpec.classifyReplacements range l c =
  fst (iterReplacements l (classifyStep range) c).
Proof.
  revert c. induction l as [| r l IH]; intros c; simpl; [reflexivity |].
  unfold classifyStep.
  destruct ((Z.max (from range) (start r) =? Z.min (to range) (end_ r))
            && ((Z.max (from range) (start r) =? start r)
                || (Z.max (from range) (start r) =? end_ r))).
  - apply IH.
  - destruct (Z.max (from range) (start r) <=? Z.min (to range) (end_ r));
      [reflexivity | apply IH].
Qed.

Lemma replacements_Group_Single (l : list Replacement) :
  replacements (Group (map Single l)) = l.
Proof.
  simpl. induction l as [| r l IH]; simpl; [reflexivity | now rewrite IH].
Qed.

Lemma FlatSpec_determineCursorPosType_nested (sel : EditorSelection)
    (l : list Replacement) :
  FlatSpec.determineCursorPosType sel l =
  determineCursorPosType sel (Group (map Single l)).
Proof.
  unfold FlatSpec.determineCursorPosType, determineCursorPosType.
  generalize apart as c.
  induction (ranges sel) as [| range rs IH]; intros c; [reflexivity |].
  cbn [FlatSpec.classifyRanges classifyRanges].
  rewrite iterConcealSpec_flat, replacements_Group_Single.
  rewrite FlatSpec_classifyReplacements_iter.
  destruct (iterReplacements l (classifyStep range) c) as [c' b]. simpl.
  destruct (CursorPosType_eqb c' within); [reflexivity | apply IH].
Qed.

(** C10: a zero-width selection range (a cursor) strictly between the
    start and the end of a member replacement makes the classifier
    return within, in the nested and in the flat revision, although the
    overlap interval is empty (its two ends coincide): the within branch
    of the loop body accepts every overlap whose start is at or before
    its end and that is not a single point on a boundary of the
    replacement. *)
Theorem cursor_strictly_inside_is_within (sel : EditorSelection)
    (concealSpec : ConcealSpec) (range : SelectionRange) (r : Replacement) :
  In range (ranges sel) ->
  In r (replacements concealSpec) ->
  from range = to range ->
  start r < from range < end_ r ->
  overlapRangeFrom range r = overlapRangeTo range r
  /\ (forall c, classifyStep range r c = (within, true))
  /\ determineCursorPosType sel concealSpec = within
  /\ FlatSpec.determineCursorPosType sel (replacements concealSpec) = within
  /\ (forall range' r' c,
        overlapRangeFrom range' r' <= overlapRangeTo range' r' ->
        ~ touchesBoundary range' r' ->
        classifyStep range' r' c = (within, true)).
Proof.
  intros Hrange Hr Heq Hin.
  assert (Hbranch : forall range' r' c,
            overlapRangeFrom range' r' <= overlapRangeTo range' r' ->
            ~ touchesBoundary range' r' ->
            classifyStep range' r' c = (within, true)).
  { intros range' r' c Hle Hnt.
    destruct (classifyStep_cases range' r' c) as
      [(Ht & _) | [(_ & _ & E) | (_ & Hni & _)]];
      [contradiction | exact E |].
    exfalso. apply Hni. unfold insideOverlap, overlapsProperly, pointInside.
    unfold touchesBoundary in Hnt.
    destruct (Z.eq_dec (overlapRangeFrom range' r') (overlapRangeTo range' r'))
      as [E | E]; [right | left; lia].
    split; [exact E |]. split; intros E'; apply Hnt; auto. }
  assert (Hov : overlapRangeFrom range r = overlapRangeTo range r).
  { unfold overlapRangeFrom, overlapRangeTo. lia. }
  assert (Hinside : insideOverlap range r).
  { right. split; [exact Hov |].
    unfold overlapRangeFrom in *. lia. }
  split; [exact Hov |]. split.
  - intros c.
    destruct (classifyStep_cases range r c) as
      [(_ & Hn & _) | [(_ & _ & E) | (_ & Hn & _)]];
      [contradiction | exact E | contradiction].
  - split; [| split].
    + apply determineCursorPosType_within_iff. exists range, r. auto.
    + rewrite FlatSpec_determineCursorPosType_nested.
      apply determineCursorPosType_within_iff. exists range, r.
      rewrite replacements_Group_Single. auto.
    + exact Hbranch.
Qed.

(** C10 at a selection of two ranges and a group of two members. *)
Lemma cursor_strictly_inside_is_within_witness :
  let r := mkReplacement 10 16 "a" None None in
  let range := mkRange 12 12 in
  let sel := mkSelection [mkRange 40 44; range] in
  let concealSpec := Group [Single (mkReplacement 2 8 "" None None); Single r] in
  (In range (ranges sel) /\ In r (replacements concealSpec)
   /\ from range = to range /\ start r < from range < end_ r)
  /\ determineCursorPosType sel concealSpec = within.
Proof.
  intros r range sel concealSpec.
  assert (H1 : In range (ranges sel)) by (simpl; right; left; reflexivity).
  assert (H2 : In r (replacements concealSpec))
    by (simpl; right; left; reflexivity).
  assert (H3 : from range = to range) by reflexivity.
  assert (H4 : start r < from range < end_ r) by (simpl; lia).
  split; [auto |].
  exact (proj1 (proj2 (proj2
    (cursor_strictly_inside_is_within sel concealSpec range r H1 H2 H3 H4)))).
Defined.

(** ** Identity matching across an edit *)

Lemma sameShape_replacements_length (o n : ConcealSpec) :
  sameShape o n -> length (replacements o) = length (replacements n).
Proof.
  revert n. induction o as [ro | os IH] using ConcealSpec_nested_ind;
    intros [rn | ns]; simpl; try contradiction; [reflexivity |].
  intros [_ Hall]. revert ns Hall.
  induction IH as [| o os Ho _ IHos]; intros [| n ns] Hall; simpl;
    try contradiction; [reflexivity |].
  destruct Hall as [Hon Hall]. rewrite !length_app.
  rewrite (Ho n Hon), (IHos ns Hall). reflexivity.
Qed.

(** C5: an old and a new conceal spec are matched exactly when they have
    the same shape (both single, or both arrays of equal length, member
    by member) and, for each pair of corresponding member replacements,
    the old start mapped with association 1 is the new start and the old
    end mapped with association -1 is the new end. *)
Theorem atSamePosAfter_iff (update : ViewUpdate) (o n : ConcealSpec) :
  atSamePosAfter update o n = true
  <-> sameShape o n
      /\ Forall2 (boundariesMapTo update) (replacements o) (replacements n).
Proof.
  revert n. induction o as [ro | os IH] using ConcealSpec_nested_ind;
    intros [rn | ns]; simpl.
  - rewrite andb_true_iff, !Z.eqb_eq. split.
    + intros [Hs He]. split; [exact I |].
      constructor; [split; assumption | constructor].
    + intros [_ H]. inversion H as [| ? ? ? ? [Hs He] _]; subst. auto.
  - split; [discriminate | intros [[] _]].
  - split; [discriminate | intros [[] _]].
  - destruct (Nat.eqb_spec (length os) (length ns)) as [Hlen | Hlen]; simpl.
    2: { split; [discriminate | intros [[Habs _] _]; contradiction]. }
    enough (Hloop :
      (fix loop (os ns : list ConcealSpec) : bool :=
         match os, ns with
         | o :: os', n :: ns' =>
             if negb (atSamePosAfter update o n) then false else loop os' ns'
         | _, _ => true
         end) os ns = true
      <-> (fix all (os ns : list ConcealSpec) : Prop :=
             match os, ns with
             | [] , [] => True
             | o :: os', n :: ns' => sameShape o n /\ all os' ns'
             | _, _ => False
             end) os ns
          /\ Forall2 (boundariesMapTo update)
               (flat_map replacements os) (flat_map replacements ns)).
    { rewrite Hloop. tauto. }
    clear - IH Hlen. revert ns Hlen.
    induction IH as [| o os Ho _ IHos]; intros [| n ns] Hlen;
      simpl in Hlen; try discriminate.
    + simpl. split; [intros _; split; [exact I | constructor] | reflexivity].
    + injection Hlen as Hlen. specialize (IHos ns Hlen). cbn [flat_map].
      destruct (atSamePosAfter update o n) eqn:Eon; simpl.
      * apply Ho in Eon. destruct Eon as [Hshape Hb].
        rewrite IHos. split.
        -- intros [Hall Hrest]. split; [split; assumption |].
           apply Forall2_app; assumption.
        -- intros [[_ Hall] Happ]. split; [exact Hall |].
           apply Forall2_app_inv in Happ;
             [tauto | now apply sameShape_replacements_length].
      * split; [discriminate |]. intros [[Hshape _] Happ].
        apply Forall2_app_inv in Happ;
          [| now apply sameShape_replacements_length].
        assert (atSamePosAfter update o n = true) by (apply Ho; tauto).
        congruence.
Qed.

(** ** JavaScript strings *)

Lemma append_cons (c : ascii) (a b : string) :
  (String c a ++ b)%string = String c (a ++ b).
Proof.
  reflexivity.
Qed.

Lemma append_empty_l (b : string) : (""%string ++ b)%string = b.
Proof.
  reflexivity.
Qed.

Lemma length_append (a b : string) :
  String.length (a ++ b) = (String.length a + String.length b)%nat.
Proof.
  induction a as [| c a IH]; [reflexivity |].
  rewrite append_cons. simpl. f_equal. exact IH.
Qed.

Lemma append_assoc (a b c : string) : ((a ++ b) ++ c)%string = (a ++ (b ++ c))%string.
Proof.
  induction a as [| x a IH]; [reflexivity |].
  rewrite !append_cons. f_equal. exact IH.
Qed.

Lemma append_empty_r (a : string) : (a ++ "")%string = a.
Proof.
  induction a as [| x a IH]; [reflexivity |].
  rewrite append_cons. f_equal. exact IH.
Qed.

Lemma jsLength_append (a b : string) :
  jsLength (a ++ b) = jsLength a + jsLength b.
Proof.
  unfold jsLength. rewrite length_append. lia.
Qed.

Lemma jsLength_nonneg (a : string) : 0 <= jsLength a.
Proof.
  unfold jsLength. lia.
Qed.

Lemma substring_append_skip (a s : string) (n m : nat) :
  String.substring (String.length a + n) m (a ++ s) = String.substring n m s.
Proof.
  induction a as [| c a IH]; [reflexivity |].
  rewrite append_cons. simpl. exact IH.
Qed.

Lemma substring_prefix (w post : string) :
  String.substring 0 (String.length w) (w ++ post) = w.
Proof.
  induction w as [| c w IH].
  - rewrite append_empty_l. destruct post; reflexivity.
  - rewrite append_cons. simpl. f_equal. exact IH.
Qed.

Lemma substring_middle (pre w post : string) :
  String.substring (String.length pre) (String.length w) (pre ++ w ++ post) = w.
Proof.
  rewrite <- (Nat.add_0_r (String.length pre)).
  rewrite substring_append_skip. apply substring_prefix.
Qed.

Lemma substring_0_split (m : nat) (s w : string) :
  String.substring 0 m s = w -> String.length w = m ->
  exists post, s = (w ++ post)%string.
Proof.
  revert s w. induction m as [| m IH]; intros s w Hsub Hlen.
  - destruct w; [| discriminate]. exists s. reflexivity.
  - destruct s as [| c s]; simpl in Hsub; subst w; [discriminate |].
    simpl in Hlen. injection Hlen as Hlen.
    destruct (IH s _ eq_refl Hlen) as [post Hpost].
    exists post. rewrite append_cons. now rewrite <- Hpost.
Qed.

Lemma substring_split (n m : nat) (s w : string) :
  String.substring n m s = w -> String.length w = m -> (0 < m)%nat ->
  exists pre post, s = (pre ++ w ++ post)%string /\ String.length pre = n.
Proof.
  revert s. induction n as [| n IH]; intros s Hsub Hlen Hm.
  - destruct (substring_0_split m s w Hsub Hlen) as [post ->].
    exists ""%string, post. split; reflexivity.
  - destruct s as [| c s].
    + simpl in Hsub. subst w. simpl in Hlen. lia.
    + simpl in Hsub. destruct (IH s Hsub Hlen Hm) as (pre & post & -> & Hpre).
      exists (String c pre), post. rewrite append_cons. simpl.
      split; [reflexivity | now rewrite Hpre].
Qed.

(** The unit after the prefix [a]. *)
Lemma jsSlice_unit (a b : string) (c : ascii) :
  jsSlice (a ++ String c b) (jsLength a) (jsLength a + 1) = String c "".
Proof.
  unfold jsSlice. rewrite jsLength_append.
  assert (Hb : jsLength (String c b) = 1 + jsLength b)
    by (unfold jsLength; simpl; lia).
  pose proof (jsLength_nonneg a). pose proof (jsLength_nonneg b).
  destruct (Z.ltb_spec (jsLength a) 0); [lia |].
  destruct (Z.ltb_spec (jsLength a + 1) 0); [lia |].
  replace (Z.min (jsLength a) (jsLength a + jsLength (String c b)))
    with (jsLength a) by lia.
  replace (Z.min (jsLength a + 1) (jsLength a + jsLength (String c b)))
    with (jsLength a + 1) by lia.
  replace (Z.to_nat (Z.max (jsLength a + 1 - jsLength a) 0)) with 1%nat by lia.
  unfold jsLength. rewrite Nat2Z.id.
  rewrite <- (Nat.add_0_r (String.length a)), substring_append_skip.
  simpl. destruct b; reflexivity.
Qed.

(** A unit read by [charAt] splits the string at its offset. *)
Lemma jsCharAt_split (s : string) (j : Z) (c : ascii) :
  jsCharAt s j = String c "" ->
  exists a b, s = (a ++ String c b)%string /\ jsLength a = j.
Proof.
  unfold jsCharAt.
  destruct (Z.leb_spec 0 j); destruct (Z.ltb_spec j (jsLength s)); simpl;
    try discriminate.
  intros Hsub.
  destruct (substring_split (Z.to_nat j) 1 s _ Hsub eq_refl ltac:(lia))
    as (a & b & -> & Ha).
  exists a, b. split; [reflexivity |]. unfold jsLength. lia.
Qed.

Lemma jsCharAt_unit (a b : string) (c : ascii) :
  jsCharAt (a ++ String c b) (jsLength a) = String c "".
Proof.
  unfold jsCharAt. rewrite jsLength_append.
  pose proof (jsLength_nonneg a). pose proof (jsLength_nonneg b).
  assert (Hb : jsLength (String c b) = 1 + jsLength b)
    by (unfold jsLength; simpl; lia).
  destruct (Z.leb_spec 0 (jsLength a)); [| lia].
  destruct (Z.ltb_spec (jsLength a) (jsLength a + jsLength (String c b))); [| lia].
  simpl. unfold jsLength. rewrite Nat2Z.id.
  rewrite <- (Nat.add_0_r (String.length a)), substring_append_skip.
  simpl. destruct b; reflexivity.
Qed.

(** [substring(e, e + length w)] reads [w] exactly when [w] stands at
    offset [e]. *)
Lemma jsSubstring_middle (pre w post : string) :
  jsSubstring (pre ++ w ++ post) (jsLength pre) (jsLength pre + jsLength w) = w.
Proof.
  unfold jsSubstring, clampIndex. rewrite !jsLength_append.
  pose proof (jsLength_nonneg pre). pose proof (jsLength_nonneg w).
  pose proof (jsLength_nonneg post).
  replace (Z.max 0 (Z.min (jsLength pre) (jsLength pre + (jsLength w + jsLength post))))
    with (jsLength pre) by lia.
  replace (Z.max 0 (Z.min (jsLength pre + jsLength w)
                      (jsLength pre + (jsLength w + jsLength post))))
    with (jsLength pre + jsLength w) by lia.
  replace (Z.min (jsLength pre) (jsLength pre + jsLength w)) with (jsLength pre) by lia.
  replace (Z.max (jsLength pre) (jsLength pre + jsLength w) - jsLength pre)
    with (jsLength w) by lia.
  unfold jsLength. rewrite !Nat2Z.id. apply substring_middle.
Qed.

Lemma length_substring_le (n m : nat) (s : string) :
  (String.length (String.substring n m s) <= m)%nat.
Proof.
  revert n m. induction s as [| c s IH]; intros [| n] [| m]; simpl; try lia.
  - specialize (IH 0%nat m). lia.
  - apply IH.
  - apply IH.
Qed.

Lemma jsSubstring_split (s w : string) (e : Z) :
  w <> ""%string ->
  jsSubstring s e (e + jsLength w) = w ->
  exists pre post, s = (pre ++ w ++ post)%string /\ jsLength pre = e.
Proof.
  intros Hne Hsub.
  assert (Hw : 0 < jsLength w).
  { destruct w; [contradiction | unfold jsLength; simpl; lia]. }
  unfold jsSubstring, clampIndex in Hsub.
  pose proof (jsLength_nonneg s).
  set (a' := Z.max 0 (Z.min e (jsLength s))) in *.
  set (b' := Z.max 0 (Z.min (e + jsLength w) (jsLength s))) in *.
  assert (Hab : a' <= b') by lia.
  replace (Z.min a' b') with a' in Hsub by lia.
  replace (Z.max a' b') with b' in Hsub by lia.
  pose proof (length_substring_le (Z.to_nat a') (Z.to_nat (b' - a')) s) as Hle.
  rewrite Hsub in Hle.
  assert (Hlen : String.length w = Z.to_nat (b' - a')).
  { unfold jsLength in *. lia. }
  assert (He : a' = e) by (unfold jsLength in *; lia).
  destruct (substring_split _ _ s w Hsub Hlen ltac:(unfold jsLength in *; lia))
    as (pre & post & -> & Hpre).
  exists pre, post. split; [reflexivity |]. unfold jsLength. lia.
Qed.

Lemma substring_zero (n : nat) (s : string) : String.substring n 0 s = ""%string.
Proof.
  revert n. induction s as [| c s IH]; intros [| n]; simpl; auto.
Qed.

Lemma jsSlice_empty (s : string) (x : Z) : jsSlice s x x = ""%string.
Proof.
  unfold jsSlice. rewrite Z.sub_diag. apply substring_zero.
Qed.


(** ** The regular expression matcher *)

Lemma stripPrefix_Some (l s s' : string) :
  RegExp.stripPrefix l s = Some s' <-> s = (l ++ s')%string.
Proof.
  revert s. induction l as [| a l IH]; intros s; simpl.
  - rewrite append_empty_l. split; [intros [= ->] | intros ->]; reflexivity.
  - rewrite append_cons. destruct s as [| c s].
    + split; discriminate.
    + destruct (Ascii.eqb_spec a c) as [-> | Hne].
      * rewrite IH. split; [intros -> | intros [= ->]]; reflexivity.
      * split; [discriminate | intros [= H _]; congruence].
Qed.

(** A successful match of an alternation of literals consumed one of the
    alternatives. *)
Lemma rmatch_alternatives {R : Type} (names : list string) (s : string)
    (pos : nat) (caps : RegExp.captures)
    (k : string -> nat -> RegExp.captures -> option R) (res : R) :
  names <> [] ->
  rmatch (alternatives names) s pos caps k = Some res ->
  exists name s', In name names /\ s = (name ++ s')%string
                  /\ k s' (pos + String.length name)%nat caps = Some res.
Proof.
  induction names as [| n names IH]; intros Hne H; [contradiction |].
  destruct names as [| n' names].
  - simpl in H. destruct (RegExp.stripPrefix n s) as [s' |] eqn:E; [| discriminate].
    apply stripPrefix_Some in E. exists n, s'. simpl. auto.
  - change (alternatives (n :: n' :: names))
      with (Alt (Lit n) (alternatives (n' :: names))) in H.
    cbn [rmatch] in H.
    destruct (RegExp.stripPrefix n s) as [s' |] eqn:E.
    + destruct (k s' (pos + String.length n)%nat caps) as [x |] eqn:Ek.
      * injection H as <-. apply stripPrefix_Some in E.
        exists n, s'. simpl. auto.
      * destruct (IH ltac:(discriminate) H) as (name & s'' & Hin & Hs & Hk).
        exists name, s''. split; [now right | auto].
    + destruct (IH ltac:(discriminate) H) as (name & s'' & Hin & Hs & Hk).
      exists name, s''. split; [now right | auto].
Qed.

(** Every element of [matchAll] is a successful attempt at some offset of
    the text. *)
Lemma matchAllFrom_In (r : regex) (text s pre : string) (skip : nat) (m : Match) :
  text = (pre ++ s)%string ->
  In m (RegExp.matchAllFrom r text s (String.length pre) skip) ->
  exists pre' s' e caps,
    text = (pre' ++ s')%string
    /\ RegExp.matchAt r s' (String.length pre') = Some (e, caps)
    /\ m = RegExp.mkMatchAt text (String.length pre') e caps.
Proof.
  revert pre skip. induction s as [| c s IH]; intros pre skip Htext Hin.
  - destruct skip as [| skip]; simpl in Hin; [| contradiction].
    destruct (RegExp.matchAt r "" (String.length pre)) as [[e caps] |] eqn:E;
      [| contradiction].
    destruct Hin as [<- | []]. exists pre, ""%string, e, caps. auto.
  - assert (Hnext : forall skip', In m (RegExp.matchAllFrom r text s
                      (S (String.length pre)) skip') ->
              exists pre' s' e caps,
                text = (pre' ++ s')%string
                /\ RegExp.matchAt r s' (String.length pre') = Some (e, caps)
                /\ m = RegExp.mkMatchAt text (String.length pre') e caps).
    { intros skip' H.
      apply (IH (pre ++ String c "")%string skip').
      - rewrite Htext, append_assoc. reflexivity.
      - rewrite length_append. simpl. rewrite Nat.add_1_r. exact H. }
    destruct skip as [| skip]; simpl in Hin; [| eapply Hnext, Hin].
    destruct (RegExp.matchAt r (String c s) (String.length pre))
      as [[e caps] |] eqn:E.
    + destruct Hin as [<- | Hin]; [| eapply Hnext, Hin].
      exists pre, (String c s), e, caps. auto.
    + eapply Hnext, Hin.
Qed.

Lemma matchAll_In (r : regex) (text : string) (m : Match) :
  In m (matchAll r text) ->
  exists pre s e caps,
    text = (pre ++ s)%string
    /\ RegExp.matchAt r s (String.length pre) = Some (e, caps)
    /\ m = RegExp.mkMatchAt text (String.length pre) e caps.
Proof.
  intros H. apply (matchAllFrom_In r text text ""%string 0 m); [reflexivity | exact H].
Qed.

(** ** The bracket matcher *)

(** The loop returns -1 or an offset that it visited. *)
Lemma findMatchingBracketLoop_range (n : nat) (text : string) (i : Z)
    (openBracket closeBracket : string) (b : Z) :
  let r := findMatchingBracketLoop n text i openBracket closeBracket b in
  r = -1 \/ i <= r < i + Z.of_nat n.
Proof.
  cbv zeta. revert i b. induction n as [| n IH]; intros i b; simpl; [now left |].
  destruct (String.eqb _ openBracket).
  - destruct (IH (i + 1) (b + 1)) as [H | H]; [now left | right; lia].
  - destruct (String.eqb _ closeBracket).
    + destruct (b - 1 =? 0); [right; lia |].
      destruct (IH (i + 1) (b - 1)) as [H | H]; [now left | right; lia].
    + destruct (IH (i + 1) b) as [H | H]; [now left | right; lia].
Qed.

Lemma findMatchingBracketLoop_plain (n : nat) (a rest : string) (x : ascii) (b : Z) :
  x <> "{"%char -> x <> "}"%char ->
  findMatchingBracketLoop (S n) (a ++ String x rest) (jsLength a) "{" "}" b =
  findMatchingBracketLoop n (a ++ String x rest) (jsLength a + 1) "{" "}" b.
Proof.
  intros Ho Hc. cbn [findMatchingBracketLoop].
  change (jsLength "{") with 1. change (jsLength "}") with 1.
  rewrite jsSlice_unit.
  destruct (String.eqb_spec (String x "") "{") as [[= E] | _]; [congruence |].
  destruct (String.eqb_spec (String x "") "}") as [[= E] | _]; [congruence |].
  reflexivity.
Qed.

Lemma findMatchingBracketLoop_open (n : nat) (a rest : string) (b : Z) :
  findMatchingBracketLoop (S n) (a ++ String "{" rest) (jsLength a) "{" "}" b =
  findMatchingBracketLoop n (a ++ String "{" rest) (jsLength a + 1) "{" "}" (b + 1).
Proof.
  cbn [findMatchingBracketLoop].
  change (jsLength "{") with 1.
  rewrite jsSlice_unit. reflexivity.
Qed.

(** Units that are not braces are stepped over without a change of the
    depth. *)
Lemma findMatchingBracketLoop_skip (u : string) :
  noBrace u = true ->
  forall (a rest : string) (n : nat) (b : Z),
    findMatchingBracketLoop (String.length u + n) (a ++ u ++ rest) (jsLength a)
      "{" "}" b =
    findMatchingBracketLoop n (a ++ u ++ rest) (jsLength a + jsLength u)
      "{" "}" b.
Proof.
  induction u as [| x u IH]; intros Hu a rest n b.
  - simpl. change (jsLength "") with 0. now rewrite Z.add_0_r.
  - unfold noBrace in Hu. simpl in Hu.
    apply andb_true_iff in Hu. destruct Hu as [Hx Hu].
    apply andb_true_iff in Hx. destruct Hx as [Ho Hc].
    apply negb_true_iff in Ho, Hc.
    apply Ascii.eqb_neq in Ho, Hc.
    rewrite append_cons. cbn [String.length Nat.add].
    rewrite findMatchingBracketLoop_plain by assumption.
    specialize (IH Hu (a ++ String x "")%string rest n b).
    rewrite append_assoc, append_cons, append_empty_l in IH.
    rewrite jsLength_append in IH.
    change (jsLength (String x "")) with 1 in IH.
    rewrite IH. f_equal.
    unfold jsLength. simpl String.length. lia.
Qed.

(** Started at a command, the search returns -1 or an offset after the
    command's opening brace. *)
Lemma findMatchingBracket_command (pre name post : string) :
  noBrace name = true ->
  let text := (pre ++ (backslash ++ name ++ "{") ++ post)%string in
  let r := findMatchingBracket text (jsLength pre) "{" "}" false None in
  r = -1 \/ jsLength pre + jsLength name + 2 <= r < jsLength text.
Proof.
  intros Hname. cbv zeta.
  unfold findMatchingBracket, findMatchingBracketForward.
  set (u := (backslash ++ name)%string).
  assert (Htext : (pre ++ (backslash ++ name ++ "{") ++ post)%string
                  = (pre ++ u ++ String "{" post)%string).
  { unfold u. now rewrite !append_assoc. }
  rewrite Htext.
  assert (Hu : noBrace u = true) by (unfold u; exact Hname).
  assert (Hlen : jsLength (pre ++ u ++ String "{" post)
                 = jsLength pre + jsLength u + 1 + jsLength post).
  { rewrite !jsLength_append. unfold jsLength at 3. simpl String.length.
    unfold jsLength. lia. }
  rewrite Hlen.
  replace (Z.to_nat (jsLength pre + jsLength u + 1 + jsLength post - jsLength pre))
    with (String.length u + S (String.length post))%nat
    by (unfold jsLength; lia).
  rewrite findMatchingBracketLoop_skip by exact Hu.
  rewrite <- append_assoc.
  replace (jsLength pre + jsLength u) with (jsLength (pre ++ u))
    by apply jsLength_append.
  rewrite findMatchingBracketLoop_open.
  pose proof (findMatchingBracketLoop_range (String.length post)
                ((pre ++ u) ++ String "{" post) (jsLength (pre ++ u) + 1)
                "{" "}" (0 + 1)) as Hr.
  cbv zeta in Hr.
  assert (Hju : jsLength u = 1 + jsLength name).
  { unfold u. rewrite jsLength_append. reflexivity. }
  rewrite jsLength_append in Hr |- *.
  destruct Hr as [Hr | Hr]; [now left | right].
  unfold jsLength in *. lia.
Qed.

(** Started at an opening brace, the search returns -1 or a later
    offset. *)
Lemma findMatchingBracket_open (text : string) (j : Z) :
  jsCharAt text j = "{"%string ->
  let r := findMatchingBracket text j "{" "}" false None in
  r = -1 \/ j + 1 <= r < jsLength text.
Proof.
  intros Hc. cbv zeta.
  destruct (jsCharAt_split text j "{" Hc) as (a & b & -> & <-).
  unfold findMatchingBracket, findMatchingBracketForward.
  assert (Hlen : jsLength (a ++ String "{" b) = jsLength a + 1 + jsLength b).
  { rewrite jsLength_append. unfold jsLength. simpl String.length. lia. }
  rewrite Hlen.
  replace (Z.to_nat (jsLength a + 1 + jsLength b - jsLength a))
    with (S (String.length b)) by (unfold jsLength; lia).
  rewrite findMatchingBracketLoop_open.
  pose proof (findMatchingBracketLoop_range (String.length b)
                (a ++ String "{" b) (jsLength a + 1) "{" "}" (0 + 1)) as Hr.
  cbv zeta in Hr. destruct Hr as [Hr | Hr]; [now left | right].
  unfold jsLength in *. lia.
Qed.

(** ** The matches of the grouped constructs *)

Lemma command_matchAt (names : list string) (s : string) (p e : nat)
    (caps : RegExp.captures) :
  names <> [] ->
  RegExp.matchAt
    (Seq (Lit backslash) (Seq (Capture 1 (alternatives names)) (Lit "{"))) s p
  = Some (e, caps) ->
  exists name rest,
    In name names
    /\ s = (backslash ++ name ++ "{" ++ rest)%string
    /\ e = (p + 1 + String.length name + 1)%nat
    /\ caps = [(1%nat, ((p + 1)%nat, (p + 1 + String.length name)%nat))].
Proof.
  intros Hne H. unfold RegExp.matchAt in H. cbn [rmatch] in H.
  destruct (RegExp.stripPrefix backslash s) as [s1 |] eqn:E1; [| discriminate].
  apply stripPrefix_Some in E1.
  apply rmatch_alternatives in H; [| exact Hne].
  destruct H as (name & s2 & Hin & Hs2 & H).
  destruct (RegExp.stripPrefix "{" s2) as [s3 |] eqn:E3; [| discriminate].
  apply stripPrefix_Some in E3. injection H as <- <-.
  exists name, s3. subst s s1 s2.
  change (String.length backslash) with 1%nat.
  change (String.length "{") with 1%nat.
  repeat split; auto.
Qed.

Lemma substring_after (pre a w post : string) :
  String.substring (String.length pre + String.length a) (String.length w)
    (pre ++ a ++ w ++ post) = w.
Proof.
  rewrite <- length_append, <- append_assoc. apply substring_middle.
Qed.

(** The matches of a command expression stand in the text. *)
Lemma command_matches (names : list string) (eqn : string) (m : Match) :
  names <> [] ->
  In m (matchAll
          (Seq (Lit backslash) (Seq (Capture 1 (alternatives names)) (Lit "{")))
          eqn) ->
  exists name, In name names /\ commandMatch eqn m name /\ group m 1 = name.
Proof.
  intros Hne Hin.
  destruct (matchAll_In _ _ _ Hin) as (pre & s & e & caps & Htext & Hat & ->).
  destruct (command_matchAt names s _ e caps Hne Hat) as (name & rest & Hn & -> & -> & ->).
  exists name. split; [exact Hn |]. unfold commandMatch, standsAt. split; [split |].
  - exists pre, rest. split.
    + rewrite Htext, !append_assoc. reflexivity.
    + reflexivity.
  - simpl. rewrite Htext.
    replace (String.length pre + 1 + String.length name + 1 - String.length pre)%nat
      with (String.length (backslash ++ name ++ "{")).
    2: { rewrite !length_append.
         change (String.length backslash) with 1%nat.
         change (String.length "{") with 1%nat. lia. }
    rewrite <- (substring_middle pre (backslash ++ name ++ "{") rest) at 2.
    rewrite !append_assoc. reflexivity.
  - simpl. rewrite Htext.
    replace (String.length pre + 1 + String.length name - (String.length pre + 1))%nat
      with (String.length name) by lia.
    change 1%nat with (String.length backslash) at 1.
    apply substring_after.
Qed.

Lemma fraction_matches (eqn : string) (m : Match) :
  In m (matchAll fractionRegex eqn) ->
  commandMatch eqn m "frac" /\ group m 1 = "frac"%string.
Proof.
  intros H.
  destruct (command_matches ["frac"%string] eqn m ltac:(discriminate) H)
    as (name & [<- | []] & Hc & Hg). auto.
Qed.

Lemma braKet_matches (eqn : string) (m : Match) :
  In m (matchAll braKetRegex eqn) ->
  exists name, In name ["braket"; "bra"; "ket"]%string
               /\ commandMatch eqn m name /\ group m 1 = name.
Proof.
  apply command_matches. discriminate.
Qed.

Lemma set_matches (eqn : string) (m : Match) :
  In m (matchAll setRegex eqn) -> commandMatch eqn m "set".
Proof.
  intros Hin.
  destruct (matchAll_In _ _ _ Hin) as (pre & s & e & caps & Htext & Hat & ->).
  unfold RegExp.matchAt, setRegex in Hat. cbn [rmatch] in Hat.
  destruct (RegExp.stripPrefix _ s) as [rest |] eqn:E; [| discriminate].
  apply stripPrefix_Some in E. injection Hat as <- <-. subst s.
  unfold commandMatch, standsAt. split.
  - exists pre, rest. split; [| reflexivity].
    rewrite Htext. reflexivity.
  - simpl. rewrite Htext.
    replace (String.length pre + 5 - String.length pre)%nat
      with (String.length (backslash ++ "set{")) by (simpl; lia).
    apply substring_middle.
Qed.

(** ** The loop bodies of the grouped constructs *)

Lemma commandMatch_length (eqn : string) (m : Match) (name : string) :
  commandMatch eqn m name ->
  jsLength (group m 0) = jsLength name + 2 /\ 0 <= index m.
Proof.
  intros [(pre & post & _ & Hpre) ->]. split.
  - rewrite !jsLength_append.
    change (jsLength backslash) with 1. change (jsLength "{") with 1. lia.
  - rewrite <- Hpre. apply jsLength_nonneg.
Qed.

Lemma commandMatch_bracket (eqn : string) (m : Match) (name : string) :
  commandMatch eqn m name -> noBrace name = true ->
  let r := findMatchingBracket eqn (index m) "{" "}" false None in
  r = -1 \/ index m + jsLength name + 2 <= r < jsLength eqn.
Proof.
  intros [(pre & post & -> & <-) _] Hname.
  apply findMatchingBracket_command. exact Hname.
Qed.

Lemma concealBraKetMatch_cases (eqn : string) (m : Match) (name : string) :
  commandMatch eqn m name -> noBrace name = true ->
  let contentEnd := findMatchingBracket eqn (index m) "{" "}" false None in
  let contentStart := index m + jsLength name + 1 in
  (contentEnd = -1 /\ concealBraKetMatch eqn m = [])
  \/ (contentStart + 1 <= contentEnd < jsLength eqn
      /\ concealBraKetMatch eqn m =
         [{| inner := Group [
               plain (index m) contentStart "";
               bracket contentStart (contentStart + 1)
                 (if String.eqb (group m 1) "ket" then vert else langle);
               bracket contentEnd (contentEnd + 1)
                 (if String.eqb (group m 1) "bra" then vert else rangle) ] |}]).
Proof.
  intros Hm Hname. cbv zeta.
  pose proof (jsLength_nonneg name) as Hn.
  destruct (commandMatch_length eqn m name Hm) as [Hlen Hidx].
  destruct (commandMatch_bracket eqn m name Hm Hname) as [Hr | Hr];
    unfold concealBraKetMatch.
  - left. rewrite Hr. auto.
  - right. split; [lia |].
    destruct (Z.eqb_spec (findMatchingBracket eqn (index m) "{" "}" false None) (-1));
      [lia |].
    rewrite Hlen.
    replace (index m + (jsLength name + 2) - 1) with (index m + jsLength name + 1)
      by lia.
    reflexivity.
Qed.

Lemma concealSetMatch_cases (eqn : string) (m : Match) :
  commandMatch eqn m "set" ->
  let contentEnd := findMatchingBracket eqn (index m) "{" "}" false None in
  (contentEnd = -1 /\ concealSetMatch eqn m = [])
  \/ (index m + 5 <= contentEnd < jsLength eqn
      /\ concealSetMatch eqn m =
         [{| inner := Group [
               plain (index m) (index m + 4) "";
               bracket (index m + 4) (index m + 5) "{";
               bracket contentEnd (contentEnd + 1) "}" ] |}]).
Proof.
  intros Hm. cbv zeta.
  destruct (commandMatch_length eqn m _ Hm) as [Hlen Hidx].
  destruct (commandMatch_bracket eqn m _ Hm eq_refl) as [Hr | Hr];
    unfold concealSetMatch.
  - left. rewrite Hr. auto.
  - right. change (jsLength "set") with 3 in Hr, Hlen. split; [lia |].
    destruct (Z.eqb_spec (findMatchingBracket eqn (index m) "{" "}" false None) (-1));
      [lia |].
    rewrite Hlen.
    replace (index m + (3 + 2) - 1) with (index m + 4) by lia.
    replace (index m + 4 + 1) with (index m + 5) by lia.
    reflexivity.
Qed.

Lemma concealFractionMatch_cases (eqn : string) (m : Match) :
  commandMatch eqn m "frac" ->
  let numeratorEnd := findMatchingBracket eqn (index m) "{" "}" false None in
  let denominatorEnd := findMatchingBracket eqn (numeratorEnd + 1) "{" "}" false None in
  (numeratorEnd = -1 /\ concealFractionMatch eqn m = [])
  \/ (numeratorEnd <> -1 /\ jsCharAt eqn (numeratorEnd + 1) <> "{"%string
      /\ concealFractionMatch eqn m = [])
  \/ (numeratorEnd <> -1 /\ jsCharAt eqn (numeratorEnd + 1) = "{"%string
      /\ denominatorEnd = -1 /\ concealFractionMatch eqn m = [])
  \/ (index m + 6 <= numeratorEnd
      /\ jsCharAt eqn (numeratorEnd + 1) = "{"%string
      /\ numeratorEnd + 2 <= denominatorEnd < jsLength eqn
      /\ concealFractionMatch eqn m =
         [{| inner := fractionSpec (index m) numeratorEnd denominatorEnd |}]).
Proof.
  intros Hm. cbv zeta.
  destruct (commandMatch_length eqn m _ Hm) as [Hlen Hidx].
  change (jsLength "frac") with 4 in Hlen.
  destruct (commandMatch_bracket eqn m _ Hm eq_refl) as [Hr | Hr];
    unfold concealFractionMatch.
  - left. rewrite Hr. auto.
  - change (jsLength "frac") with 4 in Hr.
    set (ne := findMatchingBracket eqn (index m) "{" "}" false None) in *.
    destruct (Z.eqb_spec ne (-1)); [lia |].
    destruct (String.eqb_spec (jsCharAt eqn (ne + 1)) "{") as [Hc | Hc];
      cbn [negb].
    2: { right. left. auto. }
    destruct (findMatchingBracket_open eqn (ne + 1) Hc) as [Hd | Hd].
    + right. right. left. rewrite Hd. auto.
    + right. right. right.
      set (de := findMatchingBracket eqn (ne + 1) "{" "}" false None) in *.
      destruct (Z.eqb_spec de (-1)); [lia |].
      repeat split; try lia; try assumption.
      rewrite Hlen. unfold fractionSpec.
      replace (index m + (4 + 2) - 1) with (index m + 5) by lia.
      replace (index m + 5 + 1) with (index m + 6) by lia.
      replace (ne + 1 + 1) with (ne + 2) by lia.
      reflexivity.
Qed.

(** ** Every occurrence of a command is matched *)

(** A backslash cannot stand inside a match that holds one only at its
    start. *)
Lemma backslash_not_inside (mid body w rest : string) :
  (String.length mid <= String.length body)%nat ->
  noBackslash body = true ->
  (mid ++ backslash ++ w)%string = (body ++ rest)%string ->
  (String.length body <= String.length mid)%nat.
Proof.
  revert body. induction mid as [| c mid IH]; intros body Hlen Hnb Heq.
  - destruct body as [| b body]; [simpl; lia |].
    rewrite append_empty_l in Heq. unfold backslash in Heq.
    rewrite !append_cons in Heq. injection Heq as Hb _.
    unfold noBackslash in Hnb. simpl in Hnb. rewrite <- Hb in Hnb. discriminate.
  - destruct body as [| b body]; [simpl in Hlen; lia |].
    rewrite !append_cons in Heq. injection Heq as _ Heq.
    unfold noBackslash in Hnb. simpl in Hnb.
    apply andb_true_iff in Hnb. destruct Hnb as [_ Hnb].
    simpl in Hlen |- *.
    specialize (IH body ltac:(lia) Hnb Heq). lia.
Qed.

(** The scan reaches every occurrence: a match found before it ends at
    or before it. *)
Lemma occurrence_matched_from (r : regex) (tail : string) :
  (forall s p e caps, RegExp.matchAt r s p = Some (e, caps) ->
     exists body rest, s = (backslash ++ body ++ rest)%string
                       /\ noBackslash body = true
                       /\ e = (p + 1 + String.length body)%nat) ->
  (forall post p, exists e caps,
     RegExp.matchAt r (backslash ++ tail ++ post) p = Some (e, caps)) ->
  forall (s text done mid post : string) (skip : nat),
    text = (done ++ s)%string ->
    s = (mid ++ backslash ++ tail ++ post)%string ->
    (skip <= String.length mid)%nat ->
    exists m, In m (RegExp.matchAllFrom r text s (String.length done) skip)
              /\ index m = Z.of_nat (String.length done + String.length mid).
Proof.
  intros Hsound Hcomplete.
  induction s as [| c s IH]; intros text done mid post skip Htext Hs Hskip.
  - destruct mid; discriminate.
  - destruct mid as [| c' mid].
    + (* the occurrence starts here *)
      assert (skip = 0)%nat by (simpl in Hskip; lia). subst skip.
      rewrite append_empty_l in Hs.
      cbn [RegExp.matchAllFrom]. rewrite Hs.
      destruct (Hcomplete post (String.length done)) as (e & caps & ->).
      eexists. split; [left; reflexivity |].
      simpl. f_equal. lia.
    + rewrite append_cons in Hs. injection Hs as <- Hs.
      assert (Hnext : forall skip', (skip' <= String.length mid)%nat ->
                exists m, In m (RegExp.matchAllFrom r text s
                                  (S (String.length done)) skip')
                          /\ index m = Z.of_nat (String.length done
                                                 + String.length (String c mid))).
      { intros skip' Hskip'.
        destruct (IH text (done ++ String c "")%string mid post skip') as (m & Hm & Hi).
        - rewrite Htext, append_assoc. reflexivity.
        - exact Hs.
        - exact Hskip'.
        - rewrite length_append in Hm, Hi. simpl in Hm, Hi.
          rewrite Nat.add_1_r in Hm. exists m. split; [exact Hm |].
          rewrite Hi. simpl. f_equal. lia. }
      destruct skip as [| skip]; cbn [RegExp.matchAllFrom].
      * destruct (RegExp.matchAt r (String c s) (String.length done))
          as [[e caps] |] eqn:E.
        -- destruct (Hsound _ _ _ _ E) as (body & rest & Hbody & Hnb & ->).
           destruct (Hnext (Nat.pred (String.length done + 1 + String.length body
                                      - String.length done))) as (m & Hm & Hi).
           ++ (* the match ends at or before the occurrence *)
              unfold backslash in Hbody. rewrite append_cons, append_empty_l in Hbody.
              injection Hbody as _ Hbody. rewrite Hs in Hbody.
              destruct (Nat.le_gt_cases (String.length body) (String.length mid))
                as [Hle | Hgt]; [lia |].
              pose proof (backslash_not_inside mid body (tail ++ post) rest
                            ltac:(lia) Hnb Hbody). lia.
           ++ exists m. split; [right; exact Hm | exact Hi].
        -- apply Hnext. lia.
      * apply Hnext. simpl in Hskip. lia.
Qed.

Lemma occurrence_matched (r : regex) (tail : string) :
  (forall s p e caps, RegExp.matchAt r s p = Some (e, caps) ->
     exists body rest, s = (backslash ++ body ++ rest)%string
                       /\ noBackslash body = true
                       /\ e = (p + 1 + String.length body)%nat) ->
  (forall post p, exists e caps,
     RegExp.matchAt r (backslash ++ tail ++ post) p = Some (e, caps)) ->
  forall pre post : string,
    exists m, In m (matchAll r (pre ++ backslash ++ tail ++ post))
              /\ index m = jsLength pre.
Proof.
  intros Hsound Hcomplete pre post.
  destruct (occurrence_matched_from r tail Hsound Hcomplete
              (pre ++ backslash ++ tail ++ post) (pre ++ backslash ++ tail ++ post)
              "" pre post 0 eq_refl eq_refl ltac:(lia)) as (m & Hm & Hi).
  exists m. split; [exact Hm |]. rewrite Hi. reflexivity.
Qed.

Lemma noBackslash_append (a b : string) :
  noBackslash a = true -> noBackslash b = true -> noBackslash (a ++ b) = true.
Proof.
  intros Ha Hb. induction a as [| x a IH]; [exact Hb |].
  rewrite append_cons. unfold noBackslash in *. simpl in *.
  apply andb_true_iff in Ha. destruct Ha as [Hx Ha].
  rewrite Hx. simpl. apply IH, Ha.
Qed.

(** An alternation of literals matches when one of its alternatives
    stands at the offset and the continuation accepts it. *)
Lemma rmatch_alternatives_complete {R : Type} (names : list string)
    (name s' : string) (pos : nat) (caps : RegExp.captures)
    (k : string -> nat -> RegExp.captures -> option R) :
  In name names ->
  is_Some (k s' (pos + String.length name)%nat caps) ->
  is_Some (rmatch (alternatives names) (name ++ s') pos caps k).
Proof.
  induction names as [| n names IH]; intros Hin Hk; [contradiction |].
  destruct names as [| n' names].
  - destruct Hin as [-> | []]. simpl.
    rewrite (proj2 (stripPrefix_Some name (name ++ s') s') eq_refl). exact Hk.
  - change (alternatives (n :: n' :: names))
      with (Alt (Lit n) (alternatives (n' :: names))).
    cbn [rmatch].
    destruct (RegExp.stripPrefix n (name ++ s')) as [s1 |] eqn:E.
    + destruct (k s1 (pos + String.length n)%nat caps) as [x |] eqn:Ek; [eauto |].
      destruct Hin as [-> | Hin]; [| apply IH; assumption].
      apply stripPrefix_Some in E.
      assert (s1 = s').
      { clear - E. induction name as [| c name IHn]; [exact (eq_sym E) |].
        rewrite !append_cons in E. injection E as E. auto. }
      subst s1. rewrite Ek in Hk. destruct Hk as [? Hk]. discriminate.
    + destruct Hin as [-> | Hin]; [| apply IH; assumption].
      rewrite (proj2 (stripPrefix_Some name (name ++ s') s') eq_refl) in E.
      discriminate.
Qed.

(** Every occurrence of a command of the expression is matched. *)
Lemma command_occurrence_matched (names : list string) (name pre post : string) :
  names <> [] ->
  Forall (fun n => noBackslash n = true) names ->
  In name names ->
  exists m,
    In m (matchAll
            (Seq (Lit backslash) (Seq (Capture 1 (alternatives names)) (Lit "{")))
            (pre ++ backslash ++ (name ++ "{") ++ post))
    /\ index m = jsLength pre.
Proof.
  intros Hne Hnb Hin. apply occurrence_matched.
  - intros s p e caps H.
    destruct (command_matchAt names s p e caps Hne H)
      as (name' & rest & Hin' & -> & -> & _).
    exists (name' ++ "{")%string, rest. split; [| split].
    + now rewrite !append_assoc.
    + apply noBackslash_append; [| reflexivity].
      rewrite List.Forall_forall in Hnb. apply Hnb, Hin'.
    + rewrite length_append. simpl. lia.
  - intros post' p. unfold RegExp.matchAt. cbn [rmatch].
    rewrite (proj2 (stripPrefix_Some backslash _ _) eq_refl).
    rewrite append_assoc.
    assert (Hs : is_Some
              (rmatch (alternatives names) (name ++ "{" ++ post')
                 (p + String.length backslash)%nat []
                 (fun s' pos' caps' =>
                    rmatch (Lit "{") s' pos'
                      ((1%nat, ((p + String.length backslash)%nat, pos')) :: caps')
                      (fun (_ : string) (e : nat) (caps : RegExp.captures) =>
                         Some (e, caps))))).
    { apply rmatch_alternatives_complete; [exact Hin |].
      cbn [rmatch].
      rewrite (proj2 (stripPrefix_Some "{" ("{" ++ post') post') eq_refl). eauto. }
    destruct Hs as [[e caps] Hs]. exists e, caps. exact Hs.
Qed.

Lemma set_occurrence_matched (pre post : string) :
  exists m, In m (matchAll setRegex (pre ++ backslash ++ "set{" ++ post))
            /\ index m = jsLength pre.
Proof.
  apply occurrence_matched.
  - intros s p e caps H. unfold RegExp.matchAt, setRegex in H. cbn [rmatch] in H.
    destruct (RegExp.stripPrefix _ s) as [rest |] eqn:E; [| discriminate].
    apply stripPrefix_Some in E. injection H as <- _.
    exists "set{"%string, rest. split; [| split].
    + rewrite E, !append_assoc. reflexivity.
    + reflexivity.
    + simpl. lia.
  - intros post' p. unfold RegExp.matchAt, setRegex. cbn [rmatch].
    rewrite <- append_assoc.
    rewrite (proj2 (stripPrefix_Some _ _ _) eq_refl). eauto.
Qed.

Lemma matchers_grouped (maps : ConcealMaps) (eqn : string) (c : Container) :
  In c (concealBraKet eqn) \/ In c (concealSet eqn) \/ In c (concealFraction eqn) ->
  In c (matchers maps eqn).
Proof.
  intros H. unfold matchers.
  do 18 (apply in_or_app; right).
  destruct H as [H | [H | H]].
  - apply in_or_app. left. exact H.
  - apply in_or_app. right. apply in_or_app. left. exact H.
  - apply in_or_app. right. apply in_or_app. right.
    apply in_or_app. left. exact H.
Qed.

(** A fraction whose braces close is emitted wherever it stands in the
    equation. *)
Lemma fraction_emitted_by_matcher (pre post : string) :
  let eqn := (pre ++ backslash ++ "frac{" ++ post)%string in
  let numeratorEnd := findMatchingBracket eqn (jsLength pre) "{" "}" false None in
  let denominatorEnd :=
    findMatchingBracket eqn (numeratorEnd + 1) "{" "}" false None in
  numeratorEnd <> -1 ->
  jsCharAt eqn (numeratorEnd + 1) = "{"%string ->
  denominatorEnd <> -1 ->
  In {| inner := fractionSpec (jsLength pre) numeratorEnd denominatorEnd |}
     (concealFraction eqn).
Proof.
  cbv zeta. intros Hne Hc Hde.
  destruct (command_occurrence_matched ["frac"%string] "frac" pre post
              ltac:(discriminate) ltac:(repeat constructor) ltac:(left; reflexivity))
    as (m & Hm & Hi).
  change (Seq (Lit backslash) (Seq (Capture 1 (alternatives ["frac"%string])) (Lit "{")))
    with fractionRegex in Hm.
  change (pre ++ backslash ++ ("frac" ++ "{") ++ post)%string
    with (pre ++ backslash ++ "frac{" ++ post)%string in Hm.
  destruct (fraction_matches _ m Hm) as [Hcm _].
  unfold concealFraction. apply in_flat_map. exists m. split; [exact Hm |].
  destruct (concealFractionMatch_cases _ m Hcm)
    as [(H1 & _) | [(_ & H2 & _) | [(_ & _ & H3 & _) | (_ & _ & _ & E)]]];
    rewrite Hi in *; try contradiction.
  rewrite E. left. reflexivity.
Qed.

Lemma fraction_emitted (maps : ConcealMaps) (pre post : string) :
  let eqn := (pre ++ backslash ++ "frac{" ++ post)%string in
  let numeratorEnd := findMatchingBracket eqn (jsLength pre) "{" "}" false None in
  let denominatorEnd :=
    findMatchingBracket eqn (numeratorEnd + 1) "{" "}" false None in
  numeratorEnd <> -1 ->
  jsCharAt eqn (numeratorEnd + 1) = "{"%string ->
  denominatorEnd <> -1 ->
  In {| inner := fractionSpec (jsLength pre) numeratorEnd denominatorEnd |}
     (matchers maps eqn).
Proof.
  cbv zeta. intros Hne Hc Hde.
  apply matchers_grouped. right. right.
  apply fraction_emitted_by_matcher; assumption.
Qed.

Lemma set_emitted (maps : ConcealMaps) (pre post : string) :
  let eqn := (pre ++ backslash ++ "set{" ++ post)%string in
  let contentEnd := findMatchingBracket eqn (jsLength pre) "{" "}" false None in
  contentEnd <> -1 ->
  In {| inner := Group [
          plain (jsLength pre) (jsLength pre + 4) "";
          bracket (jsLength pre + 4) (jsLength pre + 5) "{";
          bracket contentEnd (contentEnd + 1) "}" ] |}
     (matchers maps eqn).
Proof.
  cbv zeta. intros Hce.
  destruct (set_occurrence_matched pre post) as (m & Hm & Hi).
  pose proof (set_matches _ m Hm) as Hcm.
  apply matchers_grouped. right. left.
  unfold concealSet. apply in_flat_map. exists m. split; [exact Hm |].
  destruct (concealSetMatch_cases _ m Hcm) as [(H1 & _) | (_ & E)];
    rewrite Hi in *; [contradiction |].
  rewrite E. left. reflexivity.
Qed.

Lemma append_inj_length (a a' b b' : string) :
  (a ++ b)%string = (a' ++ b')%string -> String.length a = String.length a' ->
  a = a' /\ b = b'.
Proof.
  revert a'. induction a as [| c a IH]; intros [| c' a'] Heq Hlen;
    try discriminate.
  - auto.
  - rewrite !append_cons in Heq. injection Heq as -> Heq.
    simpl in Hlen. destruct (IH a' Heq ltac:(lia)) as [-> ->]. auto.
Qed.

Lemma braKet_emitted (maps : ConcealMaps) (name pre post : string) :
  In name ["braket"; "bra"; "ket"]%string ->
  let eqn := (pre ++ backslash ++ (name ++ "{") ++ post)%string in
  let contentEnd := findMatchingBracket eqn (jsLength pre) "{" "}" false None in
  let contentStart := jsLength pre + jsLength name + 1 in
  contentEnd <> -1 ->
  In {| inner := Group [
          plain (jsLength pre) contentStart "";
          bracket contentStart (contentStart + 1)
            (if String.eqb name "ket" then vert else langle);
          bracket contentEnd (contentEnd + 1)
            (if String.eqb name "bra" then vert else rangle) ] |}
     (matchers maps eqn).
Proof.
  intros Hname. cbv zeta. intros Hce.
  destruct (command_occurrence_matched ["braket"; "bra"; "ket"]%string name pre post
              ltac:(discriminate) ltac:(repeat constructor) Hname)
    as (m & Hm & Hi).
  change (Seq (Lit backslash)
            (Seq (Capture 1 (alternatives ["braket"; "bra"; "ket"]%string)) (Lit "{")))
    with braKetRegex in Hm.
  destruct (braKet_matches _ m Hm) as (name' & Hname' & Hcm & Hg).
  assert (Heq : name' = name).
  { destruct Hcm as [(pre' & post' & Htext & Hpre') _].
    apply append_inj_length in Htext; [| unfold jsLength in *; lia].
    destruct Htext as [_ Htext].
    destruct Hname as [<- | [<- | [<- | []]]];
      destruct Hname' as [<- | [<- | [<- | []]]];
      try reflexivity; vm_compute in Htext; discriminate Htext. }
  rewrite Heq in Hcm, Hg. clear Heq Hname'.
  assert (Hnb : noBrace name = true).
  { destruct Hname as [<- | [<- | [<- | []]]]; reflexivity. }
  apply matchers_grouped. left.
  unfold concealBraKet. apply in_flat_map. exists m. split; [exact Hm |].
  destruct (concealBraKetMatch_cases _ m name Hcm Hnb) as [(H1 & _) | (_ & E)];
    rewrite Hi, ?Hg in *; [contradiction |].
  rewrite E. left. reflexivity.
Qed.

(** ** A fraction with brace-free numerator and denominator *)

Lemma findMatchingBracketLoop_close (n : nat) (a rest : string) :
  findMatchingBracketLoop (S n) (a ++ String "}" rest) (jsLength a) "{" "}" 1 =
  jsLength a.
Proof.
  cbn [findMatchingBracketLoop].
  change (jsLength "{") with 1. change (jsLength "}") with 1.
  rewrite jsSlice_unit. reflexivity.
Qed.

(** After brace-free text [v], a group with brace-free content [u] closes
    at the brace that follows [u]. *)
Lemma findMatchingBracket_simple_group (a v u rest : string) :
  noBrace v = true -> noBrace u = true ->
  findMatchingBracket (a ++ v ++ "{" ++ u ++ "}" ++ rest) (jsLength a)
    "{" "}" false None
  = jsLength a + jsLength v + 1 + jsLength u.
Proof.
  intros Hv Hu. unfold findMatchingBracket, findMatchingBracketForward.
  set (text := (a ++ v ++ "{" ++ u ++ "}" ++ rest)%string).
  assert (Hlen : jsLength text
                 = jsLength a + jsLength v + 1 + jsLength u + 1 + jsLength rest).
  { unfold text. rewrite !jsLength_append.
    change (jsLength "{") with 1. change (jsLength "}") with 1. lia. }
  rewrite Hlen.
  replace (Z.to_nat (jsLength a + jsLength v + 1 + jsLength u + 1 + jsLength rest
                     - jsLength a))
    with (String.length v + S (String.length u + S (String.length rest)))%nat
    by (unfold jsLength; lia).
  unfold text.
  rewrite findMatchingBracketLoop_skip by exact Hv.
  replace (a ++ v ++ "{" ++ u ++ "}" ++ rest)%string
    with ((a ++ v) ++ String "{" (u ++ "}" ++ rest))%string
    by (rewrite append_assoc; reflexivity).
  rewrite <- jsLength_append.
  rewrite findMatchingBracketLoop_open.
  replace ((a ++ v) ++ String "{" (u ++ "}" ++ rest))%string
    with (((a ++ v) ++ "{") ++ u ++ String "}" rest)%string
    by (rewrite (append_assoc (a ++ v)); reflexivity).
  replace (jsLength (a ++ v) + 1) with (jsLength ((a ++ v) ++ "{"))
    by (rewrite (jsLength_append (a ++ v)); reflexivity).
  rewrite findMatchingBracketLoop_skip by exact Hu.
  rewrite <- append_assoc, <- jsLength_append.
  rewrite findMatchingBracketLoop_close.
  rewrite !jsLength_append. change (jsLength "{") with 1. lia.
Qed.

Lemma jsSlice_middle (p w q : string) :
  jsSlice (p ++ w ++ q) (jsLength p) (jsLength p + jsLength w) = w.
Proof.
  unfold jsSlice. rewrite !jsLength_append.
  pose proof (jsLength_nonneg p). pose proof (jsLength_nonneg w).
  pose proof (jsLength_nonneg q).
  destruct (Z.ltb_spec (jsLength p) 0); [lia |].
  destruct (Z.ltb_spec (jsLength p + jsLength w) 0); [lia |].
  replace (Z.min (jsLength p) (jsLength p + (jsLength w + jsLength q)))
    with (jsLength p) by lia.
  replace (Z.min (jsLength p + jsLength w) (jsLength p + (jsLength w + jsLength q)))
    with (jsLength p + jsLength w) by lia.
  replace (Z.max (jsLength p + jsLength w - jsLength p) 0) with (jsLength w) by lia.
  unfold jsLength. rewrite !Nat2Z.id. apply substring_middle.
Qed.

Lemma jsSlice_prefix (p q : string) : jsSlice (p ++ q) 0 (jsLength p) = p.
Proof.
  pose proof (jsSlice_middle "" p q) as H.
  rewrite append_empty_l in H. exact H.
Qed.

Lemma jsSlice_suffix (p q : string) :
  jsSlice (p ++ q) (jsLength p) (jsLength (p ++ q)) = q.
Proof.
  pose proof (jsSlice_middle p q "") as H.
  rewrite append_empty_r, <- jsLength_append in H. exact H.
Qed.

(** The offsets that the bracket matcher finds in a fraction with
    brace-free numerator [num] and denominator [den]. *)
Lemma simple_fraction_brackets (pre num den post : string) :
  noBrace num = true -> noBrace den = true ->
  let eqn := (pre ++ backslash ++ "frac{" ++ num ++ "}{" ++ den ++ "}" ++ post)%string in
  let numeratorEnd := jsLength pre + 6 + jsLength num in
  let denominatorEnd := numeratorEnd + 2 + jsLength den in
  findMatchingBracket eqn (jsLength pre) "{" "}" false None = numeratorEnd
  /\ jsCharAt eqn (numeratorEnd + 1) = "{"%string
  /\ findMatchingBracket eqn (numeratorEnd + 1) "{" "}" false None = denominatorEnd
  /\ jsLength eqn = denominatorEnd + 1 + jsLength post.
Proof.
  intros Hnum Hden. cbv zeta.
  set (eqn := (pre ++ backslash ++ "frac{" ++ num ++ "}{" ++ den ++ "}" ++ post)%string).
  set (head := (pre ++ backslash ++ "frac{" ++ num ++ "}")%string).
  assert (E1 : eqn = (pre ++ (backslash ++ "frac") ++ "{" ++ num ++ "}"
                      ++ ("{" ++ den ++ "}" ++ post))%string).
  { unfold eqn. rewrite !append_assoc. reflexivity. }
  assert (E2 : eqn = (head ++ "" ++ "{" ++ den ++ "}" ++ post)%string).
  { unfold eqn, head. rewrite !append_assoc. reflexivity. }
  assert (Hhead : jsLength head = jsLength pre + 6 + jsLength num + 1).
  { unfold head. rewrite !jsLength_append.
    change (jsLength backslash) with 1. change (jsLength "frac{") with 5.
    change (jsLength "}") with 1. lia. }
  split; [| split; [| split]].
  - rewrite E1, findMatchingBracket_simple_group by (exact Hnum || reflexivity).
    change (jsLength (backslash ++ "frac")) with 5. lia.
  - replace (jsLength pre + 6 + jsLength num + 1) with (jsLength head)
      by (rewrite Hhead; reflexivity).
    rewrite E2. rewrite append_empty_l.
    apply (jsCharAt_unit head (den ++ "}" ++ post) "{").
  - replace (jsLength pre + 6 + jsLength num + 1) with (jsLength head)
      by (rewrite Hhead; reflexivity).
    rewrite E2, findMatchingBracket_simple_group by (exact Hden || reflexivity).
    change (jsLength "") with 0. lia.
  - rewrite E2, !jsLength_append, Hhead.
    change (jsLength "") with 0. change (jsLength "{") with 1.
    change (jsLength "}") with 1. lia.
Qed.

(** The text with the replacements of a fraction applied. *)
Lemma rendered_fractionSpec (eqn : string) (commandStart numeratorEnd denominatorEnd : Z) :
  rendered eqn (fractionSpec commandStart numeratorEnd denominatorEnd) =
  (jsSlice eqn 0 commandStart
   ++ "(" ++ jsSlice eqn (commandStart + 6) numeratorEnd ++ ")"
   ++ "/"
   ++ "(" ++ jsSlice eqn (numeratorEnd + 2) denominatorEnd ++ ")"
   ++ jsSlice eqn (denominatorEnd + 1) (jsLength eqn))%string.
Proof.
  unfold rendered, fractionSpec, plain, bracket.
  cbn [replacements flat_map app renderFrom start end_ replacement].
  rewrite !jsSlice_empty, !append_empty_l. reflexivity.
Qed.

Lemma simple_fraction_rendered (pre num den post : string) :
  noBrace num = true -> noBrace den = true ->
  let eqn := (pre ++ backslash ++ "frac{" ++ num ++ "}{" ++ den ++ "}" ++ post)%string in
  let numeratorEnd := jsLength pre + 6 + jsLength num in
  let denominatorEnd := numeratorEnd + 2 + jsLength den in
  rendered eqn (fractionSpec (jsLength pre) numeratorEnd denominatorEnd)
  = (pre ++ "(" ++ num ++ ")/(" ++ den ++ ")" ++ post)%string.
Proof.
  intros Hnum Hden. cbv zeta.
  destruct (simple_fraction_brackets pre num den post Hnum Hden)
    as (_ & _ & _ & Hlen). cbv zeta in Hlen.
  rewrite rendered_fractionSpec.
  set (eqn := (pre ++ backslash ++ "frac{" ++ num ++ "}{" ++ den ++ "}" ++ post)%string)
    in *.
  assert (S1 : jsSlice eqn 0 (jsLength pre) = pre).
  { unfold eqn. apply jsSlice_prefix. }
  assert (S2 : jsSlice eqn (jsLength pre + 6) (jsLength pre + 6 + jsLength num) = num).
  { replace eqn with ((pre ++ backslash ++ "frac{") ++ num
                      ++ ("}{" ++ den ++ "}" ++ post))%string
      by (unfold eqn; rewrite !append_assoc; reflexivity).
    replace (jsLength pre + 6) with (jsLength (pre ++ backslash ++ "frac{"))
      by (rewrite !jsLength_append; reflexivity).
    apply jsSlice_middle. }
  assert (S3 : jsSlice eqn (jsLength pre + 6 + jsLength num + 2)
                 (jsLength pre + 6 + jsLength num + 2 + jsLength den) = den).
  { replace eqn with ((pre ++ backslash ++ "frac{" ++ num ++ "}{") ++ den
                      ++ ("}" ++ post))%string
      by (unfold eqn; rewrite !append_assoc; reflexivity).
    replace (jsLength pre + 6 + jsLength num + 2)
      with (jsLength (pre ++ backslash ++ "frac{" ++ num ++ "}{"))
      by (rewrite !jsLength_append;
          change (jsLength backslash) with 1; change (jsLength "frac{") with 5;
          change (jsLength "}{") with 2; lia).
    apply jsSlice_middle. }
  assert (S4 : jsSlice eqn (jsLength pre + 6 + jsLength num + 2 + jsLength den + 1)
                 (jsLength eqn) = post).
  { replace (jsLength pre + 6 + jsLength num + 2 + jsLength den + 1)
      with (jsLength (pre ++ backslash ++ "frac{" ++ num ++ "}{" ++ den ++ "}"))
      by (rewrite !jsLength_append;
          change (jsLength backslash) with 1; change (jsLength "frac{") with 5;
          change (jsLength "}{") with 2; change (jsLength "}") with 1; lia).
    replace eqn with ((pre ++ backslash ++ "frac{" ++ num ++ "}{" ++ den ++ "}")
                      ++ post)%string
      by (unfold eqn; rewrite !append_assoc; reflexivity).
    apply jsSlice_suffix. }
  rewrite S1, S2, S3, S4. reflexivity.
Qed.

(** ** Trailing limits *)

Lemma getEndIncludingLimits_cases (eqn : string) (e : Z) :
  limitsExtended eqn e (getEndIncludingLimits eqn e).
Proof.
  unfold limitsExtended, getEndIncludingLimits, standsAt.
  destruct (String.eqb_spec (jsSubstring eqn e (e + jsLength LIMITS)) LIMITS)
    as [Heq | Hne]; split.
  - reflexivity.
  - intros Hn. exfalso. apply Hn.
    apply jsSubstring_split in Heq; [exact Heq | discriminate].
  - intros (pre & post & -> & <-). exfalso. apply Hne.
    apply jsSubstring_middle.
  - reflexivity.
Qed.

Lemma getEndIncludingLimits_ge (eqn : string) (e : Z) :
  e <= getEndIncludingLimits eqn e.
Proof.
  unfold getEndIncludingLimits. destruct (String.eqb _ _); [| lia].
  change (jsLength LIMITS) with 7. lia.
Qed.

(** C9: the end offset computed for a match that ends at [e] is [e] plus
    the length of the continuation when the continuation stands at [e]
    in the equation text, and [e] otherwise; every match of an operator
    yields one replacement that starts at the match and whose end is
    computed so from the end of the operator, and every match of a
    symbol that is kept yields one whose end is computed so from the end
    of the match. *)
Theorem trailing_limits_extension (eqn : string) :
  (forall e, limitsExtended eqn e (getEndIncludingLimits eqn e))
  /\ (forall symbols,
        Forall2 (fun (m : Match) (c : Container) =>
                   exists r, inner c = Single r /\ start r = index m
                     /\ limitsExtended eqn (index m + jsLength (group m 1))
                          (end_ r))
          (matchAll (operatorsRegex symbols) eqn)
          (concealOperators eqn symbols))
  /\ (forall prefix suffix symbolMap className allowSucceedingLetters,
        Forall2 (fun (m : Match) (c : Container) =>
                   exists r, inner c = Single r /\ start r = index m
                     /\ limitsExtended eqn (index m + jsLength (group m 0))
                          (end_ r))
          (List.filter (fun m : Match =>
                     negb (negb allowSucceedingLetters
                           && hasLetter (jsCharAt eqn
                                           (index m + jsLength (group m 0)))))
             (matchAll (symbolsRegex prefix suffix (keys symbolMap)) eqn))
          (concealSymbols eqn prefix suffix symbolMap className
             allowSucceedingLetters)).
Proof.
  split; [| split].
  - intros e. apply getEndIncludingLimits_cases.
  - intros symbols. unfold concealOperators.
    induction (matchAll (operatorsRegex symbols) eqn) as [| m ms IH]; simpl;
      constructor; [| exact IH].
    eexists. split; [reflexivity |]. split; [reflexivity |].
    apply getEndIncludingLimits_cases.
  - intros prefix suffix symbolMap className allow. unfold concealSymbols.
    induction (matchAll (symbolsRegex prefix suffix (keys symbolMap)) eqn)
      as [| m ms IH]; [constructor |].
    cbn [flat_map List.filter].
    destruct (negb allow && hasLetter (jsCharAt eqn (index m + jsLength (group m 0))));
      cbn [negb app]; [exact IH |].
    constructor; [| exact IH].
    eexists. split; [reflexivity |]. split; [reflexivity |].
    apply getEndIncludingLimits_cases.
Qed.

(** C9 at a sum with limits: the continuation stands at offset 4 and the
    end becomes 11. *)
Lemma trailing_limits_extension_witness :
  standsAt "\sum\limits_{i}" 4 LIMITS
  /\ getEndIncludingLimits "\sum\limits_{i}" 4 = 11.
Proof.
  assert (Hs : standsAt "\sum\limits_{i}" 4 LIMITS).
  { exists "\sum"%string, "_{i}"%string. split; reflexivity. }
  split; [exact Hs |].
  exact (proj1 (proj1 (trailing_limits_extension "\sum\limits_{i}") 4) Hs).
Defined.

Example sample_limits :
  map (fun c : Container => map (fun r => (start r, end_ r)) (replacements (inner c)))
    (concealOperators "\sum\limits_{i} \sin x" ["sum"; "sin"]%string)
  = [[(0, 11)]; [(16, 20)]].
Proof.
  vm_compute. reflexivity.
Qed.

(** ** Fractions *)

(** C6: on the text of the scenario the fraction matcher emits exactly
    one conceal spec, which hides the command, replaces the braces of
    the numerator and of the denominator by parentheses and inserts a
    zero-width slash, and the rendered text reads (a)/(b). For every
    match of the command in any equation text: when the numerator's
    closing brace is found and the next unit is not an opening brace,
    nothing is emitted for the match; when it is an opening brace and
    the denominator's closing brace is found, exactly that conceal spec
    is emitted, and the rendered text is the text before the command,
    the numerator and the denominator in parentheses with a slash in
    between, and the text after the denominator. For every text that
    contains a fraction with brace-free numerator and denominator, the
    conceal spec of that fraction is emitted and the rendered text has
    the fraction replaced by the two parts in parentheses around a
    slash. *)
Theorem concealFraction_scenario :
  concealFraction "\frac{a}{b}" = [{| inner := fractionSpec 0 7 10 |}]
  /\ replacements (fractionSpec 0 7 10) =
     [ {| start := 0; end_ := 5; replacement := ""; class := None;
          elementType := None |};
       {| start := 5; end_ := 6; replacement := "("; class := Some "cm-bracket";
          elementType := None |};
       {| start := 7; end_ := 8; replacement := ")"; class := Some "cm-bracket";
          elementType := None |};
       {| start := 8; end_ := 8; replacement := "/"; class := Some "cm-bracket";
          elementType := None |};
       {| start := 8; end_ := 9; replacement := "("; class := Some "cm-bracket";
          elementType := None |};
       {| start := 10; end_ := 11; replacement := ")"; class := Some "cm-bracket";
          elementType := None |} ]
  /\ rendered "\frac{a}{b}" (fractionSpec 0 7 10) = "(a)/(b)"%string
  /\ concealFraction "\frac{a} {b}" = []
  /\ (forall (eqn : string) (m : Match),
        In m (matchAll fractionRegex eqn) ->
        let numeratorEnd := findMatchingBracket eqn (index m) "{" "}" false None in
        let denominatorEnd :=
          findMatchingBracket eqn (numeratorEnd + 1) "{" "}" false None in
        standsAt eqn (index m) (backslash ++ "frac{")
        /\ (numeratorEnd <> -1 ->
            jsCharAt eqn (numeratorEnd + 1) <> "{"%string ->
            concealFractionMatch eqn m = [])
        /\ (numeratorEnd <> -1 ->
            jsCharAt eqn (numeratorEnd + 1) = "{"%string ->
            denominatorEnd <> -1 ->
            concealFractionMatch eqn m =
              [{| inner := fractionSpec (index m) numeratorEnd denominatorEnd |}]
            /\ index m + 6 <= numeratorEnd
            /\ numeratorEnd + 2 <= denominatorEnd < jsLength eqn
            /\ rendered eqn (fractionSpec (index m) numeratorEnd denominatorEnd) =
               (jsSlice eqn 0 (index m)
                ++ "(" ++ jsSlice eqn (index m + 6) numeratorEnd ++ ")"
                ++ "/"
                ++ "(" ++ jsSlice eqn (numeratorEnd + 2) denominatorEnd ++ ")"
                ++ jsSlice eqn (denominatorEnd + 1) (jsLength eqn))%string))
  /\ (forall pre num den post : string,
        noBrace num = true -> noBrace den = true ->
        let eqn :=
          (pre ++ backslash ++ "frac{" ++ num ++ "}{" ++ den ++ "}" ++ post)%string in
        let numeratorEnd := jsLength pre + 6 + jsLength num in
        let denominatorEnd := numeratorEnd + 2 + jsLength den in
        In {| inner := fractionSpec (jsLength pre) numeratorEnd denominatorEnd |}
           (concealFraction eqn)
        /\ rendered eqn (fractionSpec (jsLength pre) numeratorEnd denominatorEnd)
           = (pre ++ "(" ++ num ++ ")/(" ++ den ++ ")" ++ post)%string).
Proof.
  split; [vm_compute; reflexivity |].
  split; [reflexivity |].
  split; [vm_compute; reflexivity |].
  split; [vm_compute; reflexivity |].
  split.
  - intros eqn m Hin. cbv zeta.
    destruct (fraction_matches eqn m Hin) as [Hm _].
    split; [exact (proj1 Hm) |].
    destruct (concealFractionMatch_cases eqn m Hm)
      as [(H1 & E) | [(H1 & H2 & E) | [(H1 & H2 & H3 & E) | (H1 & H2 & H3 & E)]]].
    + split; intros; congruence.
    + split; intros; [exact E | congruence].
    + split; intros; [exact E | congruence].
    + split; [intros; congruence |]. intros _ _ _.
      split; [exact E |]. split; [exact H1 |]. split; [exact H3 |].
      apply rendered_fractionSpec.
  - (* a fraction with brace-free parts, anywhere in the text *)
    intros pre num den post Hnum Hden. cbv zeta.
    destruct (simple_fraction_brackets pre num den post Hnum Hden)
      as (Hne & Hc & Hde & _).
    split; [| apply simple_fraction_rendered; assumption].
    pose proof (fraction_emitted_by_matcher pre
                  (num ++ "}{" ++ den ++ "}" ++ post)) as H.
    cbv zeta in H. rewrite Hne in H. rewrite Hde in H.
    pose proof (jsLength_nonneg pre). pose proof (jsLength_nonneg num).
    pose proof (jsLength_nonneg den).
    apply H; [lia | exact Hc | lia].
Qed.

(** C6 at a fraction that stands inside a longer equation. *)
Lemma concealFraction_scenario_witness :
  In (fracMatch 2) (matchAll fractionRegex fracEqn)
  /\ concealFractionMatch fracEqn (fracMatch 2) = [{| inner := fractionSpec 2 11 15 |}]
  /\ (noBrace "x+1" = true /\ noBrace "2y" = true)
  /\ In {| inner := fractionSpec 2 11 15 |} (concealFraction fracEqn)
  /\ rendered fracEqn (fractionSpec 2 11 15) = "z=(x+1)/(2y)"%string.
Proof.
  assert (Hin : In (fracMatch 2) (matchAll fractionRegex fracEqn)).
  { vm_compute. left. reflexivity. }
  split; [exact Hin |].
  destruct concealFraction_scenario as (_ & _ & _ & _ & H & G).
  specialize (H fracEqn (fracMatch 2) Hin). cbv zeta in H.
  destruct H as (_ & _ & H).
  assert (Hne : findMatchingBracket fracEqn (index (fracMatch 2)) "{" "}" false None = 11)
    by (vm_compute; reflexivity).
  assert (Hde : findMatchingBracket fracEqn (11 + 1) "{" "}" false None = 15)
    by (vm_compute; reflexivity).
  rewrite Hne in H. rewrite Hde in H.
  destruct (H ltac:(discriminate) ltac:(vm_compute; reflexivity) ltac:(discriminate))
    as (E & _ & _ & _).
  split; [exact E |].
  assert (Hnum : noBrace "x+1" = true) by reflexivity.
  assert (Hden : noBrace "2y" = true) by reflexivity.
  split; [split; assumption |].
  exact (G "z="%string "x+1"%string "2y"%string ""%string Hnum Hden).
Defined.

(** ** Order of the member replacements *)

Lemma replacements_mapReplacements (f : Replacement -> Replacement)
    (s : ConcealSpec) :
  replacements (mapReplacements f s) = map f (replacements s).
Proof.
  induction s as [r | l IH] using ConcealSpec_nested_ind; simpl; [reflexivity |].
  induction IH as [| x l Hx _ IHl]; simpl; [reflexivity |].
  rewrite map_app, Hx, IHl. reflexivity.
Qed.

Lemma chained_weaken (lo lo' : Z) (l : list Replacement) :
  lo' <= lo -> chained lo l -> chained lo' l.
Proof.
  destruct l as [| r l]; simpl; [auto |]. intros H (H1 & H2 & H3).
  repeat split; [lia | assumption | assumption].
Qed.

Lemma chained_shift (d lo : Z) (l : list Replacement) :
  chained lo l -> chained (lo + d) (map (shiftReplacement d) l).
Proof.
  revert lo. induction l as [| r l IH]; intros lo; simpl; [auto |].
  intros (H1 & H2 & H3). repeat split; [lia | lia | apply IH, H3].
Qed.

Lemma chained_bounds (lo : Z) (l : list Replacement) (r : Replacement) :
  chained lo l -> In r l -> lo <= start r /\ start r <= end_ r.
Proof.
  revert lo. induction l as [| x l IH]; intros lo Hc Hin; [contradiction |].
  destruct Hc as (H1 & H2 & H3). destruct Hin as [<- | Hin]; [auto |].
  destruct (IH _ H3 Hin). lia.
Qed.

Lemma chained_pairs (lo : Z) (l : list Replacement) (i j : nat)
    (a b : Replacement) :
  chained lo l -> (i < j)%nat -> l !! i = Some a -> l !! j = Some b ->
  start a <= end_ a /\ end_ a <= start b /\ start b <= end_ b.
Proof.
  revert lo i j. induction l as [| x l IH]; intros lo i j Hc Hij Ha Hb;
    [discriminate |].
  destruct Hc as (H1 & H2 & H3).
  destruct j as [| j]; [lia |]. simpl in Hb.
  destruct i as [| i]; simpl in Ha.
  - injection Ha as ->.
    assert (Hin : In b l) by (apply list_elem_of_In, list_elem_of_lookup; eauto).
    destruct (chained_bounds _ _ _ H3 Hin). lia.
  - apply (IH (end_ x) i j); auto. lia.
Qed.

Lemma chained_ordered (lo : Z) (l : list Replacement) :
  chained lo l ->
  Forall (fun r => start r <= end_ r) l /\ sortedByStart l /\ noOverlap l.
Proof.
  intros Hc. split; [| split].
  - apply Forall_forall. intros r Hr. apply list_elem_of_In in Hr.
    apply (chained_bounds lo l r Hc Hr).
  - intros i j a b Hij Ha Hb.
    destruct (chained_pairs lo l i j a b Hc Hij Ha Hb). lia.
  - intros i j a b Hij Ha Hb (x & Hxa & Hxb).
    destruct (Nat.lt_total i j) as [Hlt | [Heq | Hgt]]; [| contradiction |].
    + destruct (chained_pairs lo l i j a b Hc Hlt Ha Hb). lia.
    + destruct (chained_pairs lo l j i b a Hc Hgt Hb Ha). lia.
Qed.

Lemma orderedSingle_single (s e : Z) (rep : string) (cl et : option string) :
  s <= e -> orderedSingle (single s e rep cl et).
Proof.
  intros H. eexists. split; [reflexivity | exact H].
Qed.

Local Ltac ordered_single :=
  apply orderedSingle_single;
  repeat match goal with
         | |- context [jsLength ?s] =>
             lazymatch goal with
             | _ : 0 <= jsLength s |- _ => fail
             | _ => pose proof (jsLength_nonneg s)
             end
         | |- context [getEndIncludingLimits ?eqn ?e] =>
             lazymatch goal with
             | _ : e <= getEndIncludingLimits eqn e |- _ => fail
             | _ => pose proof (getEndIncludingLimits_ge eqn e)
             end
         end;
  lia.

Lemma concealSymbols_ordered eqn prefix suffix symbolMap className allow :
  Forall orderedSingle (concealSymbols eqn prefix suffix symbolMap className allow).
Proof.
  apply List.Forall_forall. intros c Hc. unfold concealSymbols in Hc.
  apply in_flat_map in Hc. destruct Hc as (m & _ & Hc).
  destruct (negb allow && _); [contradiction |].
  destruct Hc as [<- | []]. ordered_single.
Qed.

Lemma concealModifier_ordered eqn modifier combiningCharacter :
  Forall orderedSingle (concealModifier eqn modifier combiningCharacter).
Proof.
  apply List.Forall_forall. intros c Hc. unfold concealModifier in Hc.
  apply in_map_iff in Hc. destruct Hc as (m & <- & _). ordered_single.
Qed.

Lemma concealSupSub_ordered eqn superscript symbolMap :
  Forall orderedSingle (concealSupSub eqn superscript symbolMap).
Proof.
  apply List.Forall_forall. intros c Hc. unfold concealSupSub in Hc.
  apply in_map_iff in Hc. destruct Hc as (m & <- & _). ordered_single.
Qed.

Lemma concealModified_A_to_Z_0_to_9_ordered eqn mathBBsymbolMap :
  Forall orderedSingle (concealModified_A_to_Z_0_to_9 eqn mathBBsymbolMap).
Proof.
  apply List.Forall_forall. intros c Hc. unfold concealModified_A_to_Z_0_to_9 in Hc.
  apply in_flat_map in Hc. destruct Hc as (m & _ & Hc).
  repeat match type of Hc with
         | In _ (if ?b then _ else _) => destruct b
         | In _ [] => contradiction
         | In _ [_] => destruct Hc as [<- | []]
         end; ordered_single.
Qed.

Lemma concealModifiedGreekLetters_ordered eqn greekSymbolMap :
  Forall orderedSingle (concealModifiedGreekLetters eqn greekSymbolMap).
Proof.
  apply List.Forall_forall. intros c Hc. unfold concealModifiedGreekLetters in Hc.
  apply in_flat_map in Hc. destruct Hc as (m & _ & Hc).
  repeat match type of Hc with
         | In _ (if ?b then _ else _) => destruct b
         | In _ [] => contradiction
         | In _ [_] => destruct Hc as [<- | []]
         end; ordered_single.
Qed.

Lemma concealText_ordered eqn : Forall orderedSingle (concealText eqn).
Proof.
  apply List.Forall_forall. intros c Hc. unfold concealText in Hc.
  apply in_map_iff in Hc. destruct Hc as (m & <- & _). ordered_single.
Qed.

Lemma concealOperators_ordered eqn symbols :
  Forall orderedSingle (concealOperators eqn symbols).
Proof.
  apply List.Forall_forall. intros c Hc. unfold concealOperators in Hc.
  apply in_map_iff in Hc. destruct Hc as (m & <- & _). ordered_single.
Qed.

Lemma concealAtoZ_ordered eqn prefix suffix symbolMap className :
  Forall orderedSingle (concealAtoZ eqn prefix suffix symbolMap className).
Proof.
  apply List.Forall_forall. intros c Hc. unfold concealAtoZ in Hc.
  apply in_map_iff in Hc. destruct Hc as (m & <- & _). ordered_single.
Qed.

Lemma orderedSingle_orderedSpec (c : Container) :
  orderedSingle c -> orderedSpec (inner c).
Proof.
  intros (r & -> & H). split.
  - exists (start r). simpl. repeat split; [lia | exact H].
  - simpl. intros; lia.
Qed.

Local Ltac ordered_group :=
  split;
  [ eexists; cbn [replacements flat_map app plain bracket chained start end_];
    repeat split; try lia; apply Z.le_refl
  | cbn [replacements flat_map app plain bracket];
    intros r Hr _ Hz;
    repeat (destruct Hr as [<- | Hr]; [cbn [start end_ replacement] in *;
                                       first [reflexivity | lia] |]);
    contradiction ].

Lemma concealBraKet_ordered (eqn : string) (c : Container) :
  In c (concealBraKet eqn) -> orderedSpec (inner c).
Proof.
  intros Hc. unfold concealBraKet in Hc. apply in_flat_map in Hc.
  destruct Hc as (m & Hm & Hc).
  destruct (braKet_matches eqn m Hm) as (name & Hname & Hcm & _).
  assert (Hnb : noBrace name = true).
  { destruct Hname as [<- | [<- | [<- | []]]]; reflexivity. }
  pose proof (jsLength_nonneg name).
  destruct (commandMatch_length eqn m name Hcm) as [_ Hidx].
  destruct (concealBraKetMatch_cases eqn m name Hcm Hnb) as [[_ E] | [Hb E]];
    rewrite E in Hc; [contradiction |].
  destruct Hc as [<- | []]. cbn [inner]. ordered_group.
Qed.

Lemma concealSet_ordered (eqn : string) (c : Container) :
  In c (concealSet eqn) -> orderedSpec (inner c).
Proof.
  intros Hc. unfold concealSet in Hc. apply in_flat_map in Hc.
  destruct Hc as (m & Hm & Hc).
  pose proof (set_matches eqn m Hm) as Hcm.
  destruct (commandMatch_length eqn m _ Hcm) as [_ Hidx].
  destruct (concealSetMatch_cases eqn m Hcm) as [[_ E] | [Hb E]];
    rewrite E in Hc; [contradiction |].
  destruct Hc as [<- | []]. cbn [inner]. ordered_group.
Qed.

Lemma concealFraction_ordered (eqn : string) (c : Container) :
  In c (concealFraction eqn) -> orderedSpec (inner c).
Proof.
  intros Hc. unfold concealFraction in Hc. apply in_flat_map in Hc.
  destruct Hc as (m & Hm & Hc).
  destruct (fraction_matches eqn m Hm) as [Hcm _].
  destruct (commandMatch_length eqn m _ Hcm) as [_ Hidx].
  destruct (concealFractionMatch_cases eqn m Hcm)
    as [(_ & E) | [(_ & _ & E) | [(_ & _ & _ & E) | (H1 & H2 & H3 & E)]]];
    rewrite E in Hc; try contradiction.
  destruct Hc as [<- | []]. cbn [inner]. unfold fractionSpec. ordered_group.
Qed.

Lemma matchers_ordered (maps : ConcealMaps) (eqn : string) (c : Container) :
  In c (matchers maps eqn) -> orderedSpec (inner c).
Proof.
  unfold matchers. intros H.
  repeat (apply in_app_or in H; destruct H as [H | H]);
    try (apply orderedSingle_orderedSpec;
         revert c H; apply List.Forall_forall;
         first [ apply concealSymbols_ordered | apply concealSupSub_ordered
               | apply concealModifier_ordered | apply concealAtoZ_ordered
               | apply concealModifiedGreekLetters_ordered
               | apply concealModified_A_to_Z_0_to_9_ordered
               | apply concealText_ordered | apply concealOperators_ordered ]).
  - now apply concealBraKet_ordered in H.
  - now apply concealSet_ordered in H.
  - now apply concealFraction_ordered in H.
Qed.

(** C7: in every conceal spec that the scanner emits, each member
    replacement has its start at or before its end, the members are
    sorted by start, no two members overlap, and a member of a group with
    start equal to end is the inserted separator. *)
Theorem scanner_members_sorted_disjoint (maps : ConcealMaps)
    (equations : list Equation) (c : Container) :
  In c (conceal maps equations) ->
  Forall (fun r => start r <= end_ r) (replacements (inner c))
  /\ sortedByStart (replacements (inner c))
  /\ noOverlap (replacements (inner c))
  /\ (forall r, In r (replacements (inner c)) ->
        (1 < length (replacements (inner c)))%nat ->
        start r = end_ r -> replacement r = "/"%string).
Proof.
  intros Hc. unfold conceal in Hc. apply in_flat_map in Hc.
  destruct Hc as (e & _ & Hc). unfold concealEquation in Hc.
  apply in_map_iff in Hc. destruct Hc as (c0 & <- & Hc0).
  apply matchers_ordered in Hc0. destruct Hc0 as [[lo Hch] Hz].
  cbn [inner]. rewrite replacements_mapReplacements.
  apply (chained_shift (boundsStart e)) in Hch.
  destruct (chained_ordered _ _ Hch) as (H1 & H2 & H3).
  repeat split; try assumption.
  intros r Hr Hlen Heq. apply in_map_iff in Hr.
  destruct Hr as (r0 & <- & Hr0). rewrite length_map in Hlen.
  simpl in Heq |- *. apply (Hz r0 Hr0 Hlen). lia.
Qed.

(** C7 at the conceal spec of a fraction, in document offsets. *)
Lemma scanner_members_sorted_disjoint_witness :
  let c := {| inner := mapReplacements (shiftReplacement 1) (fractionSpec 2 11 15) |} in
  let equations := [{| boundsStart := 1; text := fracEqn |}] in
  In c (conceal sampleMaps equations)
  /\ Forall (fun r => start r <= end_ r) (replacements (inner c))
  /\ sortedByStart (replacements (inner c))
  /\ noOverlap (replacements (inner c)).
Proof.
  intros c equations.
  assert (Hin : In c (conceal sampleMaps equations)).
  { vm_compute. left. reflexivity. }
  split; [exact Hin |].
  destruct (scanner_members_sorted_disjoint sampleMaps equations c Hin)
    as (H1 & H2 & H3 & _).
  auto.
Defined.

(** ** Unterminated constructs *)

(** C8: the matchers of the grouped constructs are total functions of
    the equation text. For a match whose closing brace is not found (the
    bracket matcher returns -1, for the numerator or for the denominator
    of a fraction) nothing is emitted; whatever is emitted for a match is
    one complete group of three (bra-ket, set) or six (fraction) member
    replacements; the result for the equation collects what each match
    of the command yields; and every occurrence of a command in the
    equation whose closing braces are found is emitted by the scanner,
    whatever stands before or after it. *)
Theorem unterminated_constructs_skipped (maps : ConcealMaps) (eqn : string) :
  (forall m,
     findMatchingBracket eqn (index m) "{" "}" false None = -1 ->
     concealBraKetMatch eqn m = [] /\ concealSetMatch eqn m = []
     /\ concealFractionMatch eqn m = [])
  /\ (forall m,
        findMatchingBracket eqn
          (findMatchingBracket eqn (index m) "{" "}" false None + 1)
          "{" "}" false None = -1 ->
        concealFractionMatch eqn m = [])
  /\ (forall m c,
        (In c (concealBraKetMatch eqn m) ->
         concealBraKetMatch eqn m = [c]
         /\ findMatchingBracket eqn (index m) "{" "}" false None <> -1
         /\ length (replacements (inner c)) = 3%nat)
        /\ (In c (concealSetMatch eqn m) ->
            concealSetMatch eqn m = [c]
            /\ findMatchingBracket eqn (index m) "{" "}" false None <> -1
            /\ length (replacements (inner c)) = 3%nat)
        /\ (In c (concealFractionMatch eqn m) ->
            concealFractionMatch eqn m = [c]
            /\ findMatchingBracket eqn (index m) "{" "}" false None <> -1
            /\ findMatchingBracket eqn
                 (findMatchingBracket eqn (index m) "{" "}" false None + 1)
                 "{" "}" false None <> -1
            /\ length (replacements (inner c)) = 6%nat))
  /\ (forall m c,
        (In m (matchAll braKetRegex eqn) -> In c (concealBraKetMatch eqn m) ->
         In c (concealBraKet eqn) /\ In c (matchers maps eqn))
        /\ (In m (matchAll setRegex eqn) -> In c (concealSetMatch eqn m) ->
            In c (concealSet eqn) /\ In c (matchers maps eqn))
        /\ (In m (matchAll fractionRegex eqn) -> In c (concealFractionMatch eqn m) ->
            In c (concealFraction eqn) /\ In c (matchers maps eqn)))
  /\ (forall pre post,
        eqn = (pre ++ backslash ++ "frac{" ++ post)%string ->
        let numeratorEnd := findMatchingBracket eqn (jsLength pre) "{" "}" false None in
        let denominatorEnd :=
          findMatchingBracket eqn (numeratorEnd + 1) "{" "}" false None in
        numeratorEnd <> -1 ->
        jsCharAt eqn (numeratorEnd + 1) = "{"%string ->
        denominatorEnd <> -1 ->
        In {| inner := fractionSpec (jsLength pre) numeratorEnd denominatorEnd |}
           (matchers maps eqn))
  /\ (forall pre post,
        eqn = (pre ++ backslash ++ "set{" ++ post)%string ->
        let contentEnd := findMatchingBracket eqn (jsLength pre) "{" "}" false None in
        contentEnd <> -1 ->
        In {| inner := Group [
                plain (jsLength pre) (jsLength pre + 4) "";
                bracket (jsLength pre + 4) (jsLength pre + 5) "{";
                bracket contentEnd (contentEnd + 1) "}" ] |}
           (matchers maps eqn))
  /\ (forall name pre post,
        In name ["braket"; "bra"; "ket"]%string ->
        eqn = (pre ++ backslash ++ (name ++ "{") ++ post)%string ->
        let contentEnd := findMatchingBracket eqn (jsLength pre) "{" "}" false None in
        let contentStart := jsLength pre + jsLength name + 1 in
        contentEnd <> -1 ->
        In {| inner := Group [
                plain (jsLength pre) contentStart "";
                bracket contentStart (contentStart + 1)
                  (if String.eqb name "ket" then vert else langle);
                bracket contentEnd (contentEnd + 1)
                  (if String.eqb name "bra" then vert else rangle) ] |}
           (matchers maps eqn)).
Proof.
  split; [| split; [| split; [| split; [| split; [| split]]]]];
    [ | | | | intros pre post ->; apply fraction_emitted
      | intros pre post ->; apply set_emitted
      | intros name pre post Hname ->; apply braKet_emitted; exact Hname ].
  - intros m H. unfold concealBraKetMatch, concealSetMatch, concealFractionMatch.
    rewrite H. auto.
  - intros m H. unfold concealFractionMatch. cbv zeta.
    destruct (_ =? -1); [reflexivity |].
    destruct (negb _); [reflexivity |].
    rewrite H. reflexivity.
  - intros m c. split; [| split].
    + unfold concealBraKetMatch. cbv zeta.
      destruct (Z.eqb_spec (findMatchingBracket eqn (index m) "{" "}" false None) (-1));
        [contradiction |].
      intros [<- | []]. auto.
    + unfold concealSetMatch. cbv zeta.
      destruct (Z.eqb_spec (findMatchingBracket eqn (index m) "{" "}" false None) (-1));
        [contradiction |].
      intros [<- | []]. auto.
    + unfold concealFractionMatch. cbv zeta.
      destruct (Z.eqb_spec (findMatchingBracket eqn (index m) "{" "}" false None) (-1));
        [contradiction |].
      destruct (negb _); [contradiction |].
      destruct (Z.eqb_spec
                  (findMatchingBracket eqn
                     (findMatchingBracket eqn (index m) "{" "}" false None + 1)
                     "{" "}" false None) (-1)); [contradiction |].
      intros [<- | []]. auto.
  - intros m c.
    assert (Hsub : forall l, In c l ->
              (l = concealBraKet eqn \/ l = concealSet eqn \/ l = concealFraction eqn) ->
              In c (matchers maps eqn)).
    { intros l Hl Hcase. unfold matchers.
      do 18 (apply in_or_app; right).
      destruct Hcase as [-> | [-> | ->]].
      - apply in_or_app. left. exact Hl.
      - apply in_or_app. right. apply in_or_app. left. exact Hl.
      - apply in_or_app. right. apply in_or_app. right.
        apply in_or_app. left. exact Hl. }
    split; [| split]; intros Hm Hc.
    + assert (H : In c (concealBraKet eqn))
        by (unfold concealBraKet; apply in_flat_map; eauto).
      split; [exact H | eapply Hsub; eauto].
    + assert (H : In c (concealSet eqn))
        by (unfold concealSet; apply in_flat_map; eauto).
      split; [exact H | eapply Hsub; eauto].
    + assert (H : In c (concealFraction eqn))
        by (unfold concealFraction; apply in_flat_map; eauto).
      split; [exact H | eapply Hsub; eauto].
Qed.

(** C8 at a fraction without closing brace that is followed by a
    complete one. *)
Lemma unterminated_constructs_skipped_witness :
  findMatchingBracket unterminatedEqn (index (fracMatch 0)) "{" "}" false None = -1
  /\ concealFractionMatch unterminatedEqn (fracMatch 0) = []
  /\ In {| inner := fractionSpec 8 15 18 |} (matchers sampleMaps unterminatedEqn).
Proof.
  destruct (unterminated_constructs_skipped sampleMaps unterminatedEqn)
    as (H1 & _ & _ & _ & H5 & _).
  assert (Hm1 : findMatchingBracket unterminatedEqn (index (fracMatch 0)) "{" "}"
                  false None = -1) by (vm_compute; reflexivity).
  split; [exact Hm1 |].
  split; [exact (proj2 (proj2 (H1 _ Hm1))) |].
  specialize (H5 "\frac{a "%string "b}{c}"%string eq_refl). cbv zeta in H5.
  assert (Hne : findMatchingBracket unterminatedEqn (jsLength "\frac{a ") "{" "}"
                  false None = 15) by (vm_compute; reflexivity).
  assert (Hde : findMatchingBracket unterminatedEqn (15 + 1) "{" "}"
                  false None = 18) by (vm_compute; reflexivity).
  rewrite Hne in H5. rewrite Hde in H5.
  exact (H5 ltac:(discriminate) ltac:(vm_compute; reflexivity) ltac:(discriminate)).
Defined.

Example sample_unterminated :
  map (fun c : Container => map (fun r => (start r, end_ r)) (replacements (inner c)))
    (concealFraction unterminatedEqn)
  = [[(8, 13); (13, 14); (15, 16); (16, 16); (16, 17); (18, 19)]].
Proof.
  vm_compute. reflexivity.
Qed.

(** ** The delayed-reveal timer *)

Lemma deref_app (s extra : list Concealment) (ls : list loc) :
  Forall (fun l => (l < length s)%nat) ls ->
  deref (s ++ extra) ls = deref s ls.
Proof.
  unfold deref. induction 1 as [| l ls Hl _ IH]; [reflexivity |].
  cbn [omap list_omap]. rewrite lookup_app_l by exact Hl.
  fold (omap (fun l : loc => (s ++ extra) !! l) ls).
  fold (omap (fun l : loc => s !! l) ls).
  now rewrite IH.
Qed.

(** The object that the loop builds for one conceal spec. *)
Lemma foldl_collect (update : ViewUpdate) (oldState : ConcealState)
    (specs : ConcealSpecList) (s : list Concealment) (cs ds : list loc) :
  Forall (fun l => (l < length s)%nat) (concealments oldState) ->
  foldl (collect update oldState)
    {| c_store := s; c_concealments := cs; c_delayed := ds |} specs =
  {| c_store := s ++ map (newConcealment update (deref s (concealments oldState))) specs;
     c_concealments := cs ++ seq (length s) (length specs);
     c_delayed := ds ++ delayedLocs update (deref s (concealments oldState))
                          (length s) specs |}.
Proof.
  revert s cs ds. induction specs as [| c specs IH]; intros s cs ds Hval; simpl.
  - now rewrite !app_nil_r.
  - unfold collect at 2. simpl.
    assert (Hval' : Forall (fun l => (l < length (s ++ [newConcealment update
               (deref s (concealments oldState)) c]))%nat) (concealments oldState)).
    { eapply Forall_impl; [exact Hval |]. intros l Hl. simpl in Hl.
      rewrite length_app. simpl. lia. }
    destruct (ConcealAction_eqb (actionFor update (deref s (concealments oldState))
                (inner c)) a_delay) eqn:Ed.
    + unfold newConcealment in IH, Hval' |- *.
      rewrite IH by exact Hval'. rewrite deref_app by exact Hval.
      rewrite length_app. simpl. rewrite Nat.add_1_r.
      rewrite <- !app_assoc. simpl. reflexivity.
    + unfold newConcealment in IH, Hval' |- *.
      rewrite IH by exact Hval'. rewrite deref_app by exact Hval.
      rewrite length_app. simpl. rewrite Nat.add_1_r.
      rewrite <- !app_assoc. simpl. reflexivity.
Qed.

Lemma elem_of_delayedLocs (update : ViewUpdate) (olds : list Concealment)
    (specs : ConcealSpecList) (base l : loc) :
  l ∈ delayedLocs update olds base specs <->
  exists i c, specs !! i = Some c /\ l = (base + i)%nat
              /\ actionFor update olds (inner c) = a_delay.
Proof.
  revert base. induction specs as [| c specs IH]; intros base; simpl.
  - split; [intros H; inversion H | intros (i & c & H & _); discriminate].
  - rewrite elem_of_app, IH. split.
    + intros [H | (i & c' & Hi & -> & Hd)].
      * destruct (actionFor update olds (inner c)) eqn:E; simpl in H;
          try (inversion H; fail).
        apply list_elem_of_singleton in H. subst l.
        exists 0%nat, c. rewrite Nat.add_0_r. auto.
      * exists (S i), c'. split; [exact Hi |]. split; [lia | exact Hd].
    + intros ([| i] & c' & Hi & -> & Hd); simpl in Hi.
      * injection Hi as Hi. subst c'. left. rewrite Hd. simpl.
        rewrite Nat.add_0_r. apply list_elem_of_singleton. reflexivity.
      * right. exists i, c'. split; [exact Hi |]. split; [lia | exact Hd].
Qed.

Lemma delayedLocs_nil_iff (update : ViewUpdate) (olds : list Concealment)
    (specs : ConcealSpecList) (base : loc) :
  delayedLocs update olds base specs <> [] <->
  List.Exists (fun c => actionFor update olds (inner c) = a_delay) specs.
Proof.
  revert base. induction specs as [| c specs IH]; intros base; simpl.
  - split; [intros H; now contradiction H | intros H; inversion H].
  - destruct (actionFor update olds (inner c)) eqn:E; simpl.
    + rewrite IH. split; [intros H; now right |].
      intros H; inversion H; subst; [congruence | assumption].
    + rewrite IH. split; [intros H; now right |].
      intros H; inversion H; subst; [congruence | assumption].
    + split; [intros _; now left | discriminate].
Qed.

(** What a reconciling update makes of a well-formed world. *)
Lemma updateListener_reconciles (maps : ConcealMaps) (update : ViewUpdate)
    (w : World) :
  reconciles update = true -> wellFormed w ->
  let specs := conceal maps (equations update) in
  let olds := deref (store w) (concealments (field w)) in
  let ds := delayedLocs update olds (length (store w)) specs in
  let w' := updateListener maps update w in
  store w' = store w ++ map (newConcealment update olds) specs
  /\ concealments (field w') = seq (length (store w)) (length specs)
  /\ (ds = [] ->
      revealTimeout (field w') = None /\ pending w' = ∅
      /\ nextTimeout w' = nextTimeout w)
  /\ (ds <> [] ->
      revealTimeout (field w') = Some (nextTimeout w)
      /\ pending w' =
         {[ nextTimeout w :=
              {| delayedConcealments := ds;
                 capturedConcealments := seq (length (store w)) (length specs) |} ]}
      /\ nextTimeout w' = Pos.succ (nextTimeout w)).
Proof.
  intros Hrec (I1 & I2 & I3 & I4). cbv zeta.
  unfold updateListener. unfold reconciles in Hrec. rewrite Hrec. cbn [negb].
  rewrite foldl_collect by exact I3. cbn [c_store c_concealments c_delayed app].
  assert (Hp1 : match revealTimeout (field w) with
                | Some t => delete t (pending w)
                | None => pending w
                end = ∅).
  { apply map_eq. intros t. rewrite lookup_empty.
    destruct (revealTimeout (field w)) as [t0 |] eqn:Et.
    - destruct (decide (t0 = t)) as [-> | Hne].
      + apply lookup_delete_eq.
      + rewrite lookup_delete_ne by exact Hne.
        destruct (pending w !! t) as [cb |] eqn:Ep; [| reflexivity].
        apply I1 in Ep. congruence.
    - destruct (pending w !! t) as [cb |] eqn:Ep; [| reflexivity].
      apply I1 in Ep. congruence. }
  rewrite Hp1.
  destruct (delayedLocs update (deref (store w) (concealments (field w)))
              (length (store w)) (conceal maps (equations update))) as [| d ds] eqn:Ed;
    cbn [store field concealments revealTimeout pending nextTimeout].
  - split; [reflexivity |]. split; [reflexivity |]. split; intros H.
    + repeat split; reflexivity.
    + now contradiction H.
  - split; [reflexivity |]. split; [reflexivity |]. split; intros H.
    + discriminate H.
    + repeat split; reflexivity.
Qed.

Lemma wellFormed_create : wellFormed create.
Proof.
  unfold wellFormed, create; simpl. repeat split.
  - intros t cb H. rewrite lookup_empty in H. discriminate.
  - discriminate.
  - constructor.
  - intros t cb H. rewrite lookup_empty in H. discriminate.
Qed.

Lemma Forall_lt_seq (base n : nat) (m : nat) :
  (base + n <= m)%nat -> Forall (fun l => (l < m)%nat) (seq base n).
Proof.
  intros H. apply Forall_forall. intros l Hl. apply elem_of_seq in Hl. lia.
Qed.

Lemma length_foldl_alter (f : Concealment -> Concealment) (ls : list loc)
    (s : list Concealment) :
  length (foldl (fun s l => alter f l s) s ls) = length s.
Proof.
  revert s. induction ls as [| l ls IH]; intros s; simpl; [reflexivity |].
  rewrite IH. apply length_alter.
Qed.

Lemma wellFormed_updateListener (maps : ConcealMaps) (update : ViewUpdate)
    (w : World) :
  wellFormed w -> wellFormed (updateListener maps update w).
Proof.
  intros Hw. destruct (reconciles update) eqn:Hrec.
  - destruct (updateListener_reconciles maps update w Hrec Hw)
      as (Hs & Hc & Hnil & Hcons).
    set (ds := delayedLocs update (deref (store w) (concealments (field w)))
                 (length (store w)) (conceal maps (equations update))) in *.
    assert (Hseq : Forall (fun l => (l < length (store (updateListener maps update w)))%nat)
                     (seq (length (store w)) (length (conceal maps (equations update))))).
    { apply Forall_lt_seq. rewrite Hs, length_app, length_map. lia. }
    destruct (decide (ds = [])) as [E | E].
    + destruct (Hnil E) as (Ht & Hp & Hn). unfold wellFormed.
      rewrite Ht, Hp, Hc. repeat split.
      * intros t cb H. rewrite lookup_empty in H. discriminate.
      * discriminate.
      * exact Hseq.
      * intros t cb H. rewrite lookup_empty in H. discriminate.
    + destruct (Hcons E) as (Ht & Hp & Hn). unfold wellFormed.
      rewrite Ht, Hp, Hc, Hn. repeat split.
      * intros t cb H. apply lookup_singleton_Some in H. destruct H as [<- _].
        reflexivity.
      * intros t [= <-]. lia.
      * exact Hseq.
      * intros t cb H. apply lookup_singleton_Some in H. destruct H as [_ <-].
        exact Hseq.
  - unfold updateListener. unfold reconciles in Hrec. rewrite Hrec. exact Hw.
Qed.

Lemma wellFormed_fireTimeout (t : positive) (w : World) :
  wellFormed w -> wellFormed (fireTimeout t w).
Proof.
  intros (I1 & I2 & I3 & I4). unfold fireTimeout.
  destruct (pending w !! t) as [cb |] eqn:Ep; [| now repeat split].
  unfold wellFormed; simpl. repeat split.
  - intros t' cb' H. exfalso.
    destruct (decide (t = t')) as [-> | Hne].
    + rewrite lookup_delete_eq in H. discriminate.
    + rewrite lookup_delete_ne in H by exact Hne.
      apply I1 in H. apply I1 in Ep. congruence.
  - discriminate.
  - rewrite length_foldl_alter. eapply I4. exact Ep.
  - intros t' cb' H. exfalso.
    destruct (decide (t = t')) as [-> | Hne].
    + rewrite lookup_delete_eq in H. discriminate.
    + rewrite lookup_delete_ne in H by exact Hne.
      apply I1 in H. apply I1 in Ep. congruence.
Qed.

Lemma wellFormed_step (maps : ConcealMaps) (w : World) (e : Event) :
  wellFormed w -> wellFormed (step maps w e).
Proof.
  destruct e; simpl;
    [apply wellFormed_updateListener | apply wellFormed_fireTimeout].
Qed.

Lemma wellFormed_run (maps : ConcealMaps) (es : list Event) (w : World) :
  wellFormed w -> wellFormed (run maps w es).
Proof.
  revert w. induction es as [| e es IH]; intros w Hw; simpl; [exact Hw |].
  apply IH, wellFormed_step, Hw.
Qed.




(** The store after the callback's loop over the delayed concealments. *)
Lemma lookup_foldl_disable (ds : list loc) (s : list Concealment) (l : loc) :
  foldl (fun s l => alter disable l s) s ds !! l =
  if decide (l ∈ ds) then disable <$> s !! l else s !! l.
Proof.
  revert s. induction ds as [| d ds IH]; intros s; simpl.
  - destruct (decide (l ∈ [])) as [H | _]; [inversion H | reflexivity].
  - rewrite IH.
    destruct (decide (d = l)) as [-> | Hne].
    + rewrite list_lookup_alter_eq. clear IH.
      destruct (decide (l ∈ l :: ds)) as [_ | Hn]; [| exfalso; apply Hn; left].
      destruct (decide (l ∈ ds)); destruct (s !! l); reflexivity.
    + rewrite list_lookup_alter_ne by exact Hne. clear IH.
      destruct (decide (l ∈ ds)) as [Hin | Hnin];
        destruct (decide (l ∈ d :: ds)) as [Hin' | Hnin']; try reflexivity.
      * exfalso. apply Hnin'. now right.
      * exfalso. apply elem_of_cons in Hin'. destruct Hin'; [congruence | auto].
Qed.

Lemma lookup_app_map {A B : Type} (f : A -> B) (s : list B) (l : list A)
    (i : nat) :
  (s ++ map f l) !! (length s + i)%nat = f <$> l !! i.
Proof.
  rewrite lookup_app_r by lia.
  replace (length s + i - length s)%nat with i by lia.
  revert i. induction l as [| a l IH]; intros [| i]; simpl; auto.
Qed.





(** ** Candidates without identity match *)

Lemma find_unmatched {A : Type} (f : A -> bool) (l : list A) :
  (forall x, In x l -> f x = false) -> List.find f l = None.
Proof.
  induction l as [| a l IH]; intros H; [reflexivity |].
  cbn [List.find]. rewrite (H a (or_introl eq_refl)).
  apply IH. intros x Hx. apply H. now right.
Qed.

(** The action that the listener takes for a conceal spec at whose
    position no old concealment is. *)
Lemma actionFor_unmatched (update : ViewUpdate) (olds : list Concealment)
    (concealSpec : ConcealSpec) :
  (forall old, In old olds ->
     atSamePosAfter update (spec old) concealSpec = false) ->
  actionFor update olds concealSpec
  = determineAction None
      (determineCursorPosType (selection update) concealSpec) (mousedown update).
Proof.
  intros H. unfold actionFor.
  rewrite (find_unmatched
             (fun old => atSamePosAfter update (spec old) concealSpec) olds H).
  reflexivity.
Qed.

(** C3, amended: in every world that the engine reaches, when the
    listener reconciles with the mouse up, a candidate of the new scan
    at whose position [atSamePosAfter] finds no concealment of the
    previous state gets the action of the N/A row of the table: conceal
    when its new classification is apart, reveal when it is edge or
    within, and never delay. The concealment that the listener stores
    for it is enabled exactly when it is apart, and no timer that is
    pending afterwards captured it as delayed. *)
Theorem unmatched_candidate_action (maps : ConcealMaps) (es : list Event)
    (update : ViewUpdate) (i : nat) (c : Container) :
  let w := run maps create es in
  let w' := updateListener maps update w in
  let olds := deref (store w) (concealments (field w)) in
  let cursor := determineCursorPosType (selection update) (inner c) in
  reconciles update = true ->
  mousedown update = false ->
  conceal maps (equations update) !! i = Some c ->
  (forall old, In old olds ->
     atSamePosAfter update (spec old) (inner c) = false) ->
  actionFor update olds (inner c)
  = match cursor with
    | apart => a_conceal
    | edge => a_reveal
    | within => a_reveal
    end
  /\ actionFor update olds (inner c) <> a_delay
  /\ store w' !! (length (store w) + i)%nat
     = Some {| spec := inner c; cursorPosType := cursor;
               enable := match cursor with
                         | apart => true
                         | edge => false
                         | within => false
                         end |}
  /\ (forall t cb, pending w' !! t = Some cb ->
        (length (store w) + i)%nat ∉ delayedConcealments cb).
Proof.
  cbv zeta. intros Hrec Hup Hi Hun.
  set (w := run maps create es) in *.
  set (olds := deref (store w) (concealments (field w))) in *.
  set (cursor := determineCursorPosType (selection update) (inner c)).
  assert (Hact : actionFor update olds (inner c)
                 = match cursor with
                   | apart => a_conceal
                   | edge => a_reveal
                   | within => a_reveal
                   end).
  { rewrite (actionFor_unmatched update olds (inner c) Hun), Hup.
    fold cursor. destruct cursor; reflexivity. }
  assert (Hnd : actionFor update olds (inner c) <> a_delay).
  { rewrite Hact. destruct cursor; discriminate. }
  assert (Hw : wellFormed w) by (apply wellFormed_run, wellFormed_create).
  destruct (updateListener_reconciles maps update w Hrec Hw)
    as (Hs & _ & Hnil & Hcons).
  fold olds in Hs, Hnil, Hcons.
  split; [exact Hact |]. split; [exact Hnd |]. split.
  - rewrite Hs, lookup_app_map, Hi. cbn [fmap option_fmap option_map].
    unfold newConcealment. fold cursor. rewrite Hact.
    destruct cursor; reflexivity.
  - intros t cb Hcb Hin.
    set (ds := delayedLocs update olds (length (store w))
                 (conceal maps (equations update))) in *.
    destruct (decide (ds = [])) as [E | E].
    + destruct (Hnil E) as (_ & Hp & _).
      rewrite Hp, lookup_empty in Hcb. discriminate.
    + destruct (Hcons E) as (_ & Hp & _). rewrite Hp in Hcb.
      apply lookup_singleton_Some in Hcb. destruct Hcb as [_ <-].
      cbn [delayedConcealments] in Hin. unfold ds in Hin.
      apply elem_of_delayedLocs in Hin.
      destruct Hin as (j & c' & Hj & Heq & Hd).
      assert (j = i) by lia. subst j.
      assert (c' = c) by congruence. subst c'. contradiction.
Qed.

(** C3 at an edit that moves a concealed symbol: the cursor is at the
    end of the symbol, no old concealment is at its position, and it is
    revealed at once. *)
Lemma unmatched_candidate_action_witness :
  let es := [ViewUpdated (cursorMoved alphaEqn 20)] in
  let update := cursorMoved ("x" ++ alphaEqn) 8 in
  let c := single 2 8 "a" None None in
  let w := run sampleMaps create es in
  let w' := updateListener sampleMaps update w in
  let olds := deref (store w) (concealments (field w)) in
  map spec olds = [inner (single 1 7 "a" None None)]
  /\ determineCursorPosType (selection update) (inner c) = edge
  /\ actionFor update olds (inner c) = a_reveal
  /\ store w' !! (length (store w) + 0)%nat
     = Some {| spec := inner c; cursorPosType := edge; enable := false |}
  /\ (forall t cb, pending w' !! t = Some cb ->
        (length (store w) + 0)%nat ∉ delayedConcealments cb).
Proof.
  intros es update c w w'. intros olds.
  split; [reflexivity |]. split; [reflexivity |].
  assert (Hun : forall old, In old olds ->
                  atSamePosAfter update (spec old) (inner c) = false).
  { intros old Hold. vm_compute in Hold.
    destruct Hold as [<- | []]. reflexivity. }
  pose proof (unmatched_candidate_action sampleMaps es update 0 c
                eq_refl eq_refl eq_refl Hun) as H.
  cbv zeta in H. destruct H as (H1 & _ & H3 & H4).
  split; [exact H1 |]. split; [exact H3 | exact H4].
Defined.

(** ** The engine on the sample inputs *)

(** The cursor moves from far away to the end of a concealed symbol: the
    reveal is delayed and a timer is pending. *)
Example sample_delay :
  let w := run sampleMaps create
             [ViewUpdated (cursorMoved alphaEqn 20);
              ViewUpdated (cursorMoved alphaEqn 7)] in
  map (fun c => (cursorPosType c, enable c)) (store w)
    = [(apart, true); (edge, true)]
  /\ field w = {| concealments := [1%nat]; revealTimeout := Some 1%positive |}
  /\ map_to_list (pending w)
     = [(1%positive, {| delayedConcealments := [1%nat];
                        capturedConcealments := [1%nat] |})].
Proof.
  vm_compute. repeat split; reflexivity.
Qed.

(** The timer fires: the delayed concealment is revealed. *)
Example sample_fire :
  let w := run sampleMaps create
             [ViewUpdated (cursorMoved alphaEqn 20);
              ViewUpdated (cursorMoved alphaEqn 7);
              TimeoutElapsed 1] in
  map (fun c => (cursorPosType c, enable c)) (store w)
    = [(apart, true); (edge, false)]
  /\ field w = {| concealments := [1%nat]; revealTimeout := None |}
  /\ map_to_list (pending w) = [].
Proof.
  vm_compute. repeat split; reflexivity.
Qed.

(** The cursor moves away before the timer fires: the timer is cancelled
    and its firing changes nothing. *)
Example sample_superseded :
  let w := run sampleMaps create
             [ViewUpdated (cursorMoved alphaEqn 20);
              ViewUpdated (cursorMoved alphaEqn 7);
              ViewUpdated (cursorMoved alphaEqn 20)] in
  map (fun c => (cursorPosType c, enable c)) (store w)
    = [(apart, true); (edge, true); (apart, true)]
  /\ field w = {| concealments := [2%nat]; revealTimeout := None |}
  /\ fireTimeout 1 w = w.
Proof.
  vm_compute. repeat split; reflexivity.
Qed.

(** The scenario of the spec: the cursor at the end boundary of a
    symbol that was within before is classified edge and revealed. *)
Example sample_within_then_edge :
  determineCursorPosType (selection (cursorMoved alphaEqn 7))
    (Single {| start := 1; end_ := 7; replacement := "a"; class := None;
               elementType := None |}) = edge
  /\ determineAction (Some within) edge false = a_reveal.
Proof.
  split; reflexivity.
Qed.

(** The scenario of the spec for a modifier: one replacement over the
    whole construct, the letter followed by the combining character. *)
Example sample_hat :
  concealModifier "\hat{x}" "hat" U0302
  = [single 0 7 ("x" ++ U0302) (Some "latex-suite-unicode"%string) None].
Proof.
  vm_compute. reflexivity.
Qed.

(** ** The classifier against the overlap test of the earlier revisions *)

Lemma overlap_test_iff (range : SelectionRange) (r : Replacement) :
  from range <= to range -> start r <= end_ r ->
  ((from range <=? end_ r) && (to range >=? start r) = true
   <-> insideOverlap range r \/ touchesBoundary range r).
Proof.
  intros Hrange Hr.
  unfold insideOverlap, overlapsProperly, pointInside, touchesBoundary,
    overlapRangeFrom, overlapRangeTo.
  rewrite andb_true_iff, Z.leb_le, Z.geb_le. lia.
Qed.

Lemma determineCursorPosType_apart_iff (sel : EditorSelection)
    (concealSpec : ConcealSpec) :
  determineCursorPosType sel concealSpec = apart
  <-> ~ somePair (fun range r => insideOverlap range r \/ touchesBoundary range r)
          sel concealSpec.
Proof.
  destruct (classifyRanges_spec (ranges sel) concealSpec apart ltac:(discriminate))
    as [Hw He].
  fold (determineCursorPosType sel concealSpec) in Hw, He.
  unfold somePair. split.
  - intros Ha (range & r & Hin & Hr & [Hi | Ht]).
    + assert (determineCursorPosType sel concealSpec = within)
        by (apply Hw; eauto 6).
      congruence.
    + assert (determineCursorPosType sel concealSpec = edge); [| congruence].
      apply He. split; [| right; eauto 6].
      intros Hex. apply Hw in Hex. congruence.
  - intros Hno.
    destruct (determineCursorPosType sel concealSpec) eqn:E; [| reflexivity |].
    + exfalso. apply Hno. destruct (proj1 Hw eq_refl) as (range & r & ? & ? & ?).
      exists range, r. auto.
    + exfalso. apply Hno.
      destruct (proj1 He eq_refl) as [_ [Hf | (range & r & ? & ? & ?)]];
        [discriminate |].
      exists range, r. auto.
Qed.

(** The overlap test of the earlier revisions answers true for the span
    of an ordered replacement exactly when some range of the selection
    overlaps the replacement or touches a boundary of it. *)
Lemma selectionAndRangeOverlap_iff (sel : EditorSelection) (r : Replacement) :
  orderedRanges sel -> start r <= end_ r ->
  (selectionAndRangeOverlap sel (start r) (end_ r) = true
   <-> exists range, In range (ranges sel)
                     /\ (insideOverlap range r \/ touchesBoundary range r)).
Proof.
  intros Hs Hr. unfold orderedRanges in Hs. rewrite List.Forall_forall in Hs.
  unfold selectionAndRangeOverlap. rewrite existsb_exists.
  split; intros (range & Hrange & H); exists range; (split; [exact Hrange |]);
    apply (overlap_test_iff range r (Hs range Hrange) Hr); exact H.
Qed.

(** X1: on a selection whose ranges are ordered and a conceal spec whose
    replacements are ordered, the classification is apart exactly when
    the overlap test of the earlier revisions finds no range of the
    selection that meets a member replacement. *)
Theorem apart_iff_no_range_overlaps (sel : EditorSelection)
    (concealSpec : ConcealSpec) :
  orderedRanges sel ->
  Forall (fun r => start r <= end_ r) (replacements concealSpec) ->
  (determineCursorPosType sel concealSpec = apart
   <-> forall r, In r (replacements concealSpec) ->
         selectionAndRangeOverlap sel (start r) (end_ r) = false).
Proof.
  intros Hs Hr. rewrite determineCursorPosType_apart_iff.
  rewrite List.Forall_forall in Hr. unfold somePair. split.
  - intros Hno r Hin.
    destruct (selectionAndRangeOverlap sel (start r) (end_ r)) eqn:E;
      [| reflexivity].
    exfalso. apply (selectionAndRangeOverlap_iff sel r Hs (Hr r Hin)) in E.
    destruct E as (range & Hrange & Hov). apply Hno. exists range, r. auto.
  - intros Hall (range & r & Hrange & Hin & Hov).
    specialize (Hall r Hin).
    assert (selectionAndRangeOverlap sel (start r) (end_ r) = true);
      [| congruence].
    apply (selectionAndRangeOverlap_iff sel r Hs (Hr r Hin)).
    exists range. auto.
Qed.

Lemma apart_iff_no_range_overlaps_witness :
  let sel := mkSelection [mkRange 20 22] in
  let concealSpec := Group [Single (mkReplacement 0 5 "" None None);
                            Single (mkReplacement 5 6 "(" None None)] in
  determineCursorPosType sel concealSpec = apart
  <-> forall r, In r (replacements concealSpec) ->
        selectionAndRangeOverlap sel (start r) (end_ r) = false.
Proof.
  apply apart_iff_no_range_overlaps.
  - repeat constructor. simpl. lia.
  - repeat constructor; simpl; lia.
Defined.

(** X2: a conceal spec all of whose members are zero-width is never
    classified within; it is classified edge exactly when some range of
    the selection contains the offset of some member. *)
Theorem zero_width_never_within (sel : EditorSelection)
    (concealSpec : ConcealSpec) :
  (forall r, In r (replacements concealSpec) -> start r = end_ r) ->
  determineCursorPosType sel concealSpec <> within
  /\ (determineCursorPosType sel concealSpec = edge
      <-> exists range r, In range (ranges sel) /\ In r (replacements concealSpec)
                          /\ from range <= start r <= to range).
Proof.
  intros Hz.
  assert (Hnw : determineCursorPosType sel concealSpec <> within).
  { rewrite determineCursorPosType_within_iff.
    intros (range & r & _ & Hin & Hi). specialize (Hz r Hin).
    unfold insideOverlap, overlapsProperly, pointInside, overlapRangeFrom,
      overlapRangeTo in Hi. lia. }
  split; [exact Hnw |].
  pose proof (determineCursorPosType_apart_iff sel concealSpec) as Ha.
  unfold somePair in Ha. split.
  - intros He.
    destruct (classifyRanges_spec (ranges sel) concealSpec apart ltac:(discriminate))
      as [_ Hedge].
    fold (determineCursorPosType sel concealSpec) in Hedge.
    destruct (proj1 Hedge He) as [_ [Hf | (range & r & Hrange & Hin & Hov)]];
      [discriminate |].
    exists range, r. split; [exact Hrange | split; [exact Hin |]].
    specialize (Hz r Hin).
    unfold touchesBoundary, overlapRangeFrom, overlapRangeTo in Hov. lia.
  - intros (range & r & Hrange & Hin & Hb).
    destruct (determineCursorPosType sel concealSpec) eqn:E;
      [congruence | | reflexivity].
    exfalso. apply (proj1 Ha eq_refl). exists range, r.
    split; [exact Hrange | split; [exact Hin |]].
    specialize (Hz r Hin). right.
    unfold touchesBoundary, overlapRangeFrom, overlapRangeTo. lia.
Qed.

Lemma zero_width_never_within_witness :
  let sel := mkSelection [mkRange 0 30] in
  let concealSpec := Single (mkReplacement 8 8 "/" (Some "cm-bracket") None) in
  determineCursorPosType sel concealSpec <> within
  /\ determineCursorPosType sel concealSpec = edge.
Proof.
  cbv zeta.
  destruct (zero_width_never_within (mkSelection [mkRange 0 30])
              (Single (mkReplacement 8 8 "/" (Some "cm-bracket") None)))
    as [Hn _].
  - intros r [<- | []]. reflexivity.
  - split; [exact Hn | reflexivity].
Defined.

(** ** The revisions of the classifier *)

Lemma SingleSpec_classifyRanges_cons (range : SelectionRange)
    (rs : list SelectionRange) (r : Replacement) :
  SingleSpec.classifyRanges (range :: rs) r =
  match fst (classifyStep range r apart) with
  | apart => SingleSpec.classifyRanges rs r
  | c => c
  end.
Proof.
  cbn [SingleSpec.classifyRanges]. unfold classifyStep.
  destruct ((Z.max (from range) (start r) =? Z.min (to range) (end_ r))
            && ((Z.max (from range) (start r) =? start r)
                || (Z.max (from range) (start r) =? end_ r))); [reflexivity |].
  destruct (Z.max (from range) (start r) <=? Z.min (to range) (end_ r));
    reflexivity.
Qed.

(** X3: on a selection of one range and a conceal spec of one
    replacement, the classifier of the first revision (which reads the
    main range), the one of the single-spec revision, the one of the flat
    revision and the current one return the same classification. *)
Theorem classifier_revisions_agree_on_one_range (range : SelectionRange)
    (r : Replacement) :
  let sel := mkSelection [range] in
  ViewPluginRevision.determineCursorPosType range r
    = determineCursorPosType sel (Single r)
  /\ SingleSpec.determineCursorPosType sel r
     = determineCursorPosType sel (Single r)
  /\ FlatSpec.determineCursorPosType sel [r]
     = determineCursorPosType sel (Single r).
Proof.
  cbv zeta.
  unfold ViewPluginRevision.determineCursorPosType,
    SingleSpec.determineCursorPosType, FlatSpec.determineCursorPosType,
    determineCursorPosType.
  cbn [ranges SingleSpec.classifyRanges FlatSpec.classifyRanges
       FlatSpec.classifyReplacements classifyRanges iterConcealSpec].
  unfold classifyStep.
  destruct (Z.gtb_spec (Z.max (from range) (start r)) (Z.min (to range) (end_ r)));
    destruct (Z.eqb_spec (Z.max (from range) (start r)) (Z.min (to range) (end_ r)));
    destruct (Z.leb_spec (Z.max (from range) (start r)) (Z.min (to range) (end_ r)));
    try lia;
    destruct ((Z.max (from range) (start r) =? start r)
              || (Z.max (from range) (start r) =? end_ r));
    cbn; auto.
Qed.

Lemma SingleSpec_classifyRanges_spec (rs : list SelectionRange) (r : Replacement) :
  (SingleSpec.classifyRanges rs r = apart
   <-> forall range, In range rs ->
         ~ insideOverlap range r /\ ~ touchesBoundary range r)
  /\ (SingleSpec.classifyRanges rs r = within ->
      exists range, In range rs /\ insideOverlap range r).
Proof.
  induction rs as [| range rs [IHa IHw]].
  - simpl. split; [split; [intros _ ? [] | reflexivity] | discriminate].
  - rewrite SingleSpec_classifyRanges_cons.
    destruct (classifyStep_cases range r apart)
      as [(Ht & Hni & ->) | [(Hi & Hnt & ->) | (Hnt & Hni & ->)]]; cbn [fst].
    + split; [split; [discriminate |] | discriminate].
      intros H. destruct (H range (or_introl eq_refl)). contradiction.
    + split; [split; [discriminate |] |].
      * intros H. destruct (H range (or_introl eq_refl)). contradiction.
      * intros _. exists range. split; [now left | exact Hi].
    + split.
      * rewrite IHa. split.
        -- intros H range' [<- | Hin]; [split; assumption | apply H, Hin].
        -- intros H range' Hin. apply H. now right.
      * intros H. destruct (IHw H) as (range' & Hin & Hi).
        exists range'. split; [now right | exact Hi].
Qed.

(** X4: on a selection of several ranges, the single-spec revision lets
    the first range that is not apart decide. It returns apart exactly
    when the current classifier does; when it returns within the current
    classifier returns within; and when the current classifier returns
    edge it returns edge. *)
Theorem single_spec_revision_first_range_decides (sel : EditorSelection)
    (r : Replacement) :
  (SingleSpec.determineCursorPosType sel r = apart
   <-> determineCursorPosType sel (Single r) = apart)
  /\ (SingleSpec.determineCursorPosType sel r = within ->
      determineCursorPosType sel (Single r) = within)
  /\ (determineCursorPosType sel (Single r) = edge ->
      SingleSpec.determineCursorPosType sel r = edge).
Proof.
  destruct (SingleSpec_classifyRanges_spec (ranges sel) r) as [Ha Hw].
  fold (SingleSpec.determineCursorPosType sel r) in Ha, Hw.
  assert (Hapart : SingleSpec.determineCursorPosType sel r = apart
                   <-> determineCursorPosType sel (Single r) = apart).
  { rewrite Ha, determineCursorPosType_apart_iff. unfold somePair.
    cbn [replacements]. split.
    - intros H (range & r' & Hin & [<- | []] & Hov).
      destruct (H range Hin). tauto.
    - intros H range Hin. split; intros Hov; apply H; exists range, r;
        (split; [exact Hin | split; [now left | tauto]]). }
  assert (Hwithin : SingleSpec.determineCursorPosType sel r = within ->
                    determineCursorPosType sel (Single r) = within).
  { intros H. destruct (Hw H) as (range & Hin & Hi).
    apply determineCursorPosType_within_iff. exists range, r.
    split; [exact Hin | split; [now left | exact Hi]]. }
  split; [exact Hapart | split; [exact Hwithin |]].
  intros He.
  destruct (SingleSpec.determineCursorPosType sel r) eqn:E; [| | reflexivity].
  - specialize (Hwithin eq_refl). congruence.
  - pose proof (proj1 Hapart eq_refl). congruence.
Qed.

(** ** Identity matching *)

(** X5: the flat revision of [atSamePosAfter] agrees with the nested one
    on the groups whose members are the replacements of the flat
    specs. *)
Theorem flat_atSamePosAfter_nested (update : ViewUpdate)
    (oldConceal newConceal : list Replacement) :
  FlatSpec.atSamePosAfter update oldConceal newConceal
  = atSamePosAfter update (Group (map Single oldConceal))
      (Group (map Single newConceal)).
Proof.
  unfold FlatSpec.atSamePosAfter. cbn [atSamePosAfter].
  rewrite !length_map.
  destruct (negb (length oldConceal =? length newConceal)%nat); [reflexivity |].
  revert newConceal. induction oldConceal as [| o os IH]; intros [| n ns];
    try reflexivity.
  simpl.
  destruct ((mapPos update (start o) 1 =? start n)
            && (mapPos update (end_ o) (-1) =? end_ n)); simpl;
    [apply IH | reflexivity].
Qed.

(** X6: identity matching composes over successive edits. When the
    position mapping of a combined update is the mapping of the first
    update followed by the mapping of the second, a spec that is at the
    same position after the first update as a second spec, which is at
    the same position after the second update as a third one, is at the
    same position as the third after the combined update. *)
Theorem atSamePosAfter_trans (u1 u2 u12 : ViewUpdate) (a b c : ConcealSpec) :
  (forall pos assoc,
     mapPos u12 pos assoc = mapPos u2 (mapPos u1 pos assoc) assoc) ->
  atSamePosAfter u1 a b = true -> atSamePosAfter u2 b c = true ->
  atSamePosAfter u12 a c = true.
Proof.
  intros Hcomp. revert b c.
  induction a as [ra | la IH] using ConcealSpec_nested_ind;
    intros [rb | lb] [rc | lc] H1 H2; cbn [atSamePosAfter] in *;
    try discriminate.
  - apply andb_true_iff in H1, H2. destruct H1 as [H1s H1e], H2 as [H2s H2e].
    apply Z.eqb_eq in H1s, H1e, H2s, H2e.
    rewrite !Hcomp, H1s, H1e, H2s, H2e, !Z.eqb_refl. reflexivity.
  - destruct (Nat.eqb_spec (length la) (length lb)) as [Hab | ];
      [| discriminate].
    destruct (Nat.eqb_spec (length lb) (length lc)) as [Hbc | ];
      [| discriminate].
    cbn [negb] in *.
    destruct (Nat.eqb_spec (length la) (length lc)) as [_ | Hne];
      [| congruence].
    cbn [negb].
    revert lb lc Hab Hbc H1 H2.
    induction IH as [| a la Ha _ IHl]; intros [| b lb] [| c lc] Hab Hbc H1 H2;
      try reflexivity; try discriminate.
    destruct (atSamePosAfter u1 a b) eqn:E1; [| discriminate].
    destruct (atSamePosAfter u2 b c) eqn:E2; [| discriminate].
    cbn [negb] in *.
    rewrite (Ha b c E1 E2). cbn [negb].
    apply (IHl lb lc); auto.
Qed.

Lemma atSamePosAfter_trans_witness :
  let u1 := mkViewUpdate (fun pos _ => if 3 <=? pos then pos + 2 else pos)
              true false false (mkSelection []) false [] in
  let u2 := mkViewUpdate (fun pos _ => pos + 1)
              true false false (mkSelection []) false [] in
  let u12 := mkViewUpdate (fun pos _ => if 3 <=? pos then pos + 3 else pos + 1)
               true false false (mkSelection []) false [] in
  let a := Group [Single (mkReplacement 0 2 "" None None);
                  Single (mkReplacement 4 9 "x" None None)] in
  let b := Group [Single (mkReplacement 0 2 "" None None);
                  Single (mkReplacement 6 11 "x" None None)] in
  let c := Group [Single (mkReplacement 1 3 "" None None);
                  Single (mkReplacement 7 12 "x" None None)] in
  atSamePosAfter u12 a c = true.
Proof.
  cbv zeta.
  apply (atSamePosAfter_trans
           (mkViewUpdate (fun pos _ => if 3 <=? pos then pos + 2 else pos)
              true false false (mkSelection []) false [])
           (mkViewUpdate (fun pos _ => pos + 1)
              true false false (mkSelection []) false [])
           _ _
           (Group [Single (mkReplacement 0 2 "" None None);
                   Single (mkReplacement 6 11 "x" None None)])).
  - intros pos assoc. cbn [mapPos].
    destruct (Z.leb_spec 3 pos); lia.
  - reflexivity.
  - reflexivity.
Defined.

(** ** The traversal of a conceal spec *)

(** X7: [iterConcealSpec] visits the member replacements of a nested
    conceal spec depth first, in the order of [replacements]; it stops
    after the first replacement at which the callback returns false, at
    whatever depth, and then returns false itself. *)
Theorem iterConcealSpec_visits_in_order (concealSpec : ConcealSpec)
    (stop : Replacement -> bool) (visited : list Replacement) :
  iterConcealSpec concealSpec (fun r visited => (visited ++ [r], stop r)) visited
  = (visited ++ upToFirst stop (replacements concealSpec),
     existsb stop (replacements concealSpec)).
Proof.
  rewrite iterConcealSpec_flat.
  generalize (replacements concealSpec) as l. intros l.
  revert visited. induction l as [| r l IH]; intros visited.
  - simpl. now rewrite app_nil_r.
  - cbn [iterReplacements upToFirst existsb].
    destruct (stop r); cbn [orb].
    + reflexivity.
    + rewrite IH, <- app_assoc. reflexivity.
Qed.

(** ** The bracket matcher with arbitrary brackets *)

(** The loop returns -1 or an offset that it visited, at which the
    closing bracket stands and the opening bracket does not. *)
Lemma findMatchingBracketLoop_sound (n : nat) (text : string) (i : Z)
    (openBracket closeBracket : string) (b : Z) :
  let r := findMatchingBracketLoop n text i openBracket closeBracket b in
  r = -1
  \/ (i <= r < i + Z.of_nat n
      /\ jsSlice text r (r + jsLength closeBracket) = closeBracket
      /\ jsSlice text r (r + jsLength openBracket) <> openBracket).
Proof.
  cbv zeta. revert i b. induction n as [| n IH]; intros i b; [now left |].
  cbn [findMatchingBracketLoop].
  destruct (String.eqb_spec (jsSlice text i (i + jsLength openBracket)) openBracket)
    as [Ho | Ho].
  - destruct (IH (i + 1) (b + 1)) as [H | (H & Hc & Hno)]; [now left | right].
    split; [lia | auto].
  - destruct (String.eqb_spec (jsSlice text i (i + jsLength closeBracket)) closeBracket)
      as [Hc | Hc].
    + destruct (b - 1 =? 0).
      * right. split; [lia | auto].
      * destruct (IH (i + 1) (b - 1)) as [H | (H & Hc' & Hno)]; [now left | right].
        split; [lia | auto].
    + destruct (IH (i + 1) b) as [H | (H & Hc' & Hno)]; [now left | right].
      split; [lia | auto].
Qed.

(** X8: a forward search returns -1 or an offset of the searched range,
    from [start] to the optional [end] or else the end of the text, at
    which the closing bracket stands and the opening bracket does
    not. *)
Theorem findMatchingBracket_sound (text : string) (start : Z)
    (openBracket closeBracket : string) (end' : option Z) :
  let stop :=
    match end' with
    | Some e => if e =? 0 then jsLength text else e
    | None => jsLength text
    end in
  let r := findMatchingBracket text start openBracket closeBracket false end' in
  r = -1
  \/ (start <= r < stop
      /\ jsSlice text r (r + jsLength closeBracket) = closeBracket
      /\ jsSlice text r (r + jsLength openBracket) <> openBracket).
Proof.
  cbv zeta. unfold findMatchingBracket, findMatchingBracketForward.
  set (stop := match end' with
               | Some e => if e =? 0 then jsLength text else e
               | None => jsLength text
               end).
  destruct (findMatchingBracketLoop_sound (Z.to_nat (stop - start)) text start
              openBracket closeBracket 0) as [H | (H & Hc & Hno)];
    [now left | right].
  split; [lia | auto].
Qed.

(** The same for one-unit brackets: the unit at the result is the
    closing bracket. *)
Lemma findMatchingBracket_sound_one (text : string) (start : Z) (o c : ascii) :
  let r := findMatchingBracket text start (String o "") (String c "") false None in
  r = -1
  \/ (start <= r < jsLength text /\ jsSlice text r (r + 1) = String c "").
Proof.
  cbv zeta. unfold findMatchingBracket, findMatchingBracketForward.
  destruct (findMatchingBracketLoop_sound (Z.to_nat (jsLength text - start)) text
              start (String o "") (String c "") 0) as [H | (H & Hc & _)];
    [now left | right].
  split; [lia | exact Hc].
Qed.

(** One turn of the loop for one-unit brackets. *)
Lemma findMatchingBracketLoop_step (n : nat) (a rest : string) (x o c : ascii)
    (b : Z) :
  let text := (a ++ String x rest)%string in
  let next := findMatchingBracketLoop n text (jsLength a + 1)
                (String o "") (String c "") in
  findMatchingBracketLoop (S n) text (jsLength a) (String o "") (String c "") b =
  if Ascii.eqb x o then next (b + 1)
  else if Ascii.eqb x c then (if b - 1 =? 0 then jsLength a else next (b - 1))
  else next b.
Proof.
  cbv zeta. cbn [findMatchingBracketLoop].
  change (jsLength (String o "")) with 1. change (jsLength (String c "")) with 1.
  rewrite jsSlice_unit. cbn [String.eqb].
  destruct (Ascii.eqb x o); [reflexivity |].
  destruct (Ascii.eqb x c); reflexivity.
Qed.

Lemma depthOf_append (o c : ascii) (u v : string) :
  depthOf o c (u ++ v) = depthOf o c u + depthOf o c v.
Proof.
  induction u as [| x u IH]; [reflexivity |].
  rewrite append_cons. cbn [depthOf]. rewrite IH. lia.
Qed.

Lemma jsLength_String (x : ascii) (s : string) :
  jsLength (String x s) = 1 + jsLength s.
Proof.
  unfold jsLength. cbn [String.length]. lia.
Qed.

Lemma depthOf_cons (o c x : ascii) (w : string) :
  depthOf o c (String x w) = depthOf o c (String x "") + depthOf o c w.
Proof.
  cbn [depthOf]. lia.
Qed.

Lemma depthOf_close (o c : ascii) : o <> c -> depthOf o c (String c "") = -1.
Proof.
  intros Hoc. cbn [depthOf]. rewrite Ascii.eqb_refl.
  destruct (Ascii.eqb_spec c o); [congruence | reflexivity].
Qed.

Lemma closesAfter_nil (o c : ascii) (b : Z) :
  o <> c -> (closesAfter o c b "" <-> b - 1 = 0).
Proof.
  intros Hoc. unfold closesAfter. rewrite append_empty_l, depthOf_close by exact Hoc.
  split; [intros [H _]; lia | intros H; split; [lia |]].
  intros [| y w1] w2 E; discriminate.
Qed.

Lemma closesAfter_cons (o c x : ascii) (b : Z) (w : string) :
  o <> c ->
  (closesAfter o c b (String x w)
   <-> (x = c -> b - 1 <> 0)
       /\ closesAfter o c (b + depthOf o c (String x "")) w).
Proof.
  intros Hoc. unfold closesAfter. rewrite append_cons, depthOf_cons. split.
  - intros [H1 H2]. split; [| split; [lia |]].
    + intros ->. specialize (H2 ""%string w).
      rewrite !append_empty_l, depthOf_close in H2 by exact Hoc.
      specialize (H2 eq_refl). lia.
    + intros w1 w2 E. specialize (H2 (String x w1) w2).
      rewrite !append_cons, depthOf_cons in H2. rewrite <- E in H2.
      specialize (H2 eq_refl). lia.
  - intros [Hx [H1 H2]]. split; [lia |].
    intros [| y w1] w2 E.
    + rewrite append_empty_l in E. injection E as E _.
      rewrite append_empty_l, depthOf_close by exact Hoc.
      specialize (Hx E). lia.
    + rewrite append_cons in E. injection E as <- E.
      rewrite append_cons, depthOf_cons.
      specialize (H2 w1 w2 E). lia.
Qed.

(** The loop over [w], a closing bracket and [post], entered at depth
    [b], returns the offset of that closing bracket exactly when the
    depth returns to zero there and at no closing bracket of [w]. *)
Lemma findMatchingBracketLoop_first_balanced (o c : ascii) :
  o <> c ->
  forall (w pre post : string) (b : Z),
    findMatchingBracketLoop (String.length w + S (String.length post))
      (pre ++ w ++ String c post) (jsLength pre) (String o "") (String c "") b
    = jsLength pre + jsLength w
    <-> closesAfter o c b w.
Proof.
  intros Hoc. induction w as [| x w IH]; intros pre post b.
  - rewrite append_empty_l, closesAfter_nil by exact Hoc.
    cbn [String.length Nat.add].
    rewrite findMatchingBracketLoop_step.
    destruct (Ascii.eqb_spec c o) as [E | _]; [congruence |].
    rewrite Ascii.eqb_refl. change (jsLength "") with 0.
    destruct (Z.eqb_spec (b - 1) 0) as [Hb | Hb]; [split; intros; lia |].
    pose proof (findMatchingBracketLoop_range (String.length post)
                  (pre ++ String c post) (jsLength pre + 1)
                  (String o "") (String c "") (b - 1)) as Hr.
    cbv zeta in Hr. pose proof (jsLength_nonneg pre).
    split; intros Hres; lia.
  - rewrite closesAfter_cons by exact Hoc.
    rewrite append_cons. cbn [String.length Nat.add].
    rewrite findMatchingBracketLoop_step.
    assert (Htext : (pre ++ String x (w ++ String c post))%string
                    = ((pre ++ String x "") ++ w ++ String c post)%string).
    { rewrite append_assoc. reflexivity. }
    assert (Hlen : jsLength pre + 1 = jsLength (pre ++ String x "")).
    { rewrite jsLength_append. reflexivity. }
    rewrite jsLength_String.
    replace (jsLength pre + (1 + jsLength w))
      with (jsLength (pre ++ String x "") + jsLength w) by lia.
    cbn [depthOf]. pose proof (jsLength_nonneg w).
    destruct (Ascii.eqb_spec x o) as [Exo | Exo].
    + rewrite Htext, Hlen, IH. rewrite Z.add_0_r.
      split; [intros Hc; split; [congruence | exact Hc] | intros [_ Hc]; exact Hc].
    + destruct (Ascii.eqb_spec x c) as [Exc | Exc].
      * destruct (Z.eqb_spec (b - 1) 0) as [Hb | Hb].
        -- split; [intros Hres; lia | intros [Hx _]; specialize (Hx Exc); lia].
        -- rewrite Htext, Hlen, IH.
           replace (b + (-1 + 0)) with (b - 1) by lia.
           split; [intros Hc; split; [intros _; exact Hb | exact Hc]
                  | intros [_ Hc]; exact Hc].
      * rewrite Htext, Hlen, IH. rewrite !Z.add_0_r.
        split; [intros Hc; split; [congruence | exact Hc] | intros [_ Hc]; exact Hc].
Qed.

Lemma jsSlice_split (s : string) (r : Z) (c : ascii) :
  0 <= r -> jsSlice s r (r + 1) = String c "" ->
  exists p q, s = (p ++ String c q)%string /\ jsLength p = r.
Proof.
  intros Hr Hs. unfold jsSlice in Hs.
  destruct (Z.ltb_spec r 0); [lia |].
  destruct (Z.ltb_spec (r + 1) 0); [lia |].
  pose proof (jsLength_nonneg s).
  destruct (Z_lt_le_dec r (jsLength s)) as [Hlt | Hge].
  - replace (Z.min r (jsLength s)) with r in Hs by lia.
    replace (Z.min (r + 1) (jsLength s)) with (r + 1) in Hs by lia.
    replace (Z.to_nat (Z.max (r + 1 - r) 0)) with 1%nat in Hs by lia.
    destruct (substring_split (Z.to_nat r) 1 s _ Hs eq_refl ltac:(lia))
      as (p & q & -> & Hp).
    exists p, q. split; [reflexivity |]. unfold jsLength. lia.
  - replace (Z.min r (jsLength s)) with (jsLength s) in Hs by lia.
    replace (Z.min (r + 1) (jsLength s)) with (jsLength s) in Hs by lia.
    rewrite Z.sub_diag in Hs. cbn [Z.max Z.to_nat] in Hs.
    rewrite substring_zero in Hs. discriminate.
Qed.

Lemma append_eq_split (a s p t : string) :
  (a ++ s)%string = (p ++ t)%string ->
  (String.length a <= String.length p)%nat ->
  exists m, p = (a ++ m)%string /\ s = (m ++ t)%string.
Proof.
  revert p. induction a as [| x a IH]; intros p E Hlen.
  - exists p. rewrite append_empty_l in *. auto.
  - destruct p as [| y p]; [simpl in Hlen; lia |].
    rewrite !append_cons in E. injection E as <- E.
    simpl in Hlen. destruct (IH p E ltac:(lia)) as (m & -> & ->).
    exists m. rewrite append_cons. auto.
Qed.

(** The closing bracket after [w] is found exactly when it is the first
    one at which the depth is back at zero. *)
Lemma findMatchingBracket_closes_iff (o c : ascii) (pre w post : string) :
  o <> c ->
  (findMatchingBracket (pre ++ w ++ String c post) (jsLength pre)
     (String o "") (String c "") false None
   = jsLength pre + jsLength w
   <-> closesAfter o c 0 w).
Proof.
  intros Hoc.
  rewrite <- (findMatchingBracketLoop_first_balanced o c Hoc w pre post 0).
  unfold findMatchingBracket, findMatchingBracketForward.
  rewrite !jsLength_append, jsLength_String.
  replace (Z.to_nat (jsLength pre + (jsLength w + (1 + jsLength post)) - jsLength pre))
    with (String.length w + S (String.length post))%nat
    by (unfold jsLength; lia).
  reflexivity.
Qed.

(** X9: for one-unit brackets, a forward search from the end of [pre]
    returns the offset of a closing bracket exactly when that bracket is
    the first one at which the depth, counted from the start of the
    search, is back at zero; it returns -1 exactly when the text after
    [pre] has no such closing bracket. *)
Theorem findMatchingBracket_first_balanced (o c : ascii) (pre s : string) :
  o <> c ->
  let r := findMatchingBracket (pre ++ s) (jsLength pre)
             (String o "") (String c "") false None in
  (forall w post : string, s = (w ++ String c post)%string ->
     (r = jsLength pre + jsLength w <-> closesAfter o c 0 w))
  /\ (r = -1 <->
      forall w post : string, s = (w ++ String c post)%string ->
        ~ closesAfter o c 0 w).
Proof.
  intros Hoc. cbv zeta.
  assert (Hfirst : forall w post : string, s = (w ++ String c post)%string ->
            (findMatchingBracket (pre ++ s) (jsLength pre)
               (String o "") (String c "") false None
             = jsLength pre + jsLength w <-> closesAfter o c 0 w)).
  { intros w post ->. apply findMatchingBracket_closes_iff. exact Hoc. }
  split; [exact Hfirst |].
  pose proof (jsLength_nonneg pre) as Hpre. split.
  - intros Hr w post Hs Hc. apply (Hfirst w post Hs) in Hc.
    pose proof (jsLength_nonneg w). lia.
  - intros Hnone.
    destruct (findMatchingBracket_sound_one (pre ++ s) (jsLength pre) o c)
      as [Hr | (Hrange & Hclose)]; [exact Hr | exfalso].
    set (r := findMatchingBracket (pre ++ s) (jsLength pre)
                (String o "") (String c "") false None) in *.
    destruct (jsSlice_split (pre ++ s) r c ltac:(lia) Hclose) as (p & q & E & Hp).
    destruct (append_eq_split pre s p (String c q) E
                ltac:(unfold jsLength in *; lia)) as (m & -> & Hs).
    apply (Hnone m q Hs). apply (Hfirst m q Hs).
    rewrite <- Hp, jsLength_append. reflexivity.
Qed.

Lemma findMatchingBracket_first_balanced_witness :
  findMatchingBracket "\frac{a{b}}{c}" 5 "{" "}" false None = 10
  <-> closesAfter "{" "}" 0 "{a{b}".
Proof.
  refine (proj1 (findMatchingBracket_first_balanced "{" "}" "\frac" "{a{b}}{c}" _)
            "{a{b}" "{c}" eq_refl).
  discriminate.
Defined.

(** ** [reverse] and the backward search *)

Lemma string_of_list_ascii_app (l1 l2 : list ascii) :
  string_of_list_ascii (l1 ++ l2)
  = (string_of_list_ascii l1 ++ string_of_list_ascii l2)%string.
Proof.
  induction l1 as [| x l1 IH]; [reflexivity |].
  cbn [app string_of_list_ascii]. rewrite append_cons, IH. reflexivity.
Qed.

Lemma list_ascii_of_string_app (a b : string) :
  list_ascii_of_string (a ++ b)
  = list_ascii_of_string a ++ list_ascii_of_string b.
Proof.
  induction a as [| x a IH]; [reflexivity |].
  rewrite append_cons. cbn [list_ascii_of_string app]. rewrite IH. reflexivity.
Qed.

Lemma reverse_append (a b : string) :
  reverse (a ++ b) = (reverse b ++ reverse a)%string.
Proof.
  unfold reverse.
  rewrite list_ascii_of_string_app, rev_app_distr, string_of_list_ascii_app.
  reflexivity.
Qed.

Lemma reverse_cons (x : ascii) (s : string) :
  reverse (String x s) = (reverse s ++ String x "")%string.
Proof.
  change (String x s) with (String x "" ++ s)%string.
  rewrite reverse_append. reflexivity.
Qed.

Lemma reverse_reverse (s : string) : reverse (reverse s) = s.
Proof.
  unfold reverse.
  rewrite list_ascii_of_string_of_list_ascii, rev_involutive.
  apply string_of_list_ascii_of_string.
Qed.

Lemma length_reverse (s : string) : String.length (reverse s) = String.length s.
Proof.
  induction s as [| x s IH]; [reflexivity |].
  rewrite reverse_cons, length_append, IH. simpl. lia.
Qed.

Lemma jsLength_reverse (s : string) : jsLength (reverse s) = jsLength s.
Proof.
  unfold jsLength. now rewrite length_reverse.
Qed.

Lemma depthOf_reverse (o c : ascii) (s : string) :
  depthOf o c (reverse s) = depthOf o c s.
Proof.
  induction s as [| x s IH]; [reflexivity |].
  rewrite reverse_cons, depthOf_append, IH, (depthOf_cons o c x s). lia.
Qed.

Lemma depthOf_swap (o c : ascii) (s : string) :
  o <> c -> depthOf c o s = - depthOf o c s.
Proof.
  intros Hoc. induction s as [| x s IH]; [reflexivity |].
  cbn [depthOf]. rewrite IH.
  destruct (Ascii.eqb_spec x c) as [Ec | Hc];
    destruct (Ascii.eqb_spec x o) as [Eo | Ho]; try lia.
  congruence.
Qed.

(** While no closing bracket brings the depth to zero, the depth stays
    positive. *)
Lemma depth_stays_positive (o c : ascii) :
  o <> c ->
  forall (w : string) (b : Z),
    1 <= b ->
    (forall w1 w2 : string, w = (w1 ++ String c w2)%string ->
       b + depthOf o c (w1 ++ String c "") <> 0) ->
    forall w1 w2 : string, w = (w1 ++ w2)%string -> 1 <= b + depthOf o c w1.
Proof.
  intros Hoc. induction w as [| x w IH]; intros b Hb Hno w1 w2 E.
  - destruct w1; [cbn [depthOf]; lia | discriminate].
  - destruct w1 as [| y w1]; [cbn [depthOf]; lia |].
    rewrite append_cons in E. injection E as Hxy E. subst y.
    rewrite depthOf_cons, Z.add_assoc.
    apply (IH (b + depthOf o c (String x "")) ) with (w2 := w2).
    + cbn [depthOf].
      destruct (Ascii.eqb_spec x o); [lia |].
      destruct (Ascii.eqb_spec x c) as [-> |]; [| lia].
      specialize (Hno ""%string w).
      rewrite !append_empty_l, depthOf_close in Hno by exact Hoc.
      specialize (Hno eq_refl). lia.
    + intros v1 v2 Ev. specialize (Hno (String x v1) v2).
      rewrite !append_cons, depthOf_cons in Hno. rewrite <- Ev in Hno.
      specialize (Hno eq_refl). lia.
    + exact E.
Qed.

(** X10: for one-unit brackets, when a forward search that starts at an
    opening bracket finds its closing bracket, the backward search from
    that closing bracket returns the offset of the opening bracket. *)
Theorem findMatchingBracket_round_trip (o c : ascii) (text : string) (start : Z) :
  o <> c ->
  jsCharAt text start = String o "" ->
  let r := findMatchingBracket text start (String o "") (String c "") false None in
  r <> -1 ->
  findMatchingBracket text r (String o "") (String c "") true None = start.
Proof.
  intros Hoc Hopen r Hr.
  destruct (jsCharAt_split text start o Hopen) as (a & b0 & Htext & Ha).
  pose proof (jsLength_nonneg a) as Hann.
  destruct (findMatchingBracket_sound_one text start o c) as [H | (Hrange & Hclose)];
    [contradiction |].
  fold r in Hrange, Hclose.
  destruct (jsSlice_split text r c ltac:(lia) Hclose) as (p & post & Hp & Hpr).
  assert (Hne : r <> start).
  { intros E. rewrite E, Htext, <- Ha, jsSlice_unit in Hclose.
    injection Hclose as E'. congruence. }
  rewrite Htext in Hp.
  destruct (append_eq_split a (String o b0) p (String c post) Hp
              ltac:(unfold jsLength in *; lia)) as (m & -> & Hb0).
  rewrite jsLength_append in Hpr.
  destruct m as [| y w].
  { change (jsLength "") with 0 in Hpr. lia. }
  rewrite append_cons in Hb0. injection Hb0 as <- Hb0.
  assert (Hwhole : text = (a ++ String o w ++ String c post)%string).
  { rewrite Htext, Hb0. reflexivity. }
  (* what the forward search says about the content *)
  pose proof (findMatchingBracket_closes_iff o c a (String o w) post Hoc) as Hbal.
  rewrite <- Hwhole, Ha in Hbal. fold r in Hbal.
  assert (Hc : closesAfter o c 0 (String o w)) by (apply Hbal; lia).
  apply closesAfter_cons in Hc; [| exact Hoc]. destruct Hc as [_ [Hzero Hno]].
  assert (Hdo : depthOf o c (String o "") = 1).
  { cbn [depthOf]. rewrite Ascii.eqb_refl. reflexivity. }
  rewrite Hdo in Hzero, Hno. rewrite depthOf_append, depthOf_close in Hzero by exact Hoc.
  pose proof (depth_stays_positive o c Hoc w (0 + 1) ltac:(lia) Hno) as Hpos.
  (* the backward search *)
  unfold findMatchingBracket, findMatchingBracketForward.
  change (reverse (String c "")) with (String c "").
  change (reverse (String o "")) with (String o "").
  change (jsLength (String c "")) with 1. change (jsLength (String o "")) with 1.
  rewrite jsLength_reverse.
  assert (Hrev : reverse text
                 = (reverse post ++ String c (reverse w) ++ String o (reverse a))%string).
  { rewrite Hwhole, reverse_append, append_cons, reverse_cons, reverse_append,
      reverse_cons, !append_assoc. reflexivity. }
  assert (Hlen : jsLength text = jsLength a + jsLength w + jsLength post + 2).
  { rewrite Hwhole, jsLength_append, append_cons, jsLength_String, jsLength_append,
      jsLength_String. lia. }
  assert (Hr' : r = jsLength a + 1 + jsLength w).
  { rewrite jsLength_String in Hpr. lia. }
  assert (Hloop :
    findMatchingBracketLoop
      (Z.to_nat (jsLength text - (jsLength text - (r + 1)))) (reverse text)
      (jsLength text - (r + 1)) (String c "") (String o "") 0
    = jsLength (reverse post) + jsLength (String c (reverse w))).
  { rewrite Hrev.
    replace (jsLength text - (r + 1)) with (jsLength (reverse post))
      by (rewrite jsLength_reverse; lia).
    replace (Z.to_nat (jsLength text - jsLength (reverse post)))
      with (String.length (String c (reverse w)) + S (String.length (reverse a)))%nat.
    2: { rewrite jsLength_reverse. cbn [String.length].
         rewrite !length_reverse. unfold jsLength in *. lia. }
    apply (findMatchingBracketLoop_first_balanced c o ltac:(congruence)).
    apply closesAfter_cons; [congruence |].
    split; [intros E; congruence |].
    assert (Hdc : depthOf c o (String c "") = 1).
    { cbn [depthOf]. rewrite Ascii.eqb_refl. reflexivity. }
    rewrite Hdc. split.
    - rewrite depthOf_append, depthOf_close by congruence.
      rewrite depthOf_swap, depthOf_reverse by exact Hoc. lia.
    - intros v1 v2 Ev.
      rewrite depthOf_append, depthOf_close by congruence.
      rewrite depthOf_swap by exact Hoc.
      assert (Hw : w = (reverse v2 ++ String o (reverse v1))%string).
      { rewrite <- (reverse_reverse w), Ev, reverse_append, reverse_cons,
          append_assoc. reflexivity. }
      specialize (Hpos (reverse v2) (String o (reverse v1)) Hw).
      rewrite Hw, depthOf_append, depthOf_cons, Hdo, !depthOf_reverse in Hzero.
      rewrite depthOf_reverse in Hpos. lia. }
  rewrite Hloop. rewrite jsLength_reverse, jsLength_String, jsLength_reverse.
  pose proof (jsLength_nonneg post). pose proof (jsLength_nonneg w).
  destruct (Z.eqb_spec (jsLength post + (1 + jsLength w)) (-1)); lia.
Qed.

Lemma findMatchingBracket_round_trip_witness :
  findMatchingBracket "f(a(b)c)d" 1 "(" ")" false None = 7
  /\ findMatchingBracket "f(a(b)c)d" 7 "(" ")" true None = 1.
Proof.
  split; [reflexivity |].
  apply (findMatchingBracket_round_trip "(" ")" "f(a(b)c)d" 1);
    [discriminate | reflexivity | vm_compute; discriminate].
Defined.

Lemma string_split_at (s : string) (n : nat) :
  (n < String.length s)%nat ->
  exists p x q, s = (p ++ String x q)%string /\ String.length p = n.
Proof.
  revert n. induction s as [| y s IH]; intros n Hn; [simpl in Hn; lia |].
  destruct n as [| n].
  - exists ""%string, y, s. split; reflexivity.
  - simpl in Hn. destruct (IH n ltac:(lia)) as (p & x & q & -> & Hp).
    exists (String y p), x, q. rewrite append_cons. simpl. auto.
Qed.

(** X11: [reverse] is an involution that keeps the length and mirrors
    the units: the unit at offset [i] of the reversed string is the unit
    at offset [length - 1 - i] of the string. *)
Theorem reverse_mirrors_units (s : string) :
  reverse (reverse s) = s
  /\ jsLength (reverse s) = jsLength s
  /\ forall i : Z, jsCharAt (reverse s) i = jsCharAt s (jsLength s - 1 - i).
Proof.
  split; [apply reverse_reverse | split; [apply jsLength_reverse |]].
  intros i.
  destruct (Z_lt_le_dec i 0) as [Hneg | Hnn].
  { unfold jsCharAt. rewrite jsLength_reverse.
    destruct (Z.leb_spec 0 i); [lia |].
    destruct (Z.ltb_spec (jsLength s - 1 - i) (jsLength s)); [lia |].
    now rewrite andb_false_r. }
  destruct (Z_lt_le_dec i (jsLength s)) as [Hlt | Hge].
  2: { unfold jsCharAt. rewrite jsLength_reverse.
       destruct (Z.ltb_spec i (jsLength s)); [lia |].
       destruct (Z.leb_spec 0 (jsLength s - 1 - i)); [lia |].
       now rewrite andb_false_r. }
  destruct (string_split_at s (Z.to_nat (jsLength s - 1 - i))
              ltac:(unfold jsLength in *; lia)) as (p & x & q & -> & Hp).
  assert (Hi : i = jsLength (reverse q)).
  { rewrite jsLength_reverse. rewrite jsLength_append, jsLength_String in *.
    unfold jsLength in *. lia. }
  assert (Hj : jsLength (p ++ String x q) - 1 - i = jsLength p).
  { rewrite jsLength_append, jsLength_String in *. unfold jsLength in *. lia. }
  rewrite Hj, jsCharAt_unit, reverse_append, reverse_cons, append_assoc, Hi.
  apply jsCharAt_unit.
Qed.

(** ** The bracket tables *)

(** X12: the two bracket tables are inverse to each other, and every
    pair that they hold is one of the three pairs of distinct one-unit
    brackets. *)
Theorem bracket_tables_inverse (o c : string) :
  (getCloseBracket o = Some c <-> getOpenBracket c = Some o)
  /\ (getCloseBracket o = Some c ->
      In (o, c) [("(", ")"); ("[", "]"); ("{", "}")]
      /\ o <> c /\ jsLength o = 1 /\ jsLength c = 1).
Proof.
  unfold getCloseBracket, getOpenBracket. cbv zeta. cbn [lookupSymbol].
  destruct (String.eqb_spec "(" o) as [<- | Ho1].
  { split.
    - split; [intros [= <-]; reflexivity |].
      destruct (String.eqb_spec ")" c) as [<- | ?]; [reflexivity |].
      destruct (String.eqb_spec "]" c) as [<- | ?]; [discriminate |].
      destruct (String.eqb_spec "}" c) as [<- | ?]; discriminate.
    - intros [= <-]. cbn. repeat split; auto; discriminate. }
  destruct (String.eqb_spec "[" o) as [<- | Ho2].
  { split.
    - split; [intros [= <-]; reflexivity |].
      destruct (String.eqb_spec ")" c) as [<- | ?]; [discriminate |].
      destruct (String.eqb_spec "]" c) as [<- | ?]; [reflexivity |].
      destruct (String.eqb_spec "}" c) as [<- | ?]; discriminate.
    - intros [= <-]. cbn. repeat split; auto; discriminate. }
  destruct (String.eqb_spec "{" o) as [<- | Ho3].
  { split.
    - split; [intros [= <-]; reflexivity |].
      destruct (String.eqb_spec ")" c) as [<- | ?]; [discriminate |].
      destruct (String.eqb_spec "]" c) as [<- | ?]; [discriminate |].
      destruct (String.eqb_spec "}" c) as [<- | ?]; [reflexivity | discriminate].
    - intros [= <-]. cbn. repeat split; auto; discriminate. }
  split; [| discriminate].
  split; [discriminate |].
  destruct (String.eqb_spec ")" c) as [<- | ?]; [intros [= <-]; congruence |].
  destruct (String.eqb_spec "]" c) as [<- | ?]; [intros [= <-]; congruence |].
  destruct (String.eqb_spec "}" c) as [<- | ?]; [intros [= <-]; congruence |].
  discriminate.
Qed.

(** ** [escapeRegex] *)

Lemma mapUnits_append (f : ascii -> string) (a b : string) :
  mapUnits f (a ++ b) = (mapUnits f a ++ mapUnits f b)%string.
Proof.
  induction a as [| x a IH]; [reflexivity |].
  rewrite append_cons. cbn [mapUnits]. rewrite IH, append_assoc. reflexivity.
Qed.

Lemma mapUnits_mapUnits (f g : ascii -> string) (s : string) :
  mapUnits f (mapUnits g s) = mapUnits (fun x => mapUnits f (g x)) s.
Proof.
  induction s as [| x s IH]; [reflexivity |].
  cbn [mapUnits]. rewrite mapUnits_append, IH. reflexivity.
Qed.

Lemma mapUnits_ext (f g : ascii -> string) (s : string) :
  (forall x, f x = g x) -> mapUnits f s = mapUnits g s.
Proof.
  intros H. induction s as [| x s IH]; [reflexivity |].
  cbn [mapUnits]. rewrite H, IH. reflexivity.
Qed.

(** Replacing every occurrence of a one-unit pattern replaces each unit
    by itself. *)
Lemma jsReplaceAll_unit (a : ascii) (replacement s : string) :
  jsReplaceAll s (String a "") replacement
  = mapUnits (fun x => if Ascii.eqb a x then replacement else String x "") s.
Proof.
  unfold jsReplaceAll. induction s as [| x s IH]; [reflexivity |].
  cbn [replaceAllFrom stripPrefix mapUnits String.length].
  destruct (Ascii.eqb a x).
  - rewrite IH. reflexivity.
  - rewrite IH. reflexivity.
Qed.

(** X13: [escapeRegex] puts exactly one backslash before each backslash,
    parenthesis, plus, minus, square bracket and brace of the string and
    leaves every other unit as it is; the backslashes that it adds are
    not escaped again. *)
Theorem escapeRegex_unitwise (regex : string) :
  escapeRegex regex = mapUnits escapeUnit regex.
Proof.
  unfold escapeRegex, escapeChars, backslash. cbn [fold_left].
  rewrite !jsReplaceAll_unit, !mapUnits_mapUnits.
  apply mapUnits_ext.
  intros [[] [] [] [] [] [] [] []]; reflexivity.
Qed.

(** ** Units of a string by offset *)

Lemma substring_1_get (s : string) (n : nat) :
  String.substring n 1 s
  = match String.get n s with
    | Some c => String c ""
    | None => ""
    end.
Proof.
  revert n. induction s as [| x s IH]; intros [| n]; cbn [String.substring String.get];
    try reflexivity.
  - now rewrite substring_zero.
  - apply IH.
Qed.

Lemma get_None (s : string) (n : nat) :
  (String.length s <= n)%nat -> String.get n s = None.
Proof.
  revert n. induction s as [| x s IH]; intros n Hn; [destruct n; reflexivity |].
  destruct n as [| n]; simpl in *; [lia | apply IH; lia].
Qed.

Lemma get_Some_lt (s : string) (n : nat) (c : ascii) :
  String.get n s = Some c -> (n < String.length s)%nat.
Proof.
  intros H. destruct (Nat.lt_ge_cases n (String.length s)) as [Hlt | Hge];
    [exact Hlt |].
  rewrite get_None in H by exact Hge. discriminate.
Qed.

(** [charAt] reads the unit [c] at [i] exactly when [i] is an offset of
    the string at which [c] stands. *)
Lemma jsCharAt_get (s : string) (i : Z) (c : ascii) :
  jsCharAt s i = String c "" <-> 0 <= i /\ String.get (Z.to_nat i) s = Some c.
Proof.
  unfold jsCharAt. rewrite substring_1_get.
  destruct (Z.leb_spec 0 i) as [Hi | Hi]; cbn [andb].
  2: { split; [discriminate | intros [H _]; lia]. }
  destruct (Z.ltb_spec i (jsLength s)) as [Hlt | Hge].
  - destruct (String.get (Z.to_nat i) s) as [x |].
    + split; [intros [= ->]; auto | intros [_ [= ->]]; reflexivity].
    + split; [discriminate | intros [_ H]; discriminate].
  - split; [discriminate |]. intros [_ H]. apply get_Some_lt in H.
    unfold jsLength in Hge. lia.
Qed.

(** ** [indexOf] and [lastIndexOf] with a one-unit pattern *)

Lemma indexOfFrom_unit (a : ascii) (s : string) (pos skip : nat) :
  let r := indexOfFrom (String a "") s pos skip in
  (r = -1 /\ forall n, (skip <= n)%nat -> String.get n s <> Some a)
  \/ (exists n, r = Z.of_nat (pos + n) /\ (skip <= n)%nat
                /\ String.get n s = Some a
                /\ forall m, (skip <= m < n)%nat -> String.get m s <> Some a).
Proof.
  cbv zeta. revert pos skip. induction s as [| x s IH]; intros pos skip.
  - left. destruct skip; cbn; (split; [reflexivity |]);
      intros n _; destruct n; discriminate.
  - destruct skip as [| skip]; cbn [indexOfFrom stripPrefix].
    + destruct (Ascii.eqb_spec a x) as [<- | Hne].
      * right. exists 0%nat. rewrite Nat.add_0_r.
        repeat split; auto. intros m Hm. lia.
      * destruct (IH (S pos) 0%nat) as [[Hr Hno] | (n & Hr & _ & Hget & Hno)].
        -- left. split; [exact Hr |]. intros [| n] _; cbn [String.get].
           ++ congruence.
           ++ apply Hno. lia.
        -- right. exists (S n). split; [rewrite Hr; f_equal; lia |].
           split; [lia |]. split; [exact Hget |].
           intros [| m] Hm; cbn [String.get]; [congruence | apply Hno; lia].
    + destruct (IH (S pos) skip) as [[Hr Hno] | (n & Hr & Hsk & Hget & Hno)].
      * left. split; [exact Hr |]. intros [| n] Hn; [lia |].
        cbn [String.get]. apply Hno. lia.
      * right. exists (S n). split; [rewrite Hr; f_equal; lia |].
        split; [lia |]. split; [exact Hget |].
        intros [| m] Hm; [lia |]. cbn [String.get]. apply Hno. lia.
Qed.

Lemma lastIndexOfUpTo_unit (a : ascii) (n : nat) :
  forall (s : string) (pos : nat) (last : Z),
    let r := lastIndexOfUpTo (String a "") s pos n last in
    (r = last /\ forall m, (m < n)%nat -> String.get m s <> Some a)
    \/ (exists m, r = Z.of_nat (pos + m) /\ (m < n)%nat
                  /\ String.get m s = Some a
                  /\ forall k, (m < k < n)%nat -> String.get k s <> Some a).
Proof.
  cbv zeta. induction n as [| n IH]; intros s pos last.
  - left. split; [reflexivity | intros m Hm; lia].
  - cbn [lastIndexOfUpTo stripPrefix]. destruct s as [| x s].
    + left. split; [reflexivity |]. intros m _. destruct m; discriminate.
    + destruct (Ascii.eqb_spec a x) as [<- | Hne].
      * destruct (IH s (S pos) (Z.of_nat pos))
          as [[Hr Hno] | (m & Hr & Hm & Hget & Hno)].
        -- right. exists 0%nat. rewrite Nat.add_0_r.
           split; [exact Hr |]. split; [lia |]. split; [reflexivity |].
           intros [| k] Hk; [lia |]. cbn [String.get]. apply Hno. lia.
        -- right. exists (S m). split; [rewrite Hr; f_equal; lia |].
           split; [lia |]. split; [exact Hget |].
           intros [| k] Hk; [lia |]. cbn [String.get]. apply Hno. lia.
      * destruct (IH s (S pos) last)
          as [[Hr Hno] | (m & Hr & Hm & Hget & Hno)].
        -- left. split; [exact Hr |]. intros [| m] Hm; cbn [String.get];
             [congruence | apply Hno; lia].
        -- right. exists (S m). split; [rewrite Hr; f_equal; lia |].
           split; [lia |]. split; [exact Hget |].
           intros [| k] Hk; [lia |]. cbn [String.get]. apply Hno. lia.
Qed.

(** ** The escaped dollar signs *)

Lemma ignoreEscapedDollars_cons (x : ascii) (s : string) :
  ignoreEscapedDollars (String x s)
  = match s with
    | String y s' =>
        if Ascii.eqb "092" x && Ascii.eqb "$" y
        then String "092" (String "R" (ignoreEscapedDollars s'))
        else String x (ignoreEscapedDollars s)
    | EmptyString => String x ""
    end.
Proof.
  unfold ignoreEscapedDollars, jsReplaceAll.
  change (backslash ++ "$")%string with "\$"%string.
  change (backslash ++ "R")%string with "\R"%string.
  cbn [replaceAllFrom stripPrefix String.length].
  destruct (Ascii.eqb "092" x); [| destruct s; reflexivity].
  destruct s as [| y s']; [reflexivity |].
  destruct (Ascii.eqb "$" y); reflexivity.
Qed.

(** Ignoring the escaped dollar signs keeps the length; a dollar sign of
    the result is a dollar sign of the text, and a dollar sign of the
    text that is not one of the result follows a backslash. *)
Lemma ignoreEscapedDollars_units (k : nat) :
  forall s : string, (String.length s <= k)%nat ->
    String.length (ignoreEscapedDollars s) = String.length s
    /\ (forall n, String.get n (ignoreEscapedDollars s) = Some "$"%char ->
          String.get n s = Some "$"%char)
    /\ (forall n, String.get n s = Some "$"%char ->
          String.get n (ignoreEscapedDollars s) <> Some "$"%char ->
          exists m, n = S m /\ String.get m s = Some "092"%char).
Proof.
  induction k as [| k IH]; intros s Hk.
  - destruct s; [| simpl in Hk; lia].
    split; [reflexivity |]. split; intros n H; destruct n; discriminate.
  - destruct s as [| x s]; [apply (IH ""%string); simpl; lia |].
    rewrite ignoreEscapedDollars_cons.
    destruct s as [| y s'].
    { split; [reflexivity |]. split; [auto |]. intros n H Hn. contradiction. }
    simpl in Hk.
    destruct (Ascii.eqb_spec "092" x) as [<- | Hx]; cbn [andb].
    + destruct (Ascii.eqb_spec "$" y) as [<- | Hy].
      * destruct (IH s' ltac:(lia)) as (Hlen & Hin & Hout).
        split; [cbn [String.length]; lia |]. split.
        -- intros [| [| n]] H; cbn [String.get] in *; try discriminate.
           apply Hin, H.
        -- intros [| [| n]] H Hn; cbn [String.get] in *; try discriminate.
           ++ exists 0%nat. split; reflexivity.
           ++ destruct (Hout n H Hn) as (m & -> & Hm).
              exists (S (S m)). split; reflexivity || exact Hm.
      * destruct (IH (String y s') ltac:(simpl; lia)) as (Hlen & Hin & Hout).
        split; [cbn [String.length] in *; lia |]. split.
        -- intros [| n] H; cbn [String.get] in *; [discriminate | apply Hin, H].
        -- intros [| n] H Hn; cbn [String.get] in *; [discriminate |].
           destruct (Hout n H Hn) as (m & -> & Hm).
           exists (S m). split; reflexivity || exact Hm.
    + destruct (IH (String y s') ltac:(simpl; lia)) as (Hlen & Hin & Hout).
      split; [cbn [String.length] in *; lia |]. split.
      * intros [| n] H; cbn [String.get] in *; [exact H | apply Hin, H].
      * intros [| n] H Hn; cbn [String.get] in *; [contradiction |].
        destruct (Hout n H Hn) as (m & -> & Hm).
        exists (S m). split; reflexivity || exact Hm.
Qed.

(** ** [getEquationBounds] *)

(** X14: when [getEquationBounds] finds bounds, a dollar sign stands just
    before the start and at the end, every dollar sign from the start to
    the end follows a backslash, and for a position of at least one the
    bounds enclose the position. For a position of at most zero the
    bounds that it finds are the start one and the end zero. *)
Theorem getEquationBounds_sound (doc : string) (pos : Z) (b : Bounds) :
  getEquationBounds doc pos = Some b ->
  let s := Bounds_start b in
  let e := Bounds_end b in
  (1 <= s <= jsLength doc /\ 0 <= e < jsLength doc)
  /\ jsCharAt doc (s - 1) = "$"%string
  /\ jsCharAt doc e = "$"%string
  /\ (forall i, s <= i < e -> jsCharAt doc i = "$"%string ->
        jsCharAt doc (i - 1) = backslash)
  /\ (1 <= pos -> s <= pos <= e)
  /\ (pos <= 0 -> s = 1 /\ e = 0).
Proof.
  unfold getEquationBounds. cbv zeta.
  set (esc := ignoreEscapedDollars doc).
  destruct (ignoreEscapedDollars_units (String.length doc) doc (Nat.le_refl _))
    as (Hlen & Hin & Hout).
  fold esc in Hlen, Hin, Hout.
  unfold jsLastIndexOf, jsIndexOf. change (jsLength "$") with 1.
  set (start := Z.min (Z.max (pos - 1) 0) (jsLength esc - 1)).
  set (skip := Z.to_nat (clampIndex pos (jsLength esc))).
  assert (Hesc : jsLength esc = jsLength doc) by (unfold jsLength; lia).
  destruct (Z.ltb_spec start 0) as [Hneg | Hstart]; [discriminate |].
  destruct (lastIndexOfUpTo_unit "$" (S (Z.to_nat start)) esc 0 (-1))
    as [[Hl _] | (m & Hl & Hm & Hgetm & Hnom)].
  { cbv zeta in Hl. rewrite Hl. discriminate. }
  destruct (indexOfFrom_unit "$" esc 0 skip)
    as [[Hr _] | (n & Hr & Hn & Hgetn & Hnon)].
  { cbv zeta in Hr. rewrite Hr, orb_true_r. discriminate. }
  cbv zeta in Hl, Hr. rewrite Hl, Hr. cbn [Nat.add].
  destruct (Z.eqb_spec (Z.of_nat m) (-1)) as [Em | Em]; [lia |].
  destruct (Z.eqb_spec (Z.of_nat n) (-1)) as [En | En]; [lia |].
  cbn [orb]. intros [= <-]. cbn [Bounds_start Bounds_end].
  pose proof (get_Some_lt _ _ _ Hgetm) as Hmlt.
  pose proof (get_Some_lt _ _ _ Hgetn) as Hnlt.
  assert (Hskip : Z.of_nat skip = Z.max 0 (Z.min pos (jsLength esc))).
  { unfold skip, clampIndex. lia. }
  pose proof (jsLength_nonneg esc) as Hnn.
  split; [unfold jsLength in *; lia |].
  split.
  { apply jsCharAt_get. split; [lia |].
    replace (Z.to_nat (Z.of_nat m + 1 - 1)) with m by lia. apply Hin, Hgetm. }
  split.
  { apply jsCharAt_get. split; [lia |]. rewrite Nat2Z.id. apply Hin, Hgetn. }
  split.
  { intros i Hi Hd. apply jsCharAt_get in Hd. destruct Hd as [Hi0 Hd].
    assert (Hne : String.get (Z.to_nat i) esc <> Some "$"%char).
    { destruct (Z_le_gt_dec i start) as [Hle | Hgt].
      - apply Hnom. lia.
      - apply Hnon. unfold start in Hgt. unfold jsLength in *. lia. }
    destruct (Hout _ Hd Hne) as (k & Hk & Hgetk).
    apply jsCharAt_get. split; [lia |].
    replace (Z.to_nat (i - 1)) with k by lia. exact Hgetk. }
  split.
  { intros Hpos. unfold start in *. unfold jsLength in *. lia. }
  intros Hpos.
  assert (Hm0 : m = 0%nat) by (unfold start in *; lia).
  subst m. split; [reflexivity |].
  destruct n as [| n]; [reflexivity |].
  exfalso. apply (Hnon 0%nat); [| exact Hgetm]. lia.
Qed.

Lemma getEquationBounds_sound_witness :
  getEquationBounds "x $a\$b$ y" 4 = Some {| Bounds_start := 3; Bounds_end := 7 |}
  /\ jsCharAt "x $a\$b$ y" (3 - 1) = "$"%string
  /\ jsCharAt "x $a\$b$ y" 7 = "$"%string.
Proof.
  split; [reflexivity |].
  destruct (getEquationBounds_sound "x $a\$b$ y" 4
              {| Bounds_start := 3; Bounds_end := 7 |} eq_refl)
    as (_ & Hs & He & _).
  split; [exact Hs | exact He].
Defined.

(** X15: [getEquationBounds] finds no bounds exactly when, once the
    escaped dollar signs are ignored, no dollar sign stands at an offset
    up to the one before the position (up to offset zero for a position
    below one), or none stands at the position or after it. *)
Theorem getEquationBounds_none_iff (doc : string) (pos : Z) :
  let text := ignoreEscapedDollars doc in
  getEquationBounds doc pos = None
  <-> (forall i, 0 <= i <= Z.max (pos - 1) 0 -> jsCharAt text i <> "$"%string)
      \/ (forall i, Z.max pos 0 <= i -> jsCharAt text i <> "$"%string).
Proof.
  cbv zeta. unfold getEquationBounds. cbv zeta.
  set (esc := ignoreEscapedDollars doc).
  unfold jsLastIndexOf, jsIndexOf. change (jsLength "$") with 1.
  set (start := Z.min (Z.max (pos - 1) 0) (jsLength esc - 1)).
  set (skip := Z.to_nat (clampIndex pos (jsLength esc))).
  assert (Hskip : Z.of_nat skip = Z.max 0 (Z.min pos (jsLength esc))).
  { unfold skip, clampIndex. lia. }
  pose proof (jsLength_nonneg esc) as Hnn.
  assert (Hget : forall i, jsCharAt esc i <> "$"%string
                           <-> ~ (0 <= i /\ String.get (Z.to_nat i) esc = Some "$"%char)).
  { intros i. now rewrite jsCharAt_get. }
  destruct (Z.ltb_spec start 0) as [Hneg | Hstart].
  { cbn [Z.eqb orb]. split; [intros _ | reflexivity].
    left. intros i Hi. apply Hget. intros [_ H]. apply get_Some_lt in H.
    unfold start, jsLength in *. lia. }
  destruct (lastIndexOfUpTo_unit "$" (S (Z.to_nat start)) esc 0 (-1))
    as [[Hl Hnol] | (m & Hl & Hm & Hgetm & Hnom)]; cbv zeta in Hl; rewrite Hl.
  { cbn [Z.eqb orb]. split; [intros _ | reflexivity].
    left. intros i Hi. apply Hget. intros [_ H].
    pose proof (get_Some_lt _ _ _ H).
    apply (Hnol (Z.to_nat i)); [| exact H].
    unfold start, jsLength in *. lia. }
  destruct (Z.eqb_spec (Z.of_nat (0 + m)) (-1)) as [Em | Em]; [lia |]. cbn [orb].
  destruct (indexOfFrom_unit "$" esc 0 skip)
    as [[Hr Hnor] | (n & Hr & Hn & Hgetn & Hnon)]; cbv zeta in Hr; rewrite Hr.
  { cbn [Z.eqb]. split; [intros _ | reflexivity].
    right. intros i Hi. apply Hget. intros [_ H].
    apply (Hnor (Z.to_nat i)); [| exact H]. lia. }
  destruct (Z.eqb_spec (Z.of_nat (0 + n)) (-1)) as [En | En]; [lia |].
  split; [discriminate |].
  pose proof (get_Some_lt _ _ _ Hgetn) as Hnlt.
  intros [Hno | Hno]; exfalso.
  - apply (proj1 (Hget (Z.of_nat m))).
    + apply Hno. unfold start in *. lia.
    + rewrite Nat2Z.id. split; [lia | exact Hgetm].
  - apply (proj1 (Hget (Z.of_nat n))).
    + apply Hno. unfold jsLength in *. lia.
    + rewrite Nat2Z.id. split; [lia | exact Hgetn].
Qed.

(** ** [isWithinInlineEquation] *)

Lemma jsSlice_two (a b : string) (x : ascii) :
  jsSlice (a ++ String x b) (jsLength a) (jsLength a + 2)
  = String x (String.substring 0 1 b).
Proof.
  unfold jsSlice. rewrite jsLength_append, jsLength_String.
  pose proof (jsLength_nonneg a). pose proof (jsLength_nonneg b).
  destruct (Z.ltb_spec (jsLength a) 0); [lia |].
  destruct (Z.ltb_spec (jsLength a + 2) 0); [lia |].
  replace (Z.min (jsLength a) (jsLength a + (1 + jsLength b)))
    with (jsLength a) by lia.
  unfold jsLength at 1. rewrite Nat2Z.id.
  rewrite <- (Nat.add_0_r (String.length a)), substring_append_skip.
  destruct b as [| y b].
  - change (jsLength "") with 0.
    replace (Z.to_nat (Z.max (Z.min (jsLength a + 2) (jsLength a + (1 + 0))
                              - jsLength a) 0)) with 1%nat by lia.
    reflexivity.
  - rewrite jsLength_String. pose proof (jsLength_nonneg b).
    replace (Z.to_nat (Z.max (Z.min (jsLength a + 2)
                                (jsLength a + (1 + (1 + jsLength b)))
                              - jsLength a) 0)) with 2%nat by lia.
    cbn [String.substring]. now rewrite substring_zero.
Qed.

(** The end of the bounds is an offset of the text at which a dollar
    sign stands. *)
Lemma getEquationBounds_end (doc : string) (pos : Z) (b : Bounds) :
  getEquationBounds doc pos = Some b -> jsCharAt doc (Bounds_end b) = "$"%string.
Proof.
  unfold getEquationBounds. cbv zeta.
  destruct (ignoreEscapedDollars_units (String.length doc) doc (Nat.le_refl _))
    as (_ & Hin & _).
  destruct (_ =? -1); [discriminate |]. cbn [orb].
  unfold jsIndexOf.
  destruct (indexOfFrom_unit "$" (ignoreEscapedDollars doc) 0
              (Z.to_nat (clampIndex pos (jsLength (ignoreEscapedDollars doc)))))
    as [[Hr _] | (n & Hr & _ & Hgetn & _)]; cbv zeta in Hr; rewrite Hr.
  { discriminate. }
  destruct (Z.eqb_spec (Z.of_nat (0 + n)) (-1)) as [En | En]; [lia |].
  intros [= <-]. cbn [Bounds_end Nat.add].
  apply jsCharAt_get. split; [lia |]. rewrite Nat2Z.id. apply Hin, Hgetn.
Qed.

(** X24: [isWithinInlineEquation] answers true exactly when
    [getEquationBounds] finds bounds and the dollar sign at their end is
    not followed by another dollar sign. *)
Theorem isWithinInlineEquation_iff (doc : string) (pos : Z) :
  isWithinInlineEquation doc pos = true
  <-> exists b, getEquationBounds doc pos = Some b
                /\ jsCharAt doc (Bounds_end b + 1) <> "$"%string.
Proof.
  unfold isWithinInlineEquation.
  destruct (getEquationBounds doc pos) as [b |] eqn:E.
  2: { split; [discriminate | intros (b & H & _); discriminate]. }
  pose proof (getEquationBounds_end doc pos b E) as He.
  cbv zeta.
  destruct (jsCharAt_split doc (Bounds_end b) "$" He) as (a & rest & Hdoc & Ha).
  assert (Hnext : jsCharAt doc (Bounds_end b + 1) = String.substring 0 1 rest).
  { rewrite Hdoc, <- Ha.
    replace (a ++ String "$" rest)%string
      with ((a ++ "$") ++ rest)%string by (now rewrite append_assoc).
    replace (jsLength a + 1) with (jsLength (a ++ "$"))
      by (rewrite jsLength_append; reflexivity).
    destruct rest as [| y rest].
    - rewrite append_empty_r. unfold jsCharAt.
      rewrite Z.ltb_irrefl, andb_false_r. reflexivity.
    - rewrite jsCharAt_unit. cbn [String.substring]. now rewrite substring_zero. }
  assert (Hslice : jsSlice doc (Bounds_end b) (Bounds_end b + 2)
                   = String "$" (String.substring 0 1 rest)).
  { rewrite Hdoc, <- Ha. apply jsSlice_two. }
  rewrite Hslice.
  split.
  - intros H. exists b. split; [reflexivity |].
    rewrite Hnext. intros Hd. rewrite Hd in H. discriminate.
  - intros (b' & [= <-] & Hd). rewrite Hnext in Hd.
    destruct (String.eqb_spec (String "$" (String.substring 0 1 rest)) "$$")
      as [[= H] | _]; [contradiction | reflexivity].
Qed.

(** ** Where a match lies in the text *)

Lemma classStar_sound {R : Type} (p : ascii -> bool) (s : string) (pos : nat)
    (k : string -> nat -> option R) (res : R) :
  RegExp.classStar p s pos k = Some res ->
  exists w s', s = (w ++ s')%string
               /\ k s' (pos + String.length w)%nat = Some res.
Proof.
  revert pos. induction s as [| c s IH]; intros pos H.
  - exists ""%string, ""%string. cbn in H. rewrite Nat.add_0_r. auto.
  - cbn [RegExp.classStar] in H.
    assert (Hstop : k (String c s) pos = Some res ->
              exists w s', String c s = (w ++ s')%string
                           /\ k s' (pos + String.length w)%nat = Some res).
    { intros Hk. exists ""%string, (String c s). rewrite Nat.add_0_r. auto. }
    destruct (p c); [| apply Hstop, H].
    destruct (RegExp.classStar p s (S pos) k) as [x |] eqn:E; [| apply Hstop, H].
    injection H as <-.
    destruct (IH (S pos) E) as (w & s' & -> & Hk).
    exists (String c w), s'. rewrite append_cons. split; [reflexivity |].
    cbn [String.length]. rewrite <- Hk. f_equal. lia.
Qed.

(** A successful match consumed a prefix of the input and went on with
    the rest. *)
Lemma rmatch_sound {R : Type} (r : regex) :
  forall (s : string) (pos : nat) (caps : RegExp.captures)
         (k : string -> nat -> RegExp.captures -> option R) (res : R),
    rmatch r s pos caps k = Some res ->
    exists w s' caps', s = (w ++ s')%string
                       /\ k s' (pos + String.length w)%nat caps' = Some res.
Proof.
  induction r as [l | p | p | | r1 IH1 r2 IH2 | r1 IH1 r2 IH2 | n r IH];
    intros s pos caps k res H; cbn [rmatch] in H.
  - destruct (RegExp.stripPrefix l s) as [s' |] eqn:E; [| discriminate].
    apply stripPrefix_Some in E. exists l, s', caps. auto.
  - destruct s as [| c s]; [discriminate |].
    destruct (p c); [| discriminate].
    exists (String c ""), s, caps. split; [reflexivity |].
    cbn [String.length]. rewrite Nat.add_1_r. exact H.
  - destruct s as [| c s]; [discriminate |].
    destruct (p c); [| discriminate].
    apply classStar_sound in H. destruct H as (w & s' & -> & Hk).
    exists (String c w), s', caps. rewrite append_cons. split; [reflexivity |].
    cbn [String.length]. rewrite <- Hk. f_equal. lia.
  - destruct s; [| discriminate].
    exists ""%string, ""%string, caps. rewrite Nat.add_0_r. auto.
  - apply IH1 in H. destruct H as (w1 & s1 & caps1 & -> & H).
    apply IH2 in H. destruct H as (w2 & s2 & caps2 & -> & H).
    exists (w1 ++ w2)%string, s2, caps2. rewrite append_assoc.
    split; [reflexivity |]. rewrite length_append, Nat.add_assoc. exact H.
  - destruct (rmatch r1 s pos caps k) as [x |] eqn:E.
    + injection H as <-. apply IH1 in E. exact E.
    + apply IH2 in H. exact H.
  - apply IH in H. destruct H as (w & s' & caps' & -> & H).
    exists w, s'. eauto.
Qed.

(** The whole of every element of [matchAll] stands in the text at the
    index of the element. *)
Lemma matchAll_whole (r : regex) (text : string) (m : Match) :
  In m (matchAll r text) -> standsAt text (index m) (whole m).
Proof.
  intros Hin.
  destruct (matchAll_In _ _ _ Hin) as (pre & s & e & caps & Htext & Hat & ->).
  unfold RegExp.matchAt in Hat. apply rmatch_sound in Hat.
  destruct Hat as (w & s' & caps' & -> & [= <- _]).
  assert (Hw : whole (RegExp.mkMatchAt text (String.length pre)
                        (String.length pre + String.length w) caps) = w).
  { cbn [whole RegExp.mkMatchAt]. rewrite Htext.
    replace (String.length pre + String.length w - String.length pre)%nat
      with (String.length w) by lia.
    apply substring_middle. }
  exists pre, s'. rewrite Hw. split; [exact Htext | reflexivity].
Qed.

Lemma standsAt_bounds (text w : string) (e : Z) :
  standsAt text e w -> 0 <= e /\ e + jsLength w <= jsLength text.
Proof.
  intros (pre & post & -> & <-). rewrite !jsLength_append.
  pose proof (jsLength_nonneg pre). pose proof (jsLength_nonneg post). lia.
Qed.

Lemma matchAll_bounds (r : regex) (text : string) (m : Match) :
  In m (matchAll r text) ->
  0 <= index m /\ index m + jsLength (group m 0) <= jsLength text.
Proof.
  intros H. apply (standsAt_bounds text (whole m)), (matchAll_whole r), H.
Qed.

(** ** The operators *)

Lemma rmatch_alternatives_gen {R : Type} (names : list string) (s : string)
    (pos : nat) (caps : RegExp.captures)
    (k : string -> nat -> RegExp.captures -> option R) (res : R) :
  rmatch (alternatives names) s pos caps k = Some res ->
  exists name s',
    (In name names \/ (names = [] /\ name = ""%string))
    /\ s = (name ++ s')%string
    /\ k s' (pos + String.length name)%nat caps = Some res.
Proof.
  intros H. destruct names as [| n names].
  - cbn in H. exists ""%string, s.
    split; [right; auto |]. split; [reflexivity | exact H].
  - apply rmatch_alternatives in H; [| discriminate].
    destruct H as (name & s' & Hin & Hs & Hk). exists name, s'. auto.
Qed.

Lemma operators_matchAt (symbols : list string) (s : string) (p e : nat)
    (caps : RegExp.captures) :
  RegExp.matchAt (operatorsRegex symbols) s p = Some (e, caps) ->
  exists name rest,
    (In name symbols \/ (symbols = [] /\ name = ""%string))
    /\ s = (backslash ++ name ++ rest)%string
    /\ ((rest = ""%string /\ e = (p + 1 + String.length name)%nat)
        \/ exists x rest', rest = String x rest' /\ isLetter x = false
                            /\ e = (p + 1 + String.length name + 1)%nat)
    /\ caps = [(3%nat, ((p + 1 + String.length name)%nat, e));
               (1%nat, (p, (p + 1 + String.length name)%nat));
               (2%nat, ((p + 1)%nat, (p + 1 + String.length name)%nat))].
Proof.
  intros H. unfold RegExp.matchAt, operatorsRegex in H. cbn [rmatch] in H.
  destruct (RegExp.stripPrefix backslash s) as [s1 |] eqn:E1; [| discriminate].
  apply stripPrefix_Some in E1.
  apply rmatch_alternatives_gen in H.
  destruct H as (name & s2 & Hin & Hs2 & H).
  change (String.length backslash) with 1%nat in H.
  exists name, s2. split; [exact Hin |]. split; [now rewrite E1, Hs2 |].
  destruct s2 as [| x s3].
  - injection H as <- <-. split; [now left | reflexivity].
  - destruct (isLetter x) eqn:Ex; cbn [negb] in H; [discriminate |].
    injection H as <- <-.
    split; [right; exists x, s3; split; [reflexivity | split; [exact Ex | lia]]
           | reflexivity].
Qed.

(** What [matchAll] gives for the expression of the operators: the
    command stands in the text, the groups are the command and its name,
    and the unit after the command is not a letter. *)
Lemma operators_matches (symbols : list string) (eqn : string) (m : Match) :
  In m (matchAll (operatorsRegex symbols) eqn) ->
  exists name,
    (In name symbols \/ (symbols = [] /\ name = ""%string))
    /\ standsAt eqn (index m) (backslash ++ name)
    /\ group m 1 = (backslash ++ name)%string
    /\ group m 2 = name
    /\ hasLetter (jsCharAt eqn (index m + 1 + jsLength name)) = false
    /\ (index m + 1 + jsLength name = jsLength eqn
        \/ jsLength (whole m) = jsLength name + 2).
Proof.
  intros Hin.
  pose proof (matchAll_whole _ _ _ Hin) as Hwhole.
  destruct (matchAll_In _ _ _ Hin) as (pre & s & e & caps & Htext & Hat & ->).
  destruct (operators_matchAt symbols s _ e caps Hat)
    as (name & rest & Hname & -> & Hrest & ->).
  exists name. split; [exact Hname |].
  assert (Htext' : eqn = (pre ++ (backslash ++ name) ++ rest)%string).
  { rewrite Htext, !append_assoc. reflexivity. }
  split; [exists pre, rest; split; [exact Htext' | reflexivity] |].
  split.
  { cbn. rewrite Htext'.
    replace (String.length pre + 1 + String.length name - String.length pre)%nat
      with (String.length (backslash ++ name))
      by (rewrite length_append; change (String.length backslash) with 1%nat; lia).
    apply substring_middle. }
  split.
  { cbn. rewrite Htext.
    replace (String.length pre + 1 + String.length name - (String.length pre + 1))%nat
      with (String.length name) by lia.
    change 1%nat with (String.length backslash) at 1.
    apply substring_after. }
  cbn [index RegExp.mkMatchAt].
  replace (Z.of_nat (String.length pre) + 1 + jsLength name)
    with (jsLength (pre ++ backslash ++ name)).
  2: { rewrite !jsLength_append. change (jsLength backslash) with 1.
       unfold jsLength. lia. }
  destruct Hrest as [[-> ->] | (x & rest' & -> & Hx & ->)].
  - rewrite Htext, append_empty_r. split; [| now left].
    unfold jsCharAt. rewrite Z.ltb_irrefl, andb_false_r. reflexivity.
  - split.
    + replace eqn with ((pre ++ backslash ++ name) ++ String x rest')%string
        by (rewrite Htext, !append_assoc; reflexivity).
      rewrite jsCharAt_unit. unfold hasLetter. cbn. rewrite Hx. reflexivity.
    + right. cbn [whole RegExp.mkMatchAt]. rewrite Htext.
      replace (String.length pre + 1 + String.length name + 1 - String.length pre)%nat
        with (String.length ((backslash ++ name) ++ String x ""))
        by (rewrite !length_append; cbn [String.length];
            change (String.length backslash) with 1%nat; lia).
      replace (pre ++ backslash ++ name ++ String x rest')%string
        with (pre ++ ((backslash ++ name) ++ String x "") ++ rest')%string
        by (rewrite !append_assoc; reflexivity).
      rewrite substring_middle, !jsLength_append.
      change (jsLength backslash) with 1. change (jsLength (String x "")) with 1.
      lia.
Qed.

(** X16: every replacement that [concealOperators] emits for a list of
    operator names that is not empty and whose names hold no syntax
    character of patterns conceals a backslash and one of the names
    which stand in the text at its start, shows that name in upright
    type, ends after the name or after the limits command that follows
    it, and the unit after the name is not a letter. *)
Theorem concealOperators_sound (eqn : string) (symbols : list string)
    (c : Container) :
  symbols <> [] ->
  forallb literalName symbols = true ->
  In c (concealOperators eqn symbols) ->
  exists name r,
    In name symbols
    /\ inner c = Single r
    /\ standsAt eqn (start r) (backslash ++ name)
    /\ hasLetter (jsCharAt eqn (start r + 1 + jsLength name)) = false
    /\ replacement r = name
    /\ class r = Some "cm-concealed-mathrm cm-variable-2"%string
    /\ limitsExtended eqn (start r + 1 + jsLength name) (end_ r).
Proof.
  intros Hne _ Hc. unfold concealOperators in Hc.
  apply in_map_iff in Hc. destruct Hc as (m & <- & Hm).
  destruct (operators_matches symbols eqn m Hm)
    as (name & [Hname | [Hnil _]] & Hst & Hg1 & Hg2 & Hnext & _); [| contradiction].
  exists name. eexists. split; [exact Hname |].
  split; [reflexivity |]. cbn [start end_ replacement class].
  split; [exact Hst |]. split; [exact Hnext |]. split; [exact Hg2 |].
  split; [reflexivity |].
  rewrite Hg1, jsLength_append. change (jsLength backslash) with 1.
  replace (index m + (1 + jsLength name)) with (index m + 1 + jsLength name) by lia.
  apply getEndIncludingLimits_cases.
Qed.

Lemma concealOperators_sound_witness :
  let c := single 2 6 "sin" (Some "cm-concealed-mathrm cm-variable-2"%string) None in
  In c (concealOperators "x+\sin y" ["cos"; "sin"]%string)
  /\ exists name r,
       In name ["cos"; "sin"]%string
       /\ inner c = Single r
       /\ standsAt "x+\sin y" (start r) (backslash ++ name)
       /\ hasLetter (jsCharAt "x+\sin y" (start r + 1 + jsLength name)) = false
       /\ replacement r = name
       /\ class r = Some "cm-concealed-mathrm cm-variable-2"%string
       /\ limitsExtended "x+\sin y" (start r + 1 + jsLength name) (end_ r).
Proof.
  cbv zeta. split; [left; reflexivity |].
  apply (concealOperators_sound "x+\sin y" ["cos"; "sin"]%string);
    [discriminate | reflexivity | left; reflexivity].
Defined.

(** ** The symbols of a table *)

Lemma lookupSymbol_keys (m : SymbolMap) (name : string) :
  In name (keys m) -> exists glyph, lookupSymbol m name = Some glyph.
Proof.
  induction m as [| [k v] m IH]; intros Hin; [contradiction |].
  cbn [lookupSymbol]. destruct (String.eqb_spec k name) as [-> | Hne]; [eauto |].
  destruct Hin as [E | Hin]; [contradiction | apply IH, Hin].
Qed.

Lemma symbols_matchAt (p q : string) (names : list string) (s : string)
    (pos e : nat) (caps : RegExp.captures) :
  RegExp.matchAt (symbolsRegex (Lit p) (Lit q) names) s pos = Some (e, caps) ->
  exists name rest,
    (In name names \/ (names = [] /\ name = ""%string))
    /\ s = (p ++ name ++ q ++ rest)%string
    /\ e = (pos + String.length p + String.length name + String.length q)%nat
    /\ caps = [(1%nat, ((pos + String.length p)%nat,
                        (pos + String.length p + String.length name)%nat))].
Proof.
  intros H. unfold RegExp.matchAt, symbolsRegex in H. cbn [rmatch] in H.
  destruct (RegExp.stripPrefix p s) as [s1 |] eqn:E1; [| discriminate].
  apply stripPrefix_Some in E1.
  apply rmatch_alternatives_gen in H.
  destruct H as (name & s2 & Hin & Hs2 & H).
  destruct (RegExp.stripPrefix q s2) as [s3 |] eqn:E3; [| discriminate].
  apply stripPrefix_Some in E3. injection H as <- <-.
  exists name, s3. subst. auto.
Qed.

Lemma symbols_matches (p q : string) (names : list string) (eqn : string)
    (m : Match) :
  In m (matchAll (symbolsRegex (Lit p) (Lit q) names) eqn) ->
  exists name,
    (In name names \/ (names = [] /\ name = ""%string))
    /\ standsAt eqn (index m) (p ++ name ++ q)
    /\ group m 0 = (p ++ name ++ q)%string
    /\ group m 1 = name.
Proof.
  intros Hin.
  destruct (matchAll_In _ _ _ Hin) as (pre & s & e & caps & Htext & Hat & ->).
  destruct (symbols_matchAt p q names s _ e caps Hat)
    as (name & rest & Hname & -> & -> & ->).
  exists name. split; [exact Hname |].
  assert (Htext' : eqn = (pre ++ (p ++ name ++ q) ++ rest)%string).
  { rewrite Htext, !append_assoc. reflexivity. }
  split; [exists pre, rest; split; [exact Htext' | reflexivity] |].
  split.
  - cbn. rewrite Htext'.
    replace (String.length pre + String.length p + String.length name
             + String.length q - String.length pre)%nat
      with (String.length (p ++ name ++ q))
      by (rewrite !length_append; lia).
    apply substring_middle.
  - cbn. rewrite Htext.
    replace (String.length pre + String.length p + String.length name
             - (String.length pre + String.length p))%nat
      with (String.length name) by lia.
    apply substring_after.
Qed.

(** X17: for a table that is not empty and whose keys hold none of the
    syntax characters that escapeRegex leaves as they are, every
    replacement that [concealSymbols] emits for a literal prefix and
    suffix conceals the prefix, one key of the table and the suffix,
    which stand in the text at its start, and shows the glyph that the
    table holds for that key;
    it ends after them or after the limits command that follows; and
    when succeeding letters are not allowed the unit after them is not a
    letter. *)
Theorem concealSymbols_sound (eqn p q : string) (symbolMap : SymbolMap)
    (className : option string) (allowSucceedingLetters : bool) (c : Container) :
  symbolMap <> [] ->
  forallb literalWhenEscaped (keys symbolMap) = true ->
  In c (concealSymbols eqn (Lit p) (Lit q) symbolMap className
          allowSucceedingLetters) ->
  exists name glyph r,
    lookupSymbol symbolMap name = Some glyph
    /\ inner c = Single r
    /\ standsAt eqn (start r) (p ++ name ++ q)
    /\ replacement r = glyph
    /\ class r = className
    /\ limitsExtended eqn (start r + jsLength (p ++ name ++ q)) (end_ r)
    /\ (allowSucceedingLetters = false ->
        hasLetter (jsCharAt eqn (start r + jsLength (p ++ name ++ q))) = false).
Proof.
  intros Hne _ Hc. unfold concealSymbols in Hc.
  apply in_flat_map in Hc. destruct Hc as (m & Hm & Hc).
  destruct (symbols_matches p q (keys symbolMap) eqn m Hm)
    as (name & [Hname | [Hnil _]] & Hst & Hg0 & Hg1).
  2: { destruct symbolMap; [contradiction | discriminate]. }
  destruct (lookupSymbol_keys symbolMap name Hname) as (glyph & Hglyph).
  rewrite Hg0, Hg1 in Hc.
  destruct (negb allowSucceedingLetters
            && hasLetter (jsCharAt eqn (index m + jsLength (p ++ name ++ q))))
    eqn:Hguard; [contradiction |].
  destruct Hc as [<- | []].
  exists name, glyph. eexists. split; [exact Hglyph |].
  split; [reflexivity |]. cbn [start end_ replacement class].
  split; [exact Hst |].
  split; [unfold getSymbol; now rewrite Hglyph |].
  split; [reflexivity |].
  split; [apply getEndIncludingLimits_cases |].
  intros ->. exact Hguard.
Qed.

Lemma concealSymbols_sound_witness :
  let c := single 2 8 "a" None None in
  In c (concealSymbols "x+\alpha y" (Lit backslash) (Lit "")
          [("beta", "b"); ("alpha", "a")]%string None false)
  /\ exists name glyph r,
       lookupSymbol [("beta", "b"); ("alpha", "a")]%string name = Some glyph
       /\ inner c = Single r
       /\ standsAt "x+\alpha y" (start r) (backslash ++ name ++ "")
       /\ replacement r = glyph
       /\ class r = None
       /\ limitsExtended "x+\alpha y" (start r + jsLength (backslash ++ name ++ ""))
            (end_ r)
       /\ (false = false ->
           hasLetter (jsCharAt "x+\alpha y"
                        (start r + jsLength (backslash ++ name ++ ""))) = false).
Proof.
  cbv zeta. split; [left; reflexivity |].
  apply (concealSymbols_sound "x+\alpha y" backslash ""
           [("beta", "b"); ("alpha", "a")]%string None false);
    [discriminate | reflexivity | left; reflexivity].
Defined.

(** ** The modifiers *)

Lemma modifier_matches (modifier eqn : string) (m : Match) :
  In m (matchAll
          (Seq (Lit (backslash ++ modifier ++ "{"))
             (Seq (Capture 1 (Class isLetter)) (Lit "}"))) eqn) ->
  exists x,
    isLetter x = true
    /\ standsAt eqn (index m) (backslash ++ modifier ++ "{" ++ String x "}")
    /\ group m 0 = (backslash ++ modifier ++ "{" ++ String x "}")%string
    /\ group m 1 = String x "".
Proof.
  intros Hin.
  remember (backslash ++ modifier ++ "{")%string as head eqn:Hhead.
  destruct (matchAll_In _ _ _ Hin) as (pre & s & e & caps & Htext & Hat & ->).
  unfold RegExp.matchAt in Hat. cbn [rmatch] in Hat.
  destruct (RegExp.stripPrefix head s) as [s1 |] eqn:E1; [| discriminate].
  apply stripPrefix_Some in E1.
  destruct s1 as [| x s2]; [discriminate |].
  destruct (isLetter x) eqn:Hx; [| discriminate].
  destruct (RegExp.stripPrefix "}" s2) as [s3 |] eqn:E3; [| discriminate].
  apply stripPrefix_Some in E3. injection Hat as <- <-.
  exists x. split; [exact Hx |].
  assert (Hw : (backslash ++ modifier ++ "{" ++ String x "}")%string
               = (head ++ String x "}")%string).
  { rewrite Hhead, !append_assoc. reflexivity. }
  assert (Htext' : eqn = (pre ++ (head ++ String x "}") ++ s3)%string).
  { rewrite Htext, E1, E3, !append_assoc. reflexivity. }
  rewrite Hw.
  split; [exists pre, s3; split; [exact Htext' | reflexivity] |].
  split.
  - cbn [group whole RegExp.mkMatchAt String.length]. rewrite Htext'.
    match goal with
    | |- String.substring _ ?n _ = _ =>
        replace n with (String.length (head ++ String x "}"))
          by (rewrite length_append; cbn [String.length]; lia)
    end.
    apply substring_middle.
  - cbn [group groups RegExp.mkMatchAt lookupGroup map fst snd Nat.eqb].
    rewrite Htext, E1, E3.
    match goal with
    | |- String.substring _ ?n _ = _ =>
        replace n with (String.length (String x "")) by (cbn [String.length]; lia)
    end.
    change (String x ("}" ++ s3)%string) with (String x "" ++ "}" ++ s3)%string.
    apply substring_after.
Qed.

(** X18: for a modifier name that holds no syntax character of
    patterns, every replacement that [concealModifier] emits conceals a
    modifier command with one letter in braces, which stands in the text
    at its start and ends at its end, and shows that letter followed by
    the combining character. *)
Theorem concealModifier_sound (eqn modifier combiningCharacter : string)
    (c : Container) :
  literalName modifier = true ->
  In c (concealModifier eqn modifier combiningCharacter) ->
  exists x r,
    isLetter x = true
    /\ inner c = Single r
    /\ standsAt eqn (start r) (backslash ++ modifier ++ "{" ++ String x "}")
    /\ end_ r = start r + jsLength modifier + 4
    /\ replacement r = (String x "" ++ combiningCharacter)%string
    /\ class r = Some "latex-suite-unicode"%string.
Proof.
  intros _ Hc. unfold concealModifier in Hc.
  apply in_map_iff in Hc. destruct Hc as (m & <- & Hm).
  destruct (modifier_matches modifier eqn m Hm) as (x & Hx & Hst & Hg0 & Hg1).
  exists x. eexists. split; [exact Hx |]. split; [reflexivity |].
  cbn [start end_ replacement class].
  split; [exact Hst |]. rewrite Hg0, Hg1.
  split; [| split; reflexivity].
  rewrite !jsLength_append. change (jsLength backslash) with 1.
  change (jsLength "{") with 1. change (jsLength (String x "}")) with 2. lia.
Qed.

Lemma concealModifier_sound_witness :
  let c := single 2 9 ("v" ++ U20D7) (Some "latex-suite-unicode"%string) None in
  In c (concealModifier "a+\vec{v}" "vec" U20D7)
  /\ exists x r,
       isLetter x = true
       /\ inner c = Single r
       /\ standsAt "a+\vec{v}" (start r) (backslash ++ "vec" ++ "{" ++ String x "}")
       /\ end_ r = start r + jsLength "vec" + 4
       /\ replacement r = (String x "" ++ U20D7)%string
       /\ class r = Some "latex-suite-unicode"%string.
Proof.
  cbv zeta. split; [left; reflexivity |].
  apply (concealModifier_sound "a+\vec{v}" "vec" U20D7);
    [reflexivity | left; reflexivity].
Defined.

(** ** The offsets of the scanner lie in the equation *)

Lemma getEndIncludingLimits_le (eqn : string) (e : Z) :
  0 <= e <= jsLength eqn -> getEndIncludingLimits eqn e <= jsLength eqn.
Proof.
  intros He. unfold getEndIncludingLimits.
  destruct (String.eqb_spec (jsSubstring eqn e (e + jsLength LIMITS)) LIMITS)
    as [H | _]; [| lia].
  destruct (jsSubstring_split eqn LIMITS e ltac:(discriminate) H)
    as (pre & post & -> & <-).
  rewrite !jsLength_append. pose proof (jsLength_nonneg post). lia.
Qed.

Lemma insideText_single (eqn : string) (s e : Z) (rep : string)
    (cl et : option string) :
  0 <= s -> s <= e -> e <= jsLength eqn -> insideText eqn (single s e rep cl et).
Proof.
  intros H1 H2 H3. unfold insideText. cbn. constructor; [auto | constructor].
Qed.

(** The facts about a match and about the end with limits that settle
    the bounds of a single replacement. *)
Local Ltac inside_single Hm :=
  apply insideText_single;
  pose proof (matchAll_bounds _ _ _ Hm);
  repeat match goal with
         | |- context [jsLength ?s] =>
             lazymatch goal with
             | _ : 0 <= jsLength s |- _ => fail
             | _ => pose proof (jsLength_nonneg s)
             end
         | |- context [getEndIncludingLimits ?eqn ?e] =>
             lazymatch goal with
             | _ : e <= getEndIncludingLimits eqn e |- _ => fail
             | _ => pose proof (getEndIncludingLimits_ge eqn e);
                    pose proof (getEndIncludingLimits_le eqn e ltac:(lia))
             end
         end;
  lia.

Lemma concealSymbols_inside eqn prefix suffix symbolMap className allow c :
  In c (concealSymbols eqn prefix suffix symbolMap className allow) ->
  insideText eqn c.
Proof.
  intros Hc. unfold concealSymbols in Hc.
  apply in_flat_map in Hc. destruct Hc as (m & Hm & Hc).
  destruct (negb allow && _); [contradiction |].
  destruct Hc as [<- | []]. inside_single Hm.
Qed.

Lemma concealModifier_inside eqn modifier combiningCharacter c :
  In c (concealModifier eqn modifier combiningCharacter) -> insideText eqn c.
Proof.
  intros Hc. unfold concealModifier in Hc.
  apply in_map_iff in Hc. destruct Hc as (m & <- & Hm). inside_single Hm.
Qed.

Lemma concealSupSub_inside eqn superscript symbolMap c :
  In c (concealSupSub eqn superscript symbolMap) -> insideText eqn c.
Proof.
  intros Hc. unfold concealSupSub in Hc.
  apply in_map_iff in Hc. destruct Hc as (m & <- & Hm). inside_single Hm.
Qed.

Lemma concealModified_A_to_Z_0_to_9_inside eqn mathBBsymbolMap c :
  In c (concealModified_A_to_Z_0_to_9 eqn mathBBsymbolMap) -> insideText eqn c.
Proof.
  intros Hc. unfold concealModified_A_to_Z_0_to_9 in Hc.
  apply in_flat_map in Hc. destruct Hc as (m & Hm & Hc).
  repeat match type of Hc with
         | In _ (if (0 <? ?s) && ?b then _ else _) =>
             destruct (Z.ltb_spec 0 s); destruct b; cbn [andb] in Hc
         | In _ (if ?b then _ else _) => destruct b
         | In _ [] => contradiction
         | In _ [_] => destruct Hc as [<- | []]
         end; inside_single Hm.
Qed.

Lemma concealModifiedGreekLetters_inside eqn greekSymbolMap c :
  In c (concealModifiedGreekLetters eqn greekSymbolMap) -> insideText eqn c.
Proof.
  intros Hc. unfold concealModifiedGreekLetters in Hc.
  apply in_flat_map in Hc. destruct Hc as (m & Hm & Hc).
  repeat match type of Hc with
         | In _ (if ?b then _ else _) => destruct b
         | In _ [] => contradiction
         | In _ [_] => destruct Hc as [<- | []]
         end; inside_single Hm.
Qed.

Lemma concealText_inside eqn c : In c (concealText eqn) -> insideText eqn c.
Proof.
  intros Hc. unfold concealText in Hc.
  apply in_map_iff in Hc. destruct Hc as (m & <- & Hm). inside_single Hm.
Qed.

Lemma concealAtoZ_inside eqn prefix suffix symbolMap className c :
  In c (concealAtoZ eqn prefix suffix symbolMap className) -> insideText eqn c.
Proof.
  intros Hc. unfold concealAtoZ in Hc.
  apply in_map_iff in Hc. destruct Hc as (m & <- & Hm). inside_single Hm.
Qed.

Lemma concealOperators_inside eqn symbols c :
  In c (concealOperators eqn symbols) -> insideText eqn c.
Proof.
  intros Hc. unfold concealOperators in Hc.
  apply in_map_iff in Hc. destruct Hc as (m & <- & Hm).
  destruct (operators_matches symbols eqn m Hm) as (name & _ & Hst & Hg1 & _).
  apply standsAt_bounds in Hst. rewrite <- Hg1 in Hst.
  inside_single Hm.
Qed.

Local Ltac inside_group :=
  unfold insideText;
  cbn [inner replacements flat_map app plain bracket fractionSpec];
  repeat (constructor; [cbn [start end_]; lia |]); constructor.

Lemma concealBraKet_inside (eqn : string) (c : Container) :
  In c (concealBraKet eqn) -> insideText eqn c.
Proof.
  intros Hc. unfold concealBraKet in Hc. apply in_flat_map in Hc.
  destruct Hc as (m & Hm & Hc).
  destruct (braKet_matches eqn m Hm) as (name & Hname & Hcm & _).
  assert (Hnb : noBrace name = true).
  { destruct Hname as [<- | [<- | [<- | []]]]; reflexivity. }
  pose proof (jsLength_nonneg name).
  destruct (commandMatch_length eqn m name Hcm) as [_ Hidx].
  destruct (concealBraKetMatch_cases eqn m name Hcm Hnb) as [[_ E] | [Hb E]];
    rewrite E in Hc; [contradiction |].
  destruct Hc as [<- | []]. inside_group.
Qed.

Lemma concealSet_inside (eqn : string) (c : Container) :
  In c (concealSet eqn) -> insideText eqn c.
Proof.
  intros Hc. unfold concealSet in Hc. apply in_flat_map in Hc.
  destruct Hc as (m & Hm & Hc).
  pose proof (set_matches eqn m Hm) as Hcm.
  destruct (commandMatch_length eqn m _ Hcm) as [_ Hidx].
  destruct (concealSetMatch_cases eqn m Hcm) as [[_ E] | [Hb E]];
    rewrite E in Hc; [contradiction |].
  destruct Hc as [<- | []]. inside_group.
Qed.

Lemma concealFraction_inside (eqn : string) (c : Container) :
  In c (concealFraction eqn) -> insideText eqn c.
Proof.
  intros Hc. unfold concealFraction in Hc. apply in_flat_map in Hc.
  destruct Hc as (m & Hm & Hc).
  destruct (fraction_matches eqn m Hm) as [Hcm _].
  destruct (commandMatch_length eqn m _ Hcm) as [_ Hidx].
  destruct (concealFractionMatch_cases eqn m Hcm)
    as [(_ & E) | [(_ & _ & E) | [(_ & _ & _ & E) | (H1 & H2 & H3 & E)]]];
    rewrite E in Hc; try contradiction.
  destruct Hc as [<- | []]. inside_group.
Qed.

Lemma matchers_inside (maps : ConcealMaps) (eqn : string) (c : Container) :
  In c (matchers maps eqn) -> insideText eqn c.
Proof.
  unfold matchers. intros H.
  repeat (apply in_app_or in H; destruct H as [H | H]);
    first [ apply concealSymbols_inside in H | apply concealSupSub_inside in H
          | apply concealModifier_inside in H | apply concealAtoZ_inside in H
          | apply concealModifiedGreekLetters_inside in H
          | apply concealModified_A_to_Z_0_to_9_inside in H
          | apply concealText_inside in H | apply concealOperators_inside in H
          | apply concealBraKet_inside in H | apply concealSet_inside in H
          | apply concealFraction_inside in H ];
    exact H.
Qed.

(** X19: every conceal spec that [conceal] emits comes from one of the
    equations, and each of its member replacements lies within the bounds
    of that equation: its offsets are ordered, at or after the start of
    the equation and at or before its end. *)
Theorem scanner_offsets_within_equation (maps : ConcealMaps)
    (equations : list Equation) (c : Container) :
  In c (conceal maps equations) ->
  exists e, In e equations
    /\ Forall (fun r : Replacement =>
                 boundsStart e <= start r /\ start r <= end_ r
                 /\ end_ r <= boundsStart e + jsLength (text e))
         (replacements (inner c)).
Proof.
  intros Hc. unfold conceal in Hc. apply in_flat_map in Hc.
  destruct Hc as (e & He & Hc). exists e. split; [exact He |].
  unfold concealEquation in Hc.
  apply in_map_iff in Hc. destruct Hc as (c0 & <- & Hc0).
  apply matchers_inside in Hc0. unfold insideText in Hc0.
  cbn [inner]. rewrite replacements_mapReplacements.
  apply List.Forall_forall. intros r Hr. apply in_map_iff in Hr.
  destruct Hr as (r0 & <- & Hr0).
  rewrite List.Forall_forall in Hc0. specialize (Hc0 r0 Hr0).
  cbn [shiftReplacement start end_]. lia.
Qed.

Lemma scanner_offsets_within_equation_witness :
  let c := {| inner := mapReplacements (shiftReplacement 1) (fractionSpec 2 11 15) |} in
  let equations := [{| boundsStart := 1; text := fracEqn |}] in
  In c (conceal sampleMaps equations)
  /\ exists e, In e equations
       /\ Forall (fun r : Replacement =>
                    boundsStart e <= start r /\ start r <= end_ r
                    /\ end_ r <= boundsStart e + jsLength (text e))
            (replacements (inner c)).
Proof.
  intros c equations.
  assert (Hin : In c (conceal sampleMaps equations)).
  { vm_compute. left. reflexivity. }
  split; [exact Hin |].
  exact (scanner_offsets_within_equation sampleMaps equations c Hin).
Defined.

(** ** The order of the matches *)

Lemma matchesChained_weaken (lo lo' : Z) (ms : list Match) :
  lo' <= lo -> matchesChained lo ms -> matchesChained lo' ms.
Proof.
  destruct ms as [| m ms]; [auto |]. cbn [matchesChained].
  intros Hle [H1 H2]. split; [lia | exact H2].
Qed.

Lemma matchAllFrom_chained (r : regex) (text s pre : string) (skip : nat) :
  text = (pre ++ s)%string ->
  matchesChained (Z.of_nat (String.length pre + skip))
    (RegExp.matchAllFrom r text s (String.length pre) skip).
Proof.
  revert pre skip. induction s as [| c s IH]; intros pre skip Htext.
  - destruct skip as [| skip]; cbn [RegExp.matchAllFrom]; [| exact I].
    destruct (RegExp.matchAt r "" (String.length pre)) as [[e caps] |]; [| exact I].
    cbn [matchesChained index RegExp.mkMatchAt]. split; [lia | exact I].
  - assert (Hnext : forall skip',
              matchesChained (Z.of_nat (S (String.length pre) + skip'))
                (RegExp.matchAllFrom r text s (S (String.length pre)) skip')).
    { intros skip'. specialize (IH (pre ++ String c "")%string skip').
      rewrite length_append in IH. cbn [String.length] in IH.
      rewrite Nat.add_1_r in IH. apply IH.
      rewrite Htext, append_assoc. reflexivity. }
    destruct skip as [| skip]; cbn [RegExp.matchAllFrom].
    2: { eapply matchesChained_weaken; [| apply Hnext]. lia. }
    destruct (RegExp.matchAt r (String c s) (String.length pre))
      as [[e caps] |] eqn:E.
    2: { eapply matchesChained_weaken; [| apply Hnext]. lia. }
    cbn [matchesChained]. split; [cbn [index RegExp.mkMatchAt]; lia |].
    unfold RegExp.matchAt in E. apply rmatch_sound in E.
    destruct E as (w & s' & caps' & Hs & [= <- _]).
    assert (Hw : whole (RegExp.mkMatchAt text (String.length pre)
                          (String.length pre + String.length w) caps) = w).
    { cbn [whole RegExp.mkMatchAt]. rewrite Htext, Hs.
      replace (String.length pre + String.length w - String.length pre)%nat
        with (String.length w) by lia.
      apply substring_middle. }
    rewrite Hw. cbn [index RegExp.mkMatchAt].
    eapply matchesChained_weaken; [| apply Hnext]. unfold jsLength. lia.
Qed.

Lemma matchAll_chained (r : regex) (text : string) :
  matchesChained 0 (matchAll r text).
Proof.
  apply (matchAllFrom_chained r text text ""%string 0). reflexivity.
Qed.

Lemma matchesChained_lookup (lo : Z) (ms : list Match) (i j : nat) (m1 m2 : Match) :
  matchesChained lo ms -> (i < j)%nat ->
  ms !! i = Some m1 -> ms !! j = Some m2 ->
  index m1 + Z.max 1 (jsLength (whole m1)) <= index m2.
Proof.
  revert lo i j. induction ms as [| m ms IH]; intros lo i j Hch Hij H1 H2;
    [discriminate |].
  destruct Hch as [Hlo Hch].
  destruct j as [| j]; [lia |]. cbn in H2.
  destruct i as [| i].
  - injection H1 as <-. clear IH Hij.
    revert j H2 Hch. generalize (index m + Z.max 1 (jsLength (whole m))).
    induction ms as [| m' ms IH']; intros z j H2 Hch; [discriminate |].
    destruct Hch as [Hz Hch]. destruct j as [| j].
    + injection H2 as <-. exact Hz.
    + cbn in H2. specialize (IH' _ j H2 Hch).
      pose proof (jsLength_nonneg (whole m')). lia.
  - cbn in H1. apply (IH _ i j Hch ltac:(lia) H1 H2).
Qed.

(** X25: for operator names that hold no syntax character of patterns,
    no replacement that [concealOperators] emits starts at the unit that
    follows the name of an operator for which it emits a replacement:
    the match of an operator takes that unit, so an operator command
    that directly follows a concealed operator is not concealed. *)
Theorem operator_after_operator_not_concealed (eqn : string)
    (symbols : list string) (c1 c2 : Container) (r1 r2 : Replacement) :
  forallb literalName symbols = true ->
  In c1 (concealOperators eqn symbols) ->
  In c2 (concealOperators eqn symbols) ->
  inner c1 = Single r1 -> inner c2 = Single r2 ->
  start r2 <> start r1 + 1 + jsLength (replacement r1).
Proof.
  intros _ H1 H2 E1 E2. unfold concealOperators in H1, H2.
  set (ms := matchAll (operatorsRegex symbols) eqn) in *.
  set (f := fun m : Match =>
              single (index m)
                (getEndIncludingLimits eqn (index m + jsLength (group m 1)))
                (group m 2) (Some "cm-concealed-mathrm cm-variable-2"%string) None)
    in *.
  apply list_elem_of_In, list_elem_of_lookup in H1, H2.
  destruct H1 as (i & Hi), H2 as (j & Hj).
  rewrite list_lookup_fmap in Hi, Hj.
  destruct (ms !! i) as [m1 |] eqn:Hm1; [| discriminate].
  destruct (ms !! j) as [m2 |] eqn:Hm2; [| discriminate].
  injection Hi as <-. injection Hj as <-.
  unfold f, single in E1, E2. cbn [inner] in E1, E2.
  injection E1 as <-. injection E2 as <-.
  cbn [start replacement].
  assert (In1 : In m1 ms) by (apply list_elem_of_In, list_elem_of_lookup; eauto).
  assert (In2 : In m2 ms) by (apply list_elem_of_In, list_elem_of_lookup; eauto).
  destruct (operators_matches symbols eqn m1 In1)
    as (n1 & _ & Hst1 & _ & Hg1 & _ & Hcase).
  destruct (operators_matches symbols eqn m2 In2) as (n2 & _ & Hst2 & _).
  change (group m1 2) with (lookupGroup 2 (groups m1)) in Hg1.
  cbn [start replacement].
  change (RegExp.lookupGroup 2 (groups m1)) with (lookupGroup 2 (groups m1)).
  rewrite Hg1.
  pose proof (jsLength_nonneg n1) as Hnn1.
  pose proof (matchAll_chained (operatorsRegex symbols) eqn) as Hch. fold ms in Hch.
  destruct (lt_eq_lt_dec i j) as [[Hlt | Heq] | Hgt].
  - pose proof (matchesChained_lookup _ _ _ _ _ _ Hch Hlt Hm1 Hm2) as Hord.
    apply standsAt_bounds in Hst2.
    rewrite jsLength_append in Hst2. change (jsLength backslash) with 1 in Hst2.
    pose proof (jsLength_nonneg n2).
    destruct Hcase as [Hend | Hlen]; lia.
  - subst j. assert (m2 = m1) by congruence. subst m2. lia.
  - pose proof (matchesChained_lookup _ _ _ _ _ _ Hch Hgt Hm2 Hm1) as Hord.
    pose proof (jsLength_nonneg (whole m2)). lia.
Qed.

Lemma operator_after_operator_not_concealed_witness :
  let className := Some "cm-concealed-mathrm cm-variable-2"%string in
  let c1 := single 0 4 "sin" className None in
  let c2 := single 11 15 "cos" className None in
  concealOperators "\sin\cos x \cos y" ["sin"; "cos"]%string = [c1; c2]
  /\ 11 <> 0 + 1 + jsLength "sin".
Proof.
  cbv zeta. split; [reflexivity |].
  exact (operator_after_operator_not_concealed "\sin\cos x \cos y"
           ["sin"; "cos"]%string _ _ _ _ eq_refl
           (or_introl eq_refl) (or_intror (or_introl eq_refl)) eq_refl eq_refl).
Defined.

(** ** Every modifier command is concealed *)

Lemma modifier_occurrence_matched (modifier : string) (x : ascii)
    (pre post : string) :
  noBackslash modifier = true -> isLetter x = true ->
  exists m,
    In m (matchAll
            (Seq (Lit (backslash ++ modifier ++ "{"))
               (Seq (Capture 1 (Class isLetter)) (Lit "}")))
            (pre ++ backslash ++ (modifier ++ "{" ++ String x "}") ++ post))
    /\ index m = jsLength pre.
Proof.
  intros Hmod Hx. apply occurrence_matched.
  - intros s p e caps H. unfold RegExp.matchAt in H. cbn [rmatch] in H.
    remember (backslash ++ modifier ++ "{")%string as head eqn:Hhead.
    destruct (RegExp.stripPrefix head s) as [s1 |] eqn:E1; [| discriminate].
    apply stripPrefix_Some in E1.
    destruct s1 as [| y s2]; [discriminate |].
    destruct (isLetter y) eqn:Hy; [| discriminate].
    destruct (RegExp.stripPrefix "}" s2) as [s3 |] eqn:E3; [| discriminate].
    apply stripPrefix_Some in E3. injection H as <- _.
    exists (modifier ++ "{" ++ String y "}")%string, s3. split; [| split].
    + rewrite E1, E3, Hhead, !append_assoc. reflexivity.
    + apply noBackslash_append; [exact Hmod |].
      change ("{" ++ String y "}")%string with (String "{" (String y "}")).
      unfold noBackslash. cbn.
      destruct (Ascii.eqb_spec y "092") as [-> |]; [discriminate | reflexivity].
    + rewrite Hhead, !length_append. cbn [String.length].
      change (String.length backslash) with 1%nat. lia.
  - intros post' p. unfold RegExp.matchAt. cbn [rmatch].
    rewrite (proj2 (stripPrefix_Some (backslash ++ modifier ++ "{") _
                      (String x "}" ++ post')));
      [| now rewrite !append_assoc].
    rewrite append_cons, Hx.
    rewrite (proj2 (stripPrefix_Some "}" ("}" ++ post') post') eq_refl).
    eauto.
Qed.

(** A name without syntax character holds no backslash. *)
Lemma literalName_noBackslash (name : string) :
  literalName name = true -> noBackslash name = true.
Proof.
  unfold literalName, noBackslash.
  induction (list_ascii_of_string name) as [| c l IH]; [reflexivity |].
  cbn [forallb]. intros H. apply andb_prop in H. destruct H as [Hc Hl].
  rewrite (IH Hl), andb_true_r.
  destruct (Ascii.eqb_spec c "092") as [-> | _];
    [vm_compute in Hc; discriminate Hc | reflexivity].
Qed.

(** X26: every modifier command with one letter in braces that occurs in
    the text, for a modifier name that holds no syntax character of
    patterns, is concealed by [concealModifier]: the command is
    replaced, from its backslash to its closing brace, by the letter
    followed by the combining character. *)
Theorem concealModifier_complete (modifier combiningCharacter pre post : string)
    (x : ascii) :
  literalName modifier = true -> isLetter x = true ->
  In (single (jsLength pre) (jsLength pre + jsLength modifier + 4)
        (String x "" ++ combiningCharacter) (Some "latex-suite-unicode"%string) None)
     (concealModifier
        (pre ++ backslash ++ (modifier ++ "{" ++ String x "}") ++ post)
        modifier combiningCharacter).
Proof.
  intros Hlit Hx.
  pose proof (literalName_noBackslash modifier Hlit) as Hmod.
  destruct (modifier_occurrence_matched modifier x pre post Hmod Hx)
    as (m & Hm & Hidx).
  destruct (modifier_matches modifier _ m Hm) as (x' & _ & Hst & Hg0 & Hg1).
  destruct Hst as (pre' & post' & Htext & Hpre').
  assert (Hlen : String.length pre' = String.length pre)
    by (unfold jsLength in *; lia).
  rewrite !append_assoc in Htext.
  apply append_inj_length in Htext; [| exact (eq_sym Hlen)].
  destruct Htext as [_ Htext].
  apply append_inj_length in Htext; [| reflexivity]. destruct Htext as [_ Htext].
  apply append_inj_length in Htext; [| reflexivity]. destruct Htext as [_ Htext].
  apply append_inj_length in Htext; [| reflexivity]. destruct Htext as [_ Htext].
  rewrite !append_cons in Htext. injection Htext as Hxx _. subst x'.
  unfold concealModifier. apply in_map_iff. exists m. split; [| exact Hm].
  rewrite Hg0, Hg1, Hidx. unfold single. do 3 f_equal.
  rewrite !jsLength_append. change (jsLength backslash) with 1.
  change (jsLength "{") with 1. change (jsLength (String x "}")) with 2. lia.
Qed.

Lemma concealModifier_complete_witness :
  In (single 2 9 ("v" ++ U20D7) (Some "latex-suite-unicode"%string) None)
     (concealModifier "a+\vec{v}+\vec{w}" "vec" U20D7).
Proof.
  exact (concealModifier_complete "vec" U20D7 "a+" "+\vec{w}" "v" eq_refl eq_refl).
Defined.

(** ** The matchers of a command with braced content *)

Lemma classStar_units {R : Type} (p : ascii -> bool) (s : string) (pos : nat)
    (k : string -> nat -> option R) (res : R) :
  RegExp.classStar p s pos k = Some res ->
  exists w s', s = (w ++ s')%string
               /\ allUnits p w = true
               /\ k s' (pos + String.length w)%nat = Some res.
Proof.
  revert pos. induction s as [| c s IH]; intros pos H.
  - exists ""%string, ""%string. cbn in H. rewrite Nat.add_0_r. auto.
  - cbn [RegExp.classStar] in H.
    assert (Hstop : k (String c s) pos = Some res ->
              exists w s', String c s = (w ++ s')%string
                           /\ allUnits p w = true
                           /\ k s' (pos + String.length w)%nat = Some res).
    { intros Hk. exists ""%string, (String c s). rewrite Nat.add_0_r. auto. }
    destruct (p c) eqn:Hc; [| apply Hstop, H].
    destruct (RegExp.classStar p s (S pos) k) as [x |] eqn:E; [| apply Hstop, H].
    injection H as <-.
    destruct (IH (S pos) E) as (w & s' & -> & Hw & Hk).
    exists (String c w), s'. rewrite append_cons. split; [reflexivity |].
    split; [unfold allUnits in *; cbn; now rewrite Hc |].
    cbn [String.length]. rewrite <- Hk. f_equal. lia.
Qed.

(** A match of a captured run of class units followed by a closing
    brace. *)
Lemma braced_rmatch (n : nat) (p : ascii -> bool) (s : string) (pos e : nat)
    (caps caps' : RegExp.captures) :
  rmatch (Seq (Capture n (ClassPlus p)) (Lit "}")) s pos caps
    (fun _ e caps => Some (e, caps)) = Some (e, caps') ->
  exists value rest,
    value <> ""%string
    /\ allUnits p value = true
    /\ s = (value ++ "}" ++ rest)%string
    /\ e = (pos + String.length value + 1)%nat
    /\ caps' = (n, (pos, (pos + String.length value)%nat)) :: caps.
Proof.
  intros H. cbn [rmatch] in H.
  destruct s as [| c s]; [discriminate |].
  destruct (p c) eqn:Hc; [| discriminate].
  apply classStar_units in H. destruct H as (w & s' & -> & Hw & H).
  destruct (RegExp.stripPrefix "}" s') as [rest |] eqn:E; [| discriminate].
  apply stripPrefix_Some in E. injection H as <- <-.
  exists (String c w), rest. split; [discriminate |].
  split; [unfold allUnits in *; cbn; now rewrite Hc |].
  split; [now rewrite append_cons, E |].
  cbn [String.length]. split; [lia |].
  do 3 f_equal. lia.
Qed.

(** What [matchAll] gives for a literal head, a captured run of class
    units and a closing brace. *)
Lemma braced_matches (head : string) (p : ascii -> bool) (eqn : string)
    (m : Match) :
  In m (matchAll (Seq (Lit head) (Seq (Capture 1 (ClassPlus p)) (Lit "}"))) eqn) ->
  exists value,
    value <> ""%string
    /\ allUnits p value = true
    /\ standsAt eqn (index m) (head ++ value ++ "}")
    /\ group m 0 = (head ++ value ++ "}")%string
    /\ group m 1 = value.
Proof.
  intros Hin.
  destruct (matchAll_In _ _ _ Hin) as (pre & s & e & caps & Htext & Hat & ->).
  unfold RegExp.matchAt in Hat.
  change (rmatch (Seq (Lit head) (Seq (Capture 1 (ClassPlus p)) (Lit "}"))) s
            (String.length pre) [] (fun _ e caps => Some (e, caps)))
    with (match RegExp.stripPrefix head s with
          | Some s' =>
              rmatch (Seq (Capture 1 (ClassPlus p)) (Lit "}")) s'
                (String.length pre + String.length head) []
                (fun _ e caps => Some (e, caps))
          | None => None
          end) in Hat.
  destruct (RegExp.stripPrefix head s) as [s1 |] eqn:E1; [| discriminate].
  apply stripPrefix_Some in E1.
  apply braced_rmatch in Hat.
  destruct Hat as (value & rest & Hne & Hclass & -> & -> & ->).
  exists value. split; [exact Hne |]. split; [exact Hclass |].
  assert (Htext' : eqn = (pre ++ (head ++ value ++ "}") ++ rest)%string).
  { rewrite Htext, E1, !append_assoc. reflexivity. }
  split; [exists pre, rest; split; [exact Htext' | reflexivity] |].
  split.
  - cbn [group whole RegExp.mkMatchAt]. rewrite Htext'.
    match goal with
    | |- String.substring _ ?n _ = _ =>
        replace n with (String.length (head ++ value ++ "}"))
          by (rewrite !length_append; cbn [String.length]; lia)
    end.
    apply substring_middle.
  - cbn [group groups RegExp.mkMatchAt lookupGroup map fst snd Nat.eqb].
    rewrite Htext, E1.
    match goal with
    | |- String.substring _ ?n _ = _ =>
        replace n with (String.length value) by lia
    end.
    apply substring_after.
Qed.

(** X27: every replacement that [concealText] emits conceals a text
    command whose braces hold a run, not empty, of letters, digits,
    spaces and the listed punctuation; the command stands in the text
    from the start of the replacement to its end, and the replacement
    displays the content of the braces. *)
Theorem concealText_sound (eqn : string) (c : Container) :
  In c (concealText eqn) ->
  exists value r,
    value <> ""%string
    /\ allUnits textClass value = true
    /\ inner c = Single r
    /\ standsAt eqn (start r) (backslash ++ "text{" ++ value ++ "}")
    /\ end_ r = start r + jsLength value + 7
    /\ replacement r = value
    /\ class r = Some "cm-concealed-mathrm cm-variable-2"%string.
Proof.
  intros Hc. unfold concealText in Hc.
  apply in_map_iff in Hc. destruct Hc as (m & <- & Hm).
  destruct (braced_matches _ _ eqn m Hm) as (value & Hne & Hclass & Hst & Hg0 & Hg1).
  exists value. eexists. split; [exact Hne |]. split; [exact Hclass |].
  split; [reflexivity |]. cbn [start end_ replacement class].
  rewrite Hg0, Hg1. rewrite append_assoc in Hst |- *.
  split; [exact Hst |].
  split; [| split; reflexivity].
  rewrite !jsLength_append. change (jsLength backslash) with 1.
  change (jsLength "text{") with 5. change (jsLength "}") with 1. lia.
Qed.

Lemma concealText_sound_witness :
  let c := single 2 11 "if" (Some "cm-concealed-mathrm cm-variable-2"%string) None in
  In c (concealText "x \text{if} y")
  /\ exists value r,
       value <> ""%string
       /\ allUnits textClass value = true
       /\ inner c = Single r
       /\ standsAt "x \text{if} y" (start r) (backslash ++ "text{" ++ value ++ "}")
       /\ end_ r = start r + jsLength value + 7
       /\ replacement r = value
       /\ class r = Some "cm-concealed-mathrm cm-variable-2"%string.
Proof.
  cbv zeta. split; [left; reflexivity |].
  apply (concealText_sound "x \text{if} y"). left. reflexivity.
Defined.

Lemma rmatch_Seq {R : Type} (r1 r2 : regex) (s : string) (pos : nat)
    (caps : RegExp.captures) (k : string -> nat -> RegExp.captures -> option R) :
  rmatch (Seq r1 r2) s pos caps k
  = rmatch r1 s pos caps (fun s' pos' caps' => rmatch r2 s' pos' caps' k).
Proof.
  reflexivity.
Qed.

Lemma rmatch_Lit {R : Type} (l s : string) (pos : nat)
    (caps : RegExp.captures) (k : string -> nat -> RegExp.captures -> option R) :
  rmatch (Lit l) s pos caps k
  = match RegExp.stripPrefix l s with
    | Some s' => k s' (pos + String.length l)%nat caps
    | None => None
    end.
Proof.
  reflexivity.
Qed.

Lemma rmatch_Capture {R : Type} (n : nat) (r : regex) (s : string) (pos : nat)
    (caps : RegExp.captures) (k : string -> nat -> RegExp.captures -> option R) :
  rmatch (Capture n r) s pos caps k
  = rmatch r s pos caps
      (fun s' pos' caps' => k s' pos' ((n, (pos, pos')) :: caps')).
Proof.
  reflexivity.
Qed.

Lemma noBackslash_app (a b : string) :
  noBackslash (a ++ b) = noBackslash a && noBackslash b.
Proof.
  unfold noBackslash. rewrite list_ascii_of_string_app. apply forallb_app.
Qed.

(** Replacing the commands of a string without backslash gives the
    string. *)
Lemma replace_without_backslash (value : string) (r : regex)
    (f : Match -> string) :
  noBackslash value = true ->
  RegExp.replace value (Seq (Lit backslash) r) f = value.
Proof.
  intros Hnb. unfold RegExp.replace.
  destruct (matchAll (Seq (Lit backslash) r) value) as [| m ms] eqn:E.
  - cbn [RegExp.replaceMatches].
    pose proof (jsSubstring_middle "" value "") as H.
    rewrite append_empty_l, append_empty_r in H. exact H.
  - exfalso.
    assert (Hin : In m (matchAll (Seq (Lit backslash) r) value))
      by (rewrite E; now left).
    destruct (matchAll_In _ _ _ Hin) as (pre & s & e & caps & Htext & Hat & _).
    unfold RegExp.matchAt in Hat. rewrite rmatch_Seq, rmatch_Lit in Hat.
    destruct (RegExp.stripPrefix backslash s) as [s1 |] eqn:E1; [| discriminate].
    apply stripPrefix_Some in E1.
    rewrite Htext, E1, !noBackslash_app in Hnb.
    change (noBackslash backslash) with false in Hnb.
    rewrite andb_false_r in Hnb. discriminate.
Qed.

(** X28: every replacement that [concealSupSub] emits conceals a caret
    or an underscore followed by braces that hold a run, not empty, of
    the allowed units; it stands in the text from the start of the
    replacement to its end, is shown as a superscript or a subscript, and
    when the content holds no backslash the replacement displays the
    content as it is. *)
Theorem concealSupSub_sound (eqn : string) (superscript : bool)
    (symbolMap : SymbolMap) (c : Container) :
  In c (concealSupSub eqn superscript symbolMap) ->
  exists value r,
    value <> ""%string
    /\ allUnits supSubClass value = true
    /\ inner c = Single r
    /\ standsAt eqn (start r)
         ((if superscript then "^" else "_") ++ "{" ++ value ++ "}")
    /\ end_ r = start r + jsLength value + 3
    /\ class r = Some "cm-number"%string
    /\ elementType r = Some (if superscript then "sup" else "sub")%string
    /\ (noBackslash value = true -> replacement r = value).
Proof.
  intros Hc. unfold concealSupSub in Hc.
  apply in_map_iff in Hc. destruct Hc as (m & <- & Hm).
  destruct (braced_matches _ _ eqn m Hm) as (value & Hne & Hclass & Hst & Hg0 & Hg1).
  exists value. eexists. split; [exact Hne |]. split; [exact Hclass |].
  split; [reflexivity |]. cbn [start end_ replacement class elementType].
  rewrite Hg0, Hg1. rewrite append_assoc in Hst |- *.
  split; [exact Hst |].
  split.
  { rewrite !jsLength_append. change (jsLength "{") with 1.
    change (jsLength "}") with 1.
    destruct superscript;
      [change (jsLength "^") with 1 | change (jsLength "_") with 1]; lia. }
  split; [reflexivity |]. split; [reflexivity |].
  intros Hnb. apply replace_without_backslash. exact Hnb.
Qed.

Lemma concealSupSub_sound_witness :
  let c := single 1 7 "n+1" (Some "cm-number"%string) (Some "sup"%string) in
  In c (concealSupSub "x^{n+1}" true [("alpha", "a")]%string)
  /\ exists value r,
       value <> ""%string
       /\ allUnits supSubClass value = true
       /\ inner c = Single r
       /\ standsAt "x^{n+1}" (start r) ("^" ++ "{" ++ value ++ "}")
       /\ end_ r = start r + jsLength value + 3
       /\ class r = Some "cm-number"%string
       /\ elementType r = Some "sup"%string
       /\ (noBackslash value = true -> replacement r = value).
Proof.
  cbv zeta. split; [left; reflexivity |].
  apply (concealSupSub_sound "x^{n+1}" true [("alpha", "a")]%string).
  left. reflexivity.
Defined.

(** What [matchAll] gives for a backslash, a captured command name out
    of a list, and braces that hold a captured run of class units. *)
Lemma typed_braced_matches (names : list string) (p : ascii -> bool)
    (eqn : string) (m : Match) :
  names <> [] ->
  In m (matchAll
          (Seq (Lit backslash)
             (Seq (Capture 1 (alternatives names))
                (Seq (Lit "{") (Seq (Capture 2 (ClassPlus p)) (Lit "}")))))
          eqn) ->
  exists type value,
    In type names
    /\ value <> ""%string
    /\ allUnits p value = true
    /\ standsAt eqn (index m) (backslash ++ type ++ "{" ++ value ++ "}")
    /\ group m 0 = (backslash ++ type ++ "{" ++ value ++ "}")%string
    /\ group m 1 = type
    /\ group m 2 = value.
Proof.
  intros Hnames Hin.
  destruct (matchAll_In _ _ _ Hin) as (pre & s & e & caps & Htext & Hat & ->).
  unfold RegExp.matchAt in Hat. rewrite rmatch_Seq, rmatch_Lit in Hat.
  destruct (RegExp.stripPrefix backslash s) as [s1 |] eqn:E1; [| discriminate].
  apply stripPrefix_Some in E1.
  rewrite rmatch_Seq, rmatch_Capture in Hat.
  apply rmatch_alternatives in Hat; [| exact Hnames].
  destruct Hat as (type & s2 & Htype & E2 & Hk). cbv beta in Hk.
  rewrite rmatch_Seq, rmatch_Lit in Hk.
  destruct (RegExp.stripPrefix "{" s2) as [s3 |] eqn:E3; [| discriminate].
  apply stripPrefix_Some in E3.
  apply braced_rmatch in Hk.
  destruct Hk as (value & rest & Hne & Hclass & E4 & -> & ->).
  exists type, value. split; [exact Htype |]. split; [exact Hne |].
  split; [exact Hclass |].
  assert (Htext' : eqn = (pre ++ (backslash ++ type ++ "{" ++ value ++ "}")
                            ++ rest)%string).
  { rewrite Htext, E1, E2, E3, E4, !append_assoc. reflexivity. }
  split; [exists pre, rest; split; [exact Htext' | reflexivity] |].
  change (String.length backslash) with 1%nat.
  change (String.length "{") with 1%nat.
  split; [| split].
  - cbn [group whole RegExp.mkMatchAt]. rewrite Htext'.
    match goal with
    | |- String.substring _ ?n _ = _ =>
        replace n with (String.length (backslash ++ type ++ "{" ++ value ++ "}"))
          by (rewrite !length_append;
              change (String.length backslash) with 1%nat;
              cbn [String.length]; lia)
    end.
    apply substring_middle.
  - cbn [group groups RegExp.mkMatchAt lookupGroup map fst snd Nat.eqb].
    rewrite Htext, E1, E2.
    match goal with
    | |- String.substring _ ?n _ = _ =>
        replace n with (String.length type) by lia
    end.
    change 1%nat with (String.length backslash).
    apply substring_after.
  - cbn [group groups RegExp.mkMatchAt lookupGroup map fst snd Nat.eqb].
    rewrite Htext, E1, E2, E3, E4.
    match goal with
    | |- String.substring ?a ?n _ = _ =>
        replace n with (String.length value) by lia;
        replace a with (String.length pre
                        + String.length (backslash ++ type ++ "{"))%nat
          by (rewrite !length_append;
              change (String.length backslash) with 1%nat;
              cbn [String.length]; lia)
    end.
    replace (pre ++ backslash ++ type ++ "{" ++ value ++ "}" ++ rest)%string
      with (pre ++ (backslash ++ type ++ "{") ++ value ++ "}" ++ rest)%string
      by (rewrite !append_assoc; reflexivity).
    apply substring_after.
Qed.

(** X29: every replacement that [concealModified_A_to_Z_0_to_9] emits
    comes from a command out of the six listed ones whose braces hold a
    run, not empty, of letters, digits and spaces, and it ends where the
    command ends. For a text command the replacement starts one unit
    before the command, on an underscore, and shows the content as a
    subscript; for every other command it starts with the command and
    shows the content with the class of the command, or for mathbb the
    translation of the content with no class. *)
Theorem concealModified_A_to_Z_0_to_9_sound (eqn : string)
    (mathBBsymbolMap : SymbolMap) (c : Container) :
  In c (concealModified_A_to_Z_0_to_9 eqn mathBBsymbolMap) ->
  exists type value r cmdStart,
    value <> ""%string
    /\ allUnits alnumOrSpace value = true
    /\ inner c = Single r
    /\ standsAt eqn cmdStart (backslash ++ type ++ "{" ++ value ++ "}")
    /\ end_ r = cmdStart + jsLength type + jsLength value + 3
    /\ ((type = "text"%string
         /\ start r = cmdStart - 1 /\ 0 <= start r
         /\ jsCharAt eqn (start r) = "_"%string
         /\ replacement r = value
         /\ class r = Some "cm-concealed-mathrm"%string
         /\ elementType r = Some "sub"%string)
        \/ (start r = cmdStart /\ elementType r = None
            /\ (((type = "mathbf" \/ type = "boldsymbol")%string
                 /\ replacement r = value
                 /\ class r = Some "cm-concealed-bold"%string)
                \/ (type = "underline"%string
                    /\ replacement r = value
                    /\ class r = Some "cm-concealed-underline"%string)
                \/ (type = "mathrm"%string
                    /\ replacement r = value
                    /\ class r = Some "cm-concealed-mathrm"%string)
                \/ (type = "mathbb"%string
                    /\ replacement r = translate mathBBsymbolMap value
                    /\ class r = None)))).
Proof.
  intros Hc. unfold concealModified_A_to_Z_0_to_9 in Hc.
  apply in_flat_map in Hc. destruct Hc as (m & Hm & Hc).
  apply typed_braced_matches in Hm; [| discriminate].
  destruct Hm
    as (type & value & Htype & Hne & Hclass & Hst & Hg0 & Hg1 & Hg2).
  rewrite Hg0, Hg1, Hg2 in Hc.
  assert (Hlen : index m + jsLength (backslash ++ type ++ "{" ++ value ++ "}")
                 = index m + jsLength type + jsLength value + 3).
  { rewrite !jsLength_append. change (jsLength backslash) with 1.
    change (jsLength "{") with 1. change (jsLength "}") with 1. lia. }
  rewrite Hlen in Hc.
  exists type, value.
  cbn [In] in Htype.
  destruct Htype as [<- | [<- | [<- | [<- | [<- | [<- | []]]]]]];
    cbn [String.eqb Ascii.eqb Bool.eqb orb andb] in Hc.
  - destruct Hc as [<- | []]. eexists. exists (index m).
    repeat (split; [first [exact Hne | exact Hclass | exact Hst | reflexivity] |]).
    right. cbn. split; [reflexivity |]. split; [reflexivity |].
    left. auto.
  - destruct Hc as [<- | []]. eexists. exists (index m).
    repeat (split; [first [exact Hne | exact Hclass | exact Hst | reflexivity] |]).
    right. cbn. split; [reflexivity |]. split; [reflexivity |].
    left. auto.
  - destruct Hc as [<- | []]. eexists. exists (index m).
    repeat (split; [first [exact Hne | exact Hclass | exact Hst | reflexivity] |]).
    right. cbn. split; [reflexivity |]. split; [reflexivity |].
    right. left. auto.
  - destruct Hc as [<- | []]. eexists. exists (index m).
    repeat (split; [first [exact Hne | exact Hclass | exact Hst | reflexivity] |]).
    right. cbn. split; [reflexivity |]. split; [reflexivity |].
    right. right. left. auto.
  - destruct (0 <? index m) eqn:Hpos; [| destruct Hc].
    destruct (String.eqb (jsCharAt eqn (index m - 1)) "_") eqn:Hch;
      [| destruct Hc].
    cbn [andb] in Hc. destruct Hc as [<- | []].
    apply Z.ltb_lt in Hpos. apply String.eqb_eq in Hch.
    eexists. exists (index m).
    repeat (split; [first [exact Hne | exact Hclass | exact Hst | reflexivity] |]).
    left. cbn [start replacement class elementType].
    split; [reflexivity |]. split; [reflexivity |]. split; [lia |].
    split; [exact Hch |]. auto.
  - destruct Hc as [<- | []]. eexists. exists (index m).
    repeat (split; [first [exact Hne | exact Hclass | exact Hst | reflexivity] |]).
    right. cbn. split; [reflexivity |]. split; [reflexivity |].
    right. right. right. auto.
Qed.

Lemma concealModified_A_to_Z_0_to_9_sound_witness :
  let eqn := "x_\text{in} + \mathbf{v}"%string in
  let c := single 1 11 "in" (Some "cm-concealed-mathrm"%string)
             (Some "sub"%string) in
  In c (concealModified_A_to_Z_0_to_9 eqn [("R", "r")]%string)
  /\ exists type value r cmdStart,
       value <> ""%string
       /\ allUnits alnumOrSpace value = true
       /\ inner c = Single r
       /\ standsAt eqn cmdStart (backslash ++ type ++ "{" ++ value ++ "}")
       /\ end_ r = cmdStart + jsLength type + jsLength value + 3
       /\ ((type = "text"%string
            /\ start r = cmdStart - 1 /\ 0 <= start r
            /\ jsCharAt eqn (start r) = "_"%string
            /\ replacement r = value
            /\ class r = Some "cm-concealed-mathrm"%string
            /\ elementType r = Some "sub"%string)
           \/ (start r = cmdStart /\ elementType r = None
               /\ (((type = "mathbf" \/ type = "boldsymbol")%string
                    /\ replacement r = value
                    /\ class r = Some "cm-concealed-bold"%string)
                   \/ (type = "underline"%string
                       /\ replacement r = value
                       /\ class r = Some "cm-concealed-underline"%string)
                   \/ (type = "mathrm"%string
                       /\ replacement r = value
                       /\ class r = Some "cm-concealed-mathrm"%string)
                   \/ (type = "mathbb"%string
                       /\ replacement r = translate [("R", "r")]%string value
                       /\ class r = None)))).
Proof.
  cbv zeta. split; [left; reflexivity |].
  apply (concealModified_A_to_Z_0_to_9_sound "x_\text{in} + \mathbf{v}"
           [("R", "r")]%string).
  left. reflexivity.
Defined.

(** ** Decorations *)

Lemma iterReplacements_push (l : list Replacement) (decos : list DecorationRange) :
  iterReplacements l
    (fun singleSpec decos => (decos ++ [decorationOf singleSpec], false)) decos
  = (decos ++ map decorationOf l, false).
Proof.
  revert decos. induction l as [| r l IH]; intros decos; cbn [iterReplacements map].
  - now rewrite app_nil_r.
  - rewrite IH, <- app_assoc. reflexivity.
Qed.

(** [buildDecoSet] paints the member replacements of the enabled
    concealments, in order. *)
Lemma buildDecoSet_flat (cs : list Concealment) :
  buildDecoSet cs
  = flat_map (fun c : Concealment =>
                if enable c then map decorationOf (replacements (spec c)) else [])
      cs.
Proof.
  unfold buildDecoSet.
  enough (H : forall acc,
            fold_left
              (fun (decos : list DecorationRange) (concealment : Concealment) =>
                 if negb (enable concealment) then decos
                 else fst (iterConcealSpec (spec concealment)
                             (fun singleSpec decos =>
                                (decos ++ [decorationOf singleSpec], false))
                             decos))
              cs acc
            = acc ++ flat_map
                       (fun c : Concealment =>
                          if enable c then map decorationOf (replacements (spec c))
                          else [])
                       cs)
    by apply (H []).
  induction cs as [| c cs IH]; intros acc; cbn [fold_left flat_map].
  - now rewrite app_nil_r.
  - rewrite IH. destruct (enable c); cbn [negb].
    + rewrite iterConcealSpec_flat, iterReplacements_push. cbn [fst].
      now rewrite app_assoc.
    + reflexivity.
Qed.

Lemma deref_new (s l : list Concealment) :
  deref (s ++ l) (seq (length s) (length l)) = l.
Proof.
  revert s. induction l as [| x l IH]; intros s; [reflexivity |].
  cbn [length seq]. unfold deref. cbn [omap list_omap].
  rewrite list_lookup_middle by reflexivity.
  f_equal. specialize (IH (s ++ [x])).
  rewrite <- app_assoc, length_app in IH. cbn [length app] in IH.
  rewrite Nat.add_1_r in IH. exact IH.
Qed.

Lemma flat_map_map {A B C : Type} (f : A -> B) (g : B -> list C) (l : list A) :
  flat_map g (map f l) = flat_map (fun x => g (f x)) l.
Proof.
  induction l as [| x l IH]; [reflexivity |]. cbn [map flat_map]. now rewrite IH.
Qed.

Lemma map_flat_map {A B C : Type} (f : B -> C) (g : A -> list B) (l : list A) :
  map f (flat_map g l) = flat_map (fun x => map f (g x)) l.
Proof.
  induction l as [| x l IH]; [reflexivity |].
  cbn [flat_map]. now rewrite map_app, IH.
Qed.

(** X20: after a reconciliation in a world that the engine has reached,
    the decorations are those of the member replacements of exactly the
    scanned specs whose action is not reveal, in the order of the scan.
    With the mouse button down every member replacement of every scanned
    spec is decorated, and no timer is set. *)
Theorem decorations_after_reconciliation (maps : ConcealMaps) (es : list Event)
    (update : ViewUpdate) :
  reconciles update = true ->
  let w := run maps create es in
  let w' := updateListener maps update w in
  let specs := conceal maps (equations update) in
  let olds := deref (store w) (concealments (field w)) in
  decorations w'
  = flat_map (fun c : Container =>
                if ConcealAction_eqb (actionFor update olds (inner c)) a_reveal
                then []
                else map decorationOf (replacements (inner c)))
      specs
  /\ (mousedown update = true ->
      decorations w'
      = map decorationOf (flat_map (fun c : Container => replacements (inner c)) specs)
      /\ revealTimeout (field w') = None
      /\ pending w' = ∅).
Proof.
  intros Hrec w w' specs olds.
  assert (Hwf : wellFormed w) by apply wellFormed_run, wellFormed_create.
  destruct (updateListener_reconciles maps update w Hrec Hwf)
    as (Hs & Hc & Hnil & _).
  fold w' specs olds in Hs, Hc, Hnil.
  assert (Hdeco : decorations w'
    = flat_map (fun c : Container =>
                  if ConcealAction_eqb (actionFor update olds (inner c)) a_reveal
                  then []
                  else map decorationOf (replacements (inner c)))
        specs).
  { unfold decorations. rewrite Hs, Hc.
    rewrite <- (length_map (newConcealment update olds) specs).
    rewrite deref_new, buildDecoSet_flat, flat_map_map.
    apply flat_map_ext. intros c. cbn [newConcealment enable spec].
    destruct (ConcealAction_eqb _ a_reveal); reflexivity. }
  split; [exact Hdeco |].
  intros Hmouse.
  assert (Hact : forall c, actionFor update olds (inner c) = a_conceal).
  { intros c. unfold actionFor. rewrite Hmouse. reflexivity. }
  split.
  - rewrite Hdeco, map_flat_map. apply flat_map_ext. intros c.
    now rewrite Hact.
  - assert (Hds : delayedLocs update olds (length (store w)) specs = []).
    { destruct (delayedLocs update olds (length (store w)) specs) eqn:E;
        [reflexivity | exfalso].
      assert (Hne : delayedLocs update olds (length (store w)) specs <> [])
        by (rewrite E; discriminate).
      apply delayedLocs_nil_iff in Hne. apply List.Exists_exists in Hne.
      destruct Hne as (c & _ & Hd). rewrite Hact in Hd. discriminate. }
    destruct (Hnil Hds) as (Ht & Hp & _). auto.
Qed.

Lemma decorations_after_reconciliation_witness :
  let update := cursorMoved alphaEqn 7 in
  let w := run sampleMaps create [ViewUpdated (cursorMoved alphaEqn 20)] in
  let w' := updateListener sampleMaps update w in
  reconciles update = true
  /\ decorations w'
     = flat_map (fun c : Container =>
                   if ConcealAction_eqb
                        (actionFor update (deref (store w) (concealments (field w)))
                           (inner c)) a_reveal
                   then []
                   else map decorationOf (replacements (inner c)))
         (conceal sampleMaps (equations update)).
Proof.
  cbv zeta. split; [reflexivity |].
  exact (proj1 (decorations_after_reconciliation sampleMaps
                  [ViewUpdated (cursorMoved alphaEqn 20)] (cursorMoved alphaEqn 7)
                  eq_refl)).
Defined.

Lemma deref_seq_lookup (st l : list Concealment) (base : nat) :
  (forall i x, l !! i = Some x -> st !! (base + i)%nat = Some x) ->
  deref st (seq base (length l)) = l.
Proof.
  revert base. induction l as [| x l IH]; intros base H; [reflexivity |].
  cbn [length seq]. unfold deref. cbn [omap list_omap].
  rewrite <- (Nat.add_0_r base) at 1. rewrite (H 0%nat x eq_refl).
  f_equal. apply IH. intros i y Hi.
  replace (S base + i)%nat with (base + S i)%nat by lia.
  apply H. exact Hi.
Qed.

(** X21: when a reconciliation in a world that the engine has reached
    set a timer and that timer fires next, the decorations are those of
    the member replacements of exactly the scanned specs whose action
    was conceal: the delayed ones are no longer decorated. *)
Theorem decorations_after_timeout (maps : ConcealMaps) (es : list Event)
    (update : ViewUpdate) (t : positive) :
  reconciles update = true ->
  let w := run maps create es in
  let w' := updateListener maps update w in
  let specs := conceal maps (equations update) in
  let olds := deref (store w) (concealments (field w)) in
  revealTimeout (field w') = Some t ->
  decorations (fireTimeout t w')
  = flat_map (fun c : Container =>
                if ConcealAction_eqb (actionFor update olds (inner c)) a_conceal
                then map decorationOf (replacements (inner c))
                else [])
      specs.
Proof.
  intros Hrec w w' specs olds Ht.
  assert (Hwf : wellFormed w) by apply wellFormed_run, wellFormed_create.
  destruct (updateListener_reconciles maps update w Hrec Hwf)
    as (Hs & Hc & Hnil & Hcons).
  fold w' specs olds in Hs, Hc, Hnil, Hcons.
  set (ds := delayedLocs update olds (length (store w)) specs) in *.
  destruct (decide (ds = [])) as [E | E].
  { destruct (Hnil E) as (Hnone & _). congruence. }
  destruct (Hcons E) as (Ht' & Hp & _).
  assert (t = nextTimeout w) by congruence. subst t.
  unfold decorations, fireTimeout. rewrite Hp, lookup_singleton_eq.
  cbn [store field concealments delayedConcealments capturedConcealments].
  set (g := fun c : Container =>
              if ConcealAction_eqb (actionFor update olds (inner c)) a_delay
              then disable (newConcealment update olds c)
              else newConcealment update olds c).
  rewrite <- (length_map g specs).
  rewrite (deref_seq_lookup _ (map g specs)).
  - rewrite buildDecoSet_flat, flat_map_map. apply flat_map_ext. intros c.
    unfold g, newConcealment.
    destruct (actionFor update olds (inner c)); reflexivity.
  - intros i x Hi. rewrite list_lookup_fmap in Hi.
    destruct (specs !! i) as [c |] eqn:Hci; [| discriminate].
    injection Hi as <-.
    rewrite lookup_foldl_disable, Hs, lookup_app_map, Hci. cbn [fmap option_fmap option_map].
    unfold g.
    destruct (decide ((length (store w) + i)%nat ∈ ds)) as [Hd | Hd].
    + apply elem_of_delayedLocs in Hd. destruct Hd as (j & c' & Hj & Hij & Hact).
      assert (j = i) by lia. subst j.
      assert (c' = c) by congruence. subst c'.
      rewrite Hact. reflexivity.
    + destruct (ConcealAction_eqb (actionFor update olds (inner c)) a_delay) eqn:Ea;
        [| reflexivity].
      exfalso. apply Hd. apply elem_of_delayedLocs. exists i, c.
      repeat split; auto.
      destruct (actionFor update olds (inner c)); try discriminate. reflexivity.
Qed.

Lemma decorations_after_timeout_witness :
  let update := cursorMoved alphaEqn 7 in
  let w := run sampleMaps create [ViewUpdated (cursorMoved alphaEqn 20)] in
  let w' := updateListener sampleMaps update w in
  (reconciles update = true /\ revealTimeout (field w') = Some 1%positive)
  /\ decorations w'
     = [ {| rangeFrom := 1; rangeTo := 7;
            value := replaceDecoration (ConcealWidget "a" "" "span")
                       false false false |} ]
  /\ decorations (fireTimeout 1 w') = [].
Proof.
  cbv zeta. split; [split; reflexivity |]. split; [reflexivity |].
  rewrite (decorations_after_timeout sampleMaps
             [ViewUpdated (cursorMoved alphaEqn 20)] (cursorMoved alphaEqn 7)
             1%positive eq_refl eq_refl).
  reflexivity.
Defined.

(** ** The scanner of the single-spec revision *)

Lemma flat_map_ext_In {A B : Type} (f g : A -> list B) (l : list A) :
  (forall a, In a l -> f a = g a) -> flat_map f l = flat_map g l.
Proof.
  induction l as [| a l IH]; intros H; [reflexivity |].
  cbn [flat_map]. rewrite (H a (or_introl eq_refl)), IH; [reflexivity |].
  intros a' Ha'. apply H. now right.
Qed.

Lemma flat_map_flat_map {A B C : Type} (f : A -> list B) (g : B -> list C)
    (l : list A) :
  flat_map g (flat_map f l) = flat_map (fun a => flat_map g (f a)) l.
Proof.
  induction l as [| a l IH]; [reflexivity |].
  cbn [flat_map]. now rewrite flat_map_app, IH.
Qed.

(** The search from the opening brace of a command finds what the
    search from the backslash of the command finds. *)
Lemma findMatchingBracket_from_brace (eqn : string) (m : Match) (name : string) :
  commandMatch eqn m name -> noBrace name = true ->
  findMatchingBracket eqn (index m + jsLength (group m 0) - 1) "{" "}" false None
  = findMatchingBracket eqn (index m) "{" "}" false None.
Proof.
  intros [(pre & post & -> & <-) ->] Hname.
  set (u := (backslash ++ name)%string).
  assert (Htext : (pre ++ (backslash ++ name ++ "{") ++ post)%string
                  = (pre ++ u ++ String "{" post)%string).
  { unfold u. now rewrite !append_assoc. }
  assert (Hlen0 : jsLength (backslash ++ name ++ "{") = jsLength u + 1).
  { unfold u. rewrite !jsLength_append. change (jsLength "{") with 1. lia. }
  rewrite Htext, Hlen0.
  unfold findMatchingBracket, findMatchingBracketForward.
  assert (Hlen : jsLength (pre ++ u ++ String "{" post)
                 = jsLength pre + jsLength u + 1 + jsLength post).
  { rewrite !jsLength_append, jsLength_String. lia. }
  rewrite Hlen.
  replace (Z.to_nat (jsLength pre + jsLength u + 1 + jsLength post - jsLength pre))
    with (String.length u + S (String.length post))%nat
    by (unfold jsLength; lia).
  rewrite findMatchingBracketLoop_skip by exact Hname.
  replace (jsLength pre + (jsLength u + 1) - 1) with (jsLength pre + jsLength u) by lia.
  replace (Z.to_nat (jsLength pre + jsLength u + 1 + jsLength post
                     - (jsLength pre + jsLength u)))
    with (S (String.length post)) by (unfold jsLength; lia).
  reflexivity.
Qed.

(** X22: with the mouse button down, the matchers of the grouped
    constructs of the single-spec revision return exactly the member
    replacements of the conceal specs that the current matchers return,
    in the same order; with the mouse button up they return some of
    these. *)
Theorem single_spec_scanner_members (eqn : string) (selection : EditorSelection)
    (eqnStartBound : Z) :
  let members := flat_map (fun c : Container => replacements (inner c)) in
  (SingleSpecScanner.concealBraKet eqn selection eqnStartBound true
     = members (concealBraKet eqn)
   /\ SingleSpecScanner.concealSet eqn selection eqnStartBound true
      = members (concealSet eqn)
   /\ SingleSpecScanner.concealFraction eqn selection eqnStartBound true
      = members (concealFraction eqn))
  /\ (forall r,
        (In r (SingleSpecScanner.concealBraKet eqn selection eqnStartBound false) ->
         In r (members (concealBraKet eqn)))
        /\ (In r (SingleSpecScanner.concealSet eqn selection eqnStartBound false) ->
            In r (members (concealSet eqn)))
        /\ (In r (SingleSpecScanner.concealFraction eqn selection eqnStartBound false) ->
            In r (members (concealFraction eqn)))).
Proof.
  cbv zeta.
  assert (HB : forall md m, In m (matchAll braKetRegex eqn) ->
            SingleSpecScanner.concealBraKetMatch eqn selection eqnStartBound md m
            = (if md then flat_map (fun c : Container => replacements (inner c))
                            (concealBraKetMatch eqn m)
               else SingleSpecScanner.concealBraKetMatch eqn selection
                      eqnStartBound false m)
            /\ incl (SingleSpecScanner.concealBraKetMatch eqn selection
                       eqnStartBound false m)
                 (flat_map (fun c : Container => replacements (inner c))
                    (concealBraKetMatch eqn m))).
  { intros md m Hm.
    destruct (braKet_matches eqn m Hm) as (name & Hname & Hcm & _).
    assert (Hnb : noBrace name = true).
    { destruct Hname as [<- | [<- | [<- | []]]]; reflexivity. }
    unfold SingleSpecScanner.concealBraKetMatch, concealBraKetMatch. cbv zeta.
    rewrite (findMatchingBracket_from_brace eqn m name Hcm Hnb).
    destruct (findMatchingBracket eqn (index m) "{" "}" false None =? -1).
    { split; [destruct md; reflexivity | intros r []]. }
    assert (Hmembers :
      flat_map (fun c : Container => replacements (inner c))
        [{| inner := Group [
              plain (index m) (index m + jsLength (group m 0) - 1) "";
              bracket (index m + jsLength (group m 0) - 1)
                (index m + jsLength (group m 0) - 1 + 1)
                (if String.eqb (group m 1) "ket" then vert else langle);
              bracket (findMatchingBracket eqn (index m) "{" "}" false None)
                (findMatchingBracket eqn (index m) "{" "}" false None + 1)
                (if String.eqb (group m 1) "bra" then vert else rangle) ] |}]
      = [ {| start := index m; end_ := index m + jsLength (group m 0) - 1;
             replacement := ""; class := None; elementType := None |};
          {| start := index m + jsLength (group m 0) - 1;
             end_ := index m + jsLength (group m 0);
             replacement := if String.eqb (group m 1) "ket" then vert else langle;
             class := Some "cm-bracket"; elementType := None |};
          {| start := findMatchingBracket eqn (index m) "{" "}" false None;
             end_ := findMatchingBracket eqn (index m) "{" "}" false None + 1;
             replacement := if String.eqb (group m 1) "bra" then vert else rangle;
             class := Some "cm-bracket"; elementType := None |} ]).
    { cbn [flat_map inner replacements plain bracket app].
      replace (index m + jsLength (group m 0) - 1 + 1)
        with (index m + jsLength (group m 0)) by lia.
      reflexivity. }
    rewrite Hmembers. split.
    - destruct md; reflexivity.
    - cbn [negb andb]. destruct (_ || _); [intros r [] | apply incl_refl]. }
  assert (HS : forall md m, In m (matchAll setRegex eqn) ->
            SingleSpecScanner.concealSetMatch eqn selection eqnStartBound md m
            = (if md then flat_map (fun c : Container => replacements (inner c))
                            (concealSetMatch eqn m)
               else SingleSpecScanner.concealSetMatch eqn selection
                      eqnStartBound false m)
            /\ incl (SingleSpecScanner.concealSetMatch eqn selection
                       eqnStartBound false m)
                 (flat_map (fun c : Container => replacements (inner c))
                    (concealSetMatch eqn m))).
  { intros md m Hm.
    pose proof (set_matches eqn m Hm) as Hcm.
    unfold SingleSpecScanner.concealSetMatch, concealSetMatch. cbv zeta.
    rewrite (findMatchingBracket_from_brace eqn m "set" Hcm eq_refl).
    destruct (findMatchingBracket eqn (index m) "{" "}" false None =? -1).
    { split; [destruct md; reflexivity | intros r []]. }
    assert (Hmembers :
      flat_map (fun c : Container => replacements (inner c))
        [{| inner := Group [
              plain (index m) (index m + jsLength (group m 0) - 1) "";
              bracket (index m + jsLength (group m 0) - 1)
                (index m + jsLength (group m 0) - 1 + 1) "{";
              bracket (findMatchingBracket eqn (index m) "{" "}" false None)
                (findMatchingBracket eqn (index m) "{" "}" false None + 1) "}" ] |}]
      = [ {| start := index m; end_ := index m + jsLength (group m 0) - 1;
             replacement := ""; class := None; elementType := None |};
          {| start := index m + jsLength (group m 0) - 1;
             end_ := index m + jsLength (group m 0);
             replacement := "{";
             class := Some "cm-bracket"; elementType := None |};
          {| start := findMatchingBracket eqn (index m) "{" "}" false None;
             end_ := findMatchingBracket eqn (index m) "{" "}" false None + 1;
             replacement := "}";
             class := Some "cm-bracket"; elementType := None |} ]).
    { cbn [flat_map inner replacements plain bracket app].
      replace (index m + jsLength (group m 0) - 1 + 1)
        with (index m + jsLength (group m 0)) by lia.
      reflexivity. }
    rewrite Hmembers. split.
    - destruct md; reflexivity.
    - cbn [negb andb]. destruct (_ || _); [intros r [] | apply incl_refl]. }
  assert (HF : forall md m, In m (matchAll fractionRegex eqn) ->
            SingleSpecScanner.concealFractionMatch eqn selection eqnStartBound md m
            = (if md then flat_map (fun c : Container => replacements (inner c))
                            (concealFractionMatch eqn m)
               else SingleSpecScanner.concealFractionMatch eqn selection
                      eqnStartBound false m)
            /\ incl (SingleSpecScanner.concealFractionMatch eqn selection
                       eqnStartBound false m)
                 (flat_map (fun c : Container => replacements (inner c))
                    (concealFractionMatch eqn m))).
  { intros md m Hm.
    destruct (fraction_matches eqn m Hm) as [Hcm _].
    unfold SingleSpecScanner.concealFractionMatch, concealFractionMatch. cbv zeta.
    rewrite (findMatchingBracket_from_brace eqn m "frac" Hcm eq_refl).
    set (j := findMatchingBracket eqn (index m) "{" "}" false None).
    destruct (j =? -1).
    { split; [destruct md; reflexivity | intros r []]. }
    destruct (negb (String.eqb (jsCharAt eqn (j + 1)) "{")).
    { split; [destruct md; reflexivity | intros r []]. }
    set (k := findMatchingBracket eqn (j + 1) "{" "}" false None).
    destruct (k =? -1).
    { split; [destruct md; reflexivity | intros r []]. }
    assert (Hmembers :
      flat_map (fun c : Container => replacements (inner c))
        [{| inner := Group [
              plain (index m) (index m + jsLength (group m 0) - 1) "";
              bracket (index m + jsLength (group m 0) - 1)
                (index m + jsLength (group m 0) - 1 + 1) "(";
              bracket j (j + 1) ")";
              bracket (j + 1) (j + 1) "/";
              bracket (j + 1) (j + 1 + 1) "(";
              bracket k (k + 1) ")" ] |}]
      = [ {| start := index m; end_ := index m + jsLength (group m 0) - 1;
             replacement := ""; class := None; elementType := None |};
          {| start := index m + jsLength (group m 0) - 1;
             end_ := index m + jsLength (group m 0);
             replacement := "(";
             class := Some "cm-bracket"; elementType := None |};
          {| start := j; end_ := j + 1; replacement := ")";
             class := Some "cm-bracket"; elementType := None |};
          {| start := j + 1; end_ := j + 1; replacement := "/";
             class := Some "cm-bracket"; elementType := None |};
          {| start := j + 1; end_ := j + 2; replacement := "(";
             class := Some "cm-bracket"; elementType := None |};
          {| start := k; end_ := k + 1; replacement := ")";
             class := Some "cm-bracket"; elementType := None |} ]).
    { cbn [flat_map inner replacements plain bracket app].
      replace (index m + jsLength (group m 0) - 1 + 1)
        with (index m + jsLength (group m 0)) by lia.
      replace (j + 1 + 1) with (j + 2) by lia.
      reflexivity. }
    rewrite Hmembers. split.
    - destruct md; reflexivity.
    - cbn [negb andb]. destruct (_ || _); [intros r [] | apply incl_refl]. }
  split; [split; [| split] | intros r; split; [| split]].
  - unfold SingleSpecScanner.concealBraKet, concealBraKet.
    rewrite flat_map_flat_map. apply flat_map_ext_In.
    intros m Hm. apply (HB true m Hm).
  - unfold SingleSpecScanner.concealSet, concealSet.
    rewrite flat_map_flat_map. apply flat_map_ext_In.
    intros m Hm. apply (HS true m Hm).
  - unfold SingleSpecScanner.concealFraction, concealFraction.
    rewrite flat_map_flat_map. apply flat_map_ext_In.
    intros m Hm. apply (HF true m Hm).
  - unfold SingleSpecScanner.concealBraKet, concealBraKet.
    rewrite flat_map_flat_map, !in_flat_map.
    intros (m & Hm & Hr). exists m. split; [exact Hm |].
    apply (proj2 (HB false m Hm)), Hr.
  - unfold SingleSpecScanner.concealSet, concealSet.
    rewrite flat_map_flat_map, !in_flat_map.
    intros (m & Hm & Hr). exists m. split; [exact Hm |].
    apply (proj2 (HS false m Hm)), Hr.
  - unfold SingleSpecScanner.concealFraction, concealFraction.
    rewrite flat_map_flat_map, !in_flat_map.
    intros (m & Hm & Hr). exists m. split; [exact Hm |].
    apply (proj2 (HF false m Hm)), Hr.
Qed.

(** ** The first revision *)

Lemma determineAction_conceal_iff (old : option CursorPosType)
    (new : CursorPosType) (mousedown : bool) :
  determineAction old new mousedown = a_conceal
  <-> mousedown = true \/ new = apart.
Proof.
  unfold determineAction.
  destruct mousedown; [split; auto |].
  destruct new; [| split; auto |];
    destruct old as [[] |];
    (split; [discriminate | intros [H | H]; discriminate]).
Qed.

(** X23: on a selection whose ranges are ordered, the array of ranges
    that the loop of the first revision of buildDecoSet fills, and hands
    to the host to build the set, holds exactly the decorations of those
    of its ordered replacements for which the decision table of the
    current revision answers conceal, whatever the earlier
    classification: the mouse button is down or the replacement is apart
    from the selection. *)
Theorem first_revision_decorates_concealed (sel : EditorSelection)
    (mousedown : bool) (concealments : list Replacement)
    (old : option CursorPosType) :
  orderedRanges sel ->
  Forall (fun r => start r <= end_ r) concealments ->
  ViewPluginRevision.widgets sel mousedown concealments
  = flat_map
      (fun r : Replacement =>
         if ConcealAction_eqb
              (determineAction old (determineCursorPosType sel (Single r)) mousedown)
              a_conceal
         then [decorationOf r] else [])
      concealments.
Proof.
  intros Hsel Hrs. unfold ViewPluginRevision.widgets.
  apply flat_map_ext_In. intros r Hr. cbv zeta.
  rewrite List.Forall_forall in Hrs. specialize (Hrs r Hr).
  pose proof (selectionAndRangeOverlap_iff sel r Hsel Hrs) as Hov.
  pose proof (determineCursorPosType_apart_iff sel (Single r)) as Hap.
  unfold somePair in Hap. cbn [replacements] in Hap.
  pose proof (determineAction_conceal_iff old
                (determineCursorPosType sel (Single r)) mousedown) as Hact.
  destruct mousedown.
  { rewrite andb_false_r. rewrite (proj2 Hact (or_introl eq_refl)). reflexivity. }
  rewrite andb_true_r.
  destruct (selectionAndRangeOverlap sel (start r) (end_ r)) eqn:Eo.
  - destruct (determineAction old (determineCursorPosType sel (Single r)) false)
      eqn:Ea; try reflexivity.
    exfalso. destruct (proj1 Hact eq_refl) as [H | H]; [discriminate |].
    destruct (proj1 Hov eq_refl) as (range & Hrange & Hmeet).
    apply (proj1 Hap H). exists range, r.
    split; [exact Hrange | split; [now left | exact Hmeet]].
  - assert (Ha : determineCursorPosType sel (Single r) = apart).
    { apply Hap. intros (range & r' & Hrange & [<- | []] & Hmeet).
      assert (Hf : false = true) by (apply Hov; exists range; split; assumption).
      discriminate. }
    rewrite (proj2 Hact (or_intror Ha)). reflexivity.
Qed.

Lemma first_revision_decorates_concealed_witness :
  let sel := mkSelection [mkRange 5 5] in
  let rs := [mkReplacement 0 5 "" None None; mkReplacement 6 7 "a" None None;
             mkReplacement 8 8 "/" None None] in
  ViewPluginRevision.widgets sel false rs
  = [ {| rangeFrom := 6; rangeTo := 7;
         value := replaceDecoration (newConcealWidget "a" None None)
                    false false false |};
      {| rangeFrom := 8; rangeTo := 8;
         value := widgetDecoration (TextWidget "/") false |} ].
Proof.
  cbv zeta.
  rewrite (first_revision_decorates_concealed (mkSelection [mkRange 5 5]) false
             [mkReplacement 0 5 "" None None; mkReplacement 6 7 "a" None None;
              mkReplacement 8 8 "/" None None]
             None).
  - reflexivity.
  - repeat constructor. cbn. lia.
  - repeat constructor; cbn; lia.
Defined.
